(** * OP-PatchStudio snapshots: clock, snapshot store and transition engine

    A shallow embedding of the snapshot feature of OP-PatchStudio
    (ClockEngine.ts, SnapshotEngine.ts, TransitionEngine.ts, types.ts, the
    value conversions of opxyParameters and the clock-port listeners of
    useSnapshotPlayback) together with the properties its specification
    states about them.

    Conventions of the embedding.
    - A JavaScript [number] that the code uses as a count, an index or a
      MIDI value is a [Z]; a [number] that the code divides (tempo,
      milliseconds, progress) is an exact rational [Q].  The tempo
      conversions are given a second time on IEEE binary64 numbers
      (module [Binary64]), to compare the two.
    - [Date.now()] and [uuidv4()] are read from the host: every operation
      that calls them takes the value that the call returned as an argument.
      Two calls of [Date.now()] within one operation are given the same
      reading.
    - A [Map] or a plain object with string keys is an association list in
      insertion order, the order in which the code enumerates it.  The
      host's table of pending timers, which is never enumerated, is a
      [gmap] from timer handles to what the timer runs.
    - Callbacks installed by the host are opaque to the engines; the engine
      state records the values passed to them, in call order. *)

From Stdlib Require Import ZArith QArith Qround Qminmax Qabs Lia Lqa.
From Stdlib Require Import String Ascii List Bool Floats.
From stdpp Require Import gmap strings list pretty.

Open Scope Z_scope.

(* ====================================================================== *)
(** * JavaScript arithmetic used by the sources *)
(* ====================================================================== *)

Module Js.

(** [Math.round]: nearest integer, ties towards +infinity. *)
Definition Math_round (x : Q) : Z := Qfloor (x + (1 # 2)).

(** [Math.ceil]. *)
Definition Math_ceil (x : Q) : Z := Qceiling x.

(** [Math.max(lo, Math.min(hi, v))] on rationals. *)
Definition clampQ (lo hi v : Q) : Q := Qmax lo (Qmin hi v).

(** [Math.pow(x, 3)]. *)
Definition pow3 (x : Q) : Q := x * x * x.

(** [String.prototype.toUpperCase], on ASCII text. *)
Definition upper_ascii (c : ascii) : ascii :=
  let n := nat_of_ascii c in
  if ((97 <=? n)%nat && (n <=? 122)%nat)%bool then ascii_of_nat (n - 32) else c.

Fixpoint toUpperCase (s : string) : string :=
  match s with
  | EmptyString => EmptyString
  | String c r => String (upper_ascii c) (toUpperCase r)
  end.

End Js.

(* ====================================================================== *)
(** * Value conversions (opxyParameters) *)
(* ====================================================================== *)

Module Conversions.
Import Js.
Local Open Scope Q_scope.

(** Convert BPM to MIDI CC value (assuming 40-240 BPM range). *)
Definition bpmToMidiValue (bpm : Q) : Z :=
  let minBpm := 40 in
  let maxBpm := 240 in
  let clampedBpm := Qmax minBpm (Qmin maxBpm bpm) in
  Math_round (((clampedBpm - minBpm) / (maxBpm - minBpm)) * 127).

(** Convert MIDI CC value to BPM (assuming 40-240 BPM range). *)
Definition midiValueToBpm (midiValue : Q) : Q :=
  let minBpm := 40 in
  let maxBpm := 240 in
  minBpm + (midiValue / 127) * (maxBpm - minBpm).

End Conversions.

(** The same two conversions on IEEE binary64 numbers, as the JavaScript
    engine evaluates them; [Math.round] is taken on the exact value of its
    argument. *)
Module Binary64.

(** The exact value of a finite binary64 number. *)
Definition exact (f : float) : option Q :=
  match Prim2SF f with
  | S754_zero _ => Some 0%Q
  | S754_finite s m e =>
    let mz := if s then Z.neg m else Z.pos m in
    Some (if 0 <=? e then inject_Z (mz * 2 ^ e) else (mz # Z.to_pos (2 ^ (- e)))%Q)
  | _ => None
  end.

Definition Math_round (f : float) : option Z :=
  match exact f with
  | Some q => Some (Js.Math_round q)
  | None => None
  end.

Definition Math_max (a b : float) : float := if PrimFloat.ltb a b then b else a.

Definition Math_min (a b : float) : float := if PrimFloat.ltb a b then a else b.

Definition of_Z (z : Z) : float := PrimFloat.of_uint63 (Uint63.of_Z z).

Definition bpmToMidiValue (bpm : float) : option Z :=
  let minBpm := 40%float in
  let maxBpm := 240%float in
  let clampedBpm := Math_max minBpm (Math_min maxBpm bpm) in
  Math_round (((clampedBpm - minBpm) / (maxBpm - minBpm)) * 127)%float.

Definition midiValueToBpm (midiValue : float) : float :=
  let minBpm := 40%float in
  let maxBpm := 240%float in
  (minBpm + (midiValue / 127) * (maxBpm - minBpm))%float.

End Binary64.

(* ====================================================================== *)
(** * types.ts: clock types *)
(* ====================================================================== *)

Inductive ClockSource : Type := internal | midi.

Inductive BoundaryKind : Type := beat | bar | bar2 | bar4.

Inductive QuantizationType : Type :=
  | none
  | every (q : BoundaryKind).

Record ClockState : Type := mkClockState {
  isRunning : bool;
  source : ClockSource;
  bpm : Q;
  currentBeat : Z;
  currentBar : Z;
  beatsPerBar : Z;
  ppqn : Z;
  lastTickTime : Z
}.

Inductive ClockEventType : Type := ev_bar | ev_beat | ev_tick.

Record ClockEvent : Type := mkClockEvent {
  ev_type : ClockEventType;
  ev_bar_no : Z;
  ev_beat_no : Z;
  ev_timestamp : Z
}.

(** [DEFAULT_CLOCK_STATE], also the state the constructor builds when it is
    given no initial state. *)
Definition DEFAULT_CLOCK_STATE : ClockState :=
  {| isRunning := false; source := internal; bpm := 120%Q;
     currentBeat := 0; currentBar := 0; beatsPerBar := 4; ppqn := 24;
     lastTickTime := 0 |}.

(* ====================================================================== *)
(** * ClockEngine *)
(* ====================================================================== *)

Module Clock.
Import Js.

(** The private fields of the class.  [intervalId] is the pending
    [setInterval] timer of the internal generator, represented by its
    period in milliseconds; [emitted] lists the events handed to [emit],
    oldest first. *)
Record ClockEngine : Type := mkClock {
  state : ClockState;
  intervalId : option Q;
  tickCount : Z;
  lastBeat : Z;
  lastBar : Z;
  emitted : list ClockEvent
}.

Definition constructor (initialState : ClockState) : ClockEngine :=
  {| state := initialState; intervalId := None; tickCount := 0;
     lastBeat := -1; lastBar := -1; emitted := [] |}.

Definition new : ClockEngine := constructor DEFAULT_CLOCK_STATE.

Definition with_state (f : ClockState -> ClockState) (c : ClockEngine) : ClockEngine :=
  {| state := f (state c); intervalId := intervalId c; tickCount := tickCount c;
     lastBeat := lastBeat c; lastBar := lastBar c; emitted := emitted c |}.

Definition set_isRunning (b : bool) (s : ClockState) : ClockState :=
  {| isRunning := b; source := source s; bpm := bpm s;
     currentBeat := currentBeat s; currentBar := currentBar s;
     beatsPerBar := beatsPerBar s; ppqn := ppqn s; lastTickTime := lastTickTime s |}.

Definition set_source (x : ClockSource) (s : ClockState) : ClockState :=
  {| isRunning := isRunning s; source := x; bpm := bpm s;
     currentBeat := currentBeat s; currentBar := currentBar s;
     beatsPerBar := beatsPerBar s; ppqn := ppqn s; lastTickTime := lastTickTime s |}.

Definition set_bpm (x : Q) (s : ClockState) : ClockState :=
  {| isRunning := isRunning s; source := source s; bpm := x;
     currentBeat := currentBeat s; currentBar := currentBar s;
     beatsPerBar := beatsPerBar s; ppqn := ppqn s; lastTickTime := lastTickTime s |}.

Definition set_currentBeat (x : Z) (s : ClockState) : ClockState :=
  {| isRunning := isRunning s; source := source s; bpm := bpm s;
     currentBeat := x; currentBar := currentBar s;
     beatsPerBar := beatsPerBar s; ppqn := ppqn s; lastTickTime := lastTickTime s |}.

Definition set_currentBar (x : Z) (s : ClockState) : ClockState :=
  {| isRunning := isRunning s; source := source s; bpm := bpm s;
     currentBeat := currentBeat s; currentBar := x;
     beatsPerBar := beatsPerBar s; ppqn := ppqn s; lastTickTime := lastTickTime s |}.

Definition set_lastTickTime (x : Z) (s : ClockState) : ClockState :=
  {| isRunning := isRunning s; source := source s; bpm := bpm s;
     currentBeat := currentBeat s; currentBar := currentBar s;
     beatsPerBar := beatsPerBar s; ppqn := ppqn s; lastTickTime := x |}.

Definition set_intervalId (x : option Q) (c : ClockEngine) : ClockEngine :=
  {| state := state c; intervalId := x; tickCount := tickCount c;
     lastBeat := lastBeat c; lastBar := lastBar c; emitted := emitted c |}.

Definition set_tickCount (x : Z) (c : ClockEngine) : ClockEngine :=
  {| state := state c; intervalId := intervalId c; tickCount := x;
     lastBeat := lastBeat c; lastBar := lastBar c; emitted := emitted c |}.

Definition set_lastBeat (x : Z) (c : ClockEngine) : ClockEngine :=
  {| state := state c; intervalId := intervalId c; tickCount := tickCount c;
     lastBeat := x; lastBar := lastBar c; emitted := emitted c |}.

Definition set_lastBar (x : Z) (c : ClockEngine) : ClockEngine :=
  {| state := state c; intervalId := intervalId c; tickCount := tickCount c;
     lastBeat := lastBeat c; lastBar := x; emitted := emitted c |}.

(** [emit]: the event reaches the listeners of its type and of ['all']. *)
Definition emit (e : ClockEvent) (c : ClockEngine) : ClockEngine :=
  {| state := state c; intervalId := intervalId c; tickCount := tickCount c;
     lastBeat := lastBeat c; lastBar := lastBar c; emitted := emitted c ++ [e] |}.

Definition msPerBeat (s : ClockState) : Q := ((60 / bpm s) * 1000)%Q.

Definition startInternalClock (c : ClockEngine) : ClockEngine :=
  let msPerTick := (msPerBeat (state c) / inject_Z (ppqn (state c)))%Q in
  set_intervalId (Some msPerTick) c.

Definition stopInternalClock (c : ClockEngine) : ClockEngine :=
  match intervalId c with
  | Some _ => set_intervalId None c
  | None => c
  end.

Definition start (now : Z) (c : ClockEngine) : ClockEngine :=
  if isRunning (state c) then c
  else
    let c1 := with_state (set_isRunning true) c in
    let c2 := with_state (set_lastTickTime now) c1 in
    match source (state c2) with
    | internal => startInternalClock c2
    | midi => c2
    end.

Definition stop (c : ClockEngine) : ClockEngine :=
  if negb (isRunning (state c)) then c
  else stopInternalClock (with_state (set_isRunning false) c).

Definition reset (c : ClockEngine) : ClockEngine :=
  let c1 := with_state (set_currentBeat 0) c in
  let c2 := with_state (set_currentBar 0) c1 in
  let c3 := set_tickCount 0 c2 in
  let c4 := set_lastBeat (-1) c3 in
  set_lastBar (-1) c4.

Definition advanceBeat (now : Z) (c : ClockEngine) : ClockEngine :=
  let c1 := with_state (set_currentBeat (currentBeat (state c) + 1)) c in
  let c2 :=
    if currentBeat (state c1) >=? beatsPerBar (state c1) then
      let d1 := with_state (set_currentBeat 0) c1 in
      let d2 := with_state (set_currentBar (currentBar (state d1) + 1)) d1 in
      let d3 := emit {| ev_type := ev_bar; ev_bar_no := currentBar (state d2);
                        ev_beat_no := currentBeat (state d2);
                        ev_timestamp := now |} d2 in
      set_lastBar (currentBar (state d3)) d3
    else c1 in
  if negb (lastBeat c2 =? currentBeat (state c2)) then
    let e1 := emit {| ev_type := ev_beat; ev_bar_no := currentBar (state c2);
                      ev_beat_no := currentBeat (state c2);
                      ev_timestamp := now |} c2 in
    set_lastBeat (currentBeat (state e1)) e1
  else c2.

Definition processMidiClockTick (now : Z) (c : ClockEngine) : ClockEngine :=
  match source (state c) with
  | internal => c
  | midi =>
    let c1 := with_state (set_lastTickTime now) c in
    let c2 := set_tickCount (tickCount c1 + 1) c1 in
    let c3 :=
      if tickCount c2 >=? ppqn (state c2)
      then advanceBeat now (set_tickCount 0 c2)
      else c2 in
    emit {| ev_type := ev_tick; ev_bar_no := currentBar (state c3);
            ev_beat_no := currentBeat (state c3); ev_timestamp := now |} c3
  end.

Definition processMidiStart (now : Z) (c : ClockEngine) : ClockEngine :=
  start now (reset c).

Definition processMidiStop (c : ClockEngine) : ClockEngine := stop c.

Definition processMidiContinue (now : Z) (c : ClockEngine) : ClockEngine :=
  start now c.

Definition setClockSource (src : ClockSource) (now : Z) (c : ClockEngine) : ClockEngine :=
  let wasRunning := isRunning (state c) in
  let c1 := if wasRunning then stop c else c in
  let c2 := with_state (set_source src) c1 in
  if wasRunning then start now c2 else c2.

Definition setBpm (b : Q) (c : ClockEngine) : ClockEngine :=
  let c1 := with_state (set_bpm (Qmax 20 (Qmin 300 b))) c in
  match isRunning (state c1), source (state c1) with
  | true, internal => startInternalClock (stopInternalClock c1)
  | _, _ => c1
  end.

Definition getState (c : ClockEngine) : ClockState := state c.

(** The number of beats the code waits for boundary kind [q]. *)
Definition beatsToWait (q : BoundaryKind) (s : ClockState) : Z :=
  match q with
  | beat => 1
  | bar => beatsPerBar s - currentBeat s
  | bar2 =>
    let beatsIn2Bars := beatsPerBar s * 2 in
    let currentBeatIn2BarCycle :=
      Z.rem (currentBar s) 2 * beatsPerBar s + currentBeat s in
    beatsIn2Bars - currentBeatIn2BarCycle
  | bar4 =>
    let beatsIn4Bars := beatsPerBar s * 4 in
    let currentBeatIn4BarCycle :=
      Z.rem (currentBar s) 4 * beatsPerBar s + currentBeat s in
    beatsIn4Bars - currentBeatIn4BarCycle
  end.

Definition getTimeUntilNextQuantization (q : BoundaryKind) (c : ClockEngine) : Q :=
  (inject_Z (beatsToWait q (state c)) * msPerBeat (state c))%Q.

Definition getTimeUntilBar (targetBar : Z) (c : ClockEngine) : Q :=
  let s := state c in
  if targetBar <=? currentBar s then 0%Q
  else
    let barsToWait := targetBar - currentBar s in
    let beats := barsToWait * beatsPerBar s - currentBeat s in
    (inject_Z beats * msPerBeat s)%Q.

Definition getNextCycleBar (cycleLengthBars : Z) (c : ClockEngine) : Z :=
  let currentBar := currentBar (state c) in
  Math_ceil (inject_Z (currentBar + 1) / inject_Z cycleLengthBars) * cycleLengthBars.

(** The operations a caller (or the internal interval timer, through
    [processMidiClockTick]) can apply to a clock. *)
Inductive Op : Type :=
  | OpStart (now : Z)
  | OpStop
  | OpReset
  | OpSetBpm (b : Q)
  | OpSetClockSource (src : ClockSource) (now : Z)
  | OpTick (now : Z)
  | OpMidiStart (now : Z)
  | OpMidiStop
  | OpMidiContinue (now : Z).

Definition apply (o : Op) (c : ClockEngine) : ClockEngine :=
  match o with
  | OpStart now => start now c
  | OpStop => stop c
  | OpReset => reset c
  | OpSetBpm b => setBpm b c
  | OpSetClockSource src now => setClockSource src now c
  | OpTick now => processMidiClockTick now c
  | OpMidiStart now => processMidiStart now c
  | OpMidiStop => processMidiStop c
  | OpMidiContinue now => processMidiContinue now c
  end.

Definition run (ops : list Op) (c : ClockEngine) : ClockEngine :=
  fold_left (fun acc o => apply o acc) ops c.

Inductive reachable : ClockEngine -> Prop :=
  | reach_new : reachable new
  | reach_step o c : reachable c -> reachable (apply o c).

(** The musical position counted in ticks since bar 0, beat 0. *)
Definition position_ticks (c : ClockEngine) : Z :=
  (currentBar (state c) * beatsPerBar (state c) + currentBeat (state c))
    * ppqn (state c) + tickCount c.

(** The position invariant of the clock. *)
Definition position_ok (c : ClockEngine) : Prop :=
  0 <= currentBeat (state c) < beatsPerBar (state c) /\
  0 <= currentBar (state c) /\
  0 <= tickCount c < ppqn (state c).

(** The duration of one period of kind [q], in beats. *)
Definition period_beats (q : BoundaryKind) (s : ClockState) : Z :=
  match q with
  | beat => 1
  | bar => beatsPerBar s
  | bar2 => 2 * beatsPerBar s
  | bar4 => 4 * beatsPerBar s
  end.

Definition period_ms (q : BoundaryKind) (s : ClockState) : Q :=
  (inject_Z (period_beats q s) * msPerBeat s)%Q.

(** The (bar, beat) position of the clock state is on a boundary of kind
    [q]: every position is the start of a beat, a bar starts at beat 0, an
    n-bar cycle starts at beat 0 of a bar whose index is a multiple of n. *)
Definition on_boundary (q : BoundaryKind) (s : ClockState) : bool :=
  match q with
  | beat => true
  | bar => currentBeat s =? 0
  | bar2 => (currentBeat s =? 0) && (currentBar s mod 2 =? 0)
  | bar4 => (currentBeat s =? 0) && (currentBar s mod 4 =? 0)
  end.

End Clock.

(* ====================================================================== *)
(** * useSnapshotPlayback: the listeners of the clock input port *)
(* ====================================================================== *)

(** The coordinator that owns the clock subscribes to the clock input port.
    Each listener tests the coordinator's view of the clock source
    ([clockSourceRef.current]) before it calls the clock; what the listeners
    do besides (updating the application state) does not touch the clock. *)
Module Coordinator.





End Coordinator.

(* ====================================================================== *)
(** * JavaScript [Map] and plain objects with string keys *)
(* ====================================================================== *)

(** Entries are kept in insertion order, as [Map.prototype.forEach],
    [Map.prototype.values] and [Object.values] enumerate them.  [set] on a
    key that is present replaces the value in place; on a new key it appends
    the entry.  The maps built by [set] alone have no duplicate keys. *)
Module JsMap.
Section JsMap.
Context {V : Type}.

Fixpoint get (k : string) (m : list (string * V)) : option V :=
  match m with
  | [] => None
  | (k', v) :: r => if String.eqb k' k then Some v else get k r
  end.

Fixpoint set (k : string) (v : V) (m : list (string * V)) : list (string * V) :=
  match m with
  | [] => [(k, v)]
  | (k', v') :: r =>
    if String.eqb k' k then (k', v) :: r else (k', v') :: set k v r
  end.

Fixpoint delete (k : string) (m : list (string * V)) : list (string * V) :=
  match m with
  | [] => []
  | (k', v') :: r =>
    if String.eqb k' k then r else (k', v') :: delete k r
  end.

Definition has (k : string) (m : list (string * V)) : bool :=
  match get k m with Some _ => true | None => false end.

Definition keys (m : list (string * V)) : list string := map fst m.

Definition values (m : list (string * V)) : list V := map snd m.

(** [{ ...a, ...b }]. *)
Definition spread (a b : list (string * V)) : list (string * V) :=
  fold_left (fun acc kv => set (fst kv) (snd kv) acc) b a.

End JsMap.
End JsMap.

(* ====================================================================== *)
(** * types.ts: MIDI messages, the parameter registry, snapshots *)
(* ====================================================================== *)

Inductive MIDIMessageType : Type := cc | pc | note | nrpn.

Record MIDIMessage : Type := mkMIDIMessage {
  msg_type : MIDIMessageType;
  msg_channel : Z;
  msg_value : Z;
  msg_cc : option Z;
  msg_note : option Z;
  msg_velocity : option Z;
  msg_nrpnMsb : option Z;
  msg_nrpnLsb : option Z
}.

#[global] Instance MIDIMessageType_eq_dec : EqDecision MIDIMessageType.
Proof. solve_decision. Defined.


Inductive Category : Type := scene | tempo | track | groove | transport.

Record OpxyParameter : Type := mkOpxyParameter {
  param_id : string;
  param_name : string;
  param_type : MIDIMessageType;
  param_channel : Z;
  param_cc : option Z;
  minValue : Z;
  maxValue : Z;
  defaultValue : Z;
  description : string;
  category : Category
}.

Definition OPXY_PARAMETERS : list (string * OpxyParameter) :=
  [ ("DELAYED_SCENE",
     {| param_id := "delayed_scene"; param_name := "Delayed Scene";
        param_type := cc; param_channel := 1; param_cc := Some 82;
        minValue := 0; maxValue := 127; defaultValue := 0;
        description := "Trigger scene change at end of bar";
        category := scene |});
    ("PREV_SCENE",
     {| param_id := "prev_scene"; param_name := "Previous Scene";
        param_type := cc; param_channel := 1; param_cc := Some 83;
        minValue := 0; maxValue := 127; defaultValue := 0;
        description := "Jump to previous scene";
        category := scene |});
    ("NEXT_SCENE",
     {| param_id := "next_scene"; param_name := "Next Scene";
        param_type := cc; param_channel := 1; param_cc := Some 84;
        minValue := 0; maxValue := 127; defaultValue := 0;
        description := "Jump to next scene";
        category := scene |});
    ("SCENE_DIRECT",
     {| param_id := "scene_direct"; param_name := "Scene Direct";
        param_type := cc; param_channel := 1; param_cc := Some 85;
        minValue := 0; maxValue := 127; defaultValue := 0;
        description := "Jump directly to scene (0-127)";
        category := scene |});
    ("TEMPO",
     {| param_id := "tempo"; param_name := "Tempo";
        param_type := cc; param_channel := 1; param_cc := Some 80;
        minValue := 0; maxValue := 127; defaultValue := 64;
        description := "Master tempo control";
        category := tempo |});
    ("GROOVE",
     {| param_id := "groove"; param_name := "Groove";
        param_type := cc; param_channel := 1; param_cc := Some 81;
        minValue := 0; maxValue := 127; defaultValue := 64;
        description := "Groove amount";
        category := groove |}) ].

(** The three entries that one turn of the loop of
    [generateTrackParameters] assigns, in assignment order. *)
Definition trackParametersOf (i : Z) : list (string * OpxyParameter) :=
  let n : string := pretty i in
  [ ("TRACK_" +:+ n +:+ "_VOLUME",
     {| param_id := "track_" +:+ n +:+ "_volume";
        param_name := "Track " +:+ n +:+ " Volume";
        param_type := cc; param_channel := i; param_cc := Some 7;
        minValue := 0; maxValue := 127; defaultValue := 100;
        description := "Volume for track " +:+ n;
        category := track |});
    ("TRACK_" +:+ n +:+ "_MUTE",
     {| param_id := "track_" +:+ n +:+ "_mute";
        param_name := "Track " +:+ n +:+ " Mute";
        param_type := cc; param_channel := i; param_cc := Some 9;
        minValue := 0; maxValue := 127; defaultValue := 0;
        description := "Mute track " +:+ n;
        category := track |});
    ("TRACK_" +:+ n +:+ "_PAN",
     {| param_id := "track_" +:+ n +:+ "_pan";
        param_name := "Track " +:+ n +:+ " Pan";
        param_type := cc; param_channel := i; param_cc := Some 10;
        minValue := 0; maxValue := 127; defaultValue := 64;
        description := "Pan for track " +:+ n;
        category := track |}) ].

Definition generateTrackParameters : list (string * OpxyParameter) :=
  fold_left (fun trackParams i => JsMap.spread trackParams (trackParametersOf i))
            (seqZ 1 16) [].

Record SnapshotParameter : Type := mkSnapshotParameter {
  parameterId : string;
  value : Z;
  isEnabled : bool
}.

Record Snapshot : Type := mkSnapshot {
  snapshot_id : string;
  snapshot_name : string;
  bank : Z;
  slot : Z;
  parameters : list SnapshotParameter;
  oneShotMessages : option (list MIDIMessage);
  color : option string;
  createdAt : Z;
  modifiedAt : Z
}.

(* ====================================================================== *)
(** * SnapshotEngine *)
(* ====================================================================== *)

Module Store.
Import Js.

Record SnapshotEngine : Type := mkStore {
  snapshots : list (string * Snapshot);
  currentValues : list (string * Z)
}.

Definition set_snapshots (x : list (string * Snapshot)) (e : SnapshotEngine) :=
  {| snapshots := x; currentValues := currentValues e |}.

Definition set_currentValues (x : list (string * Z)) (e : SnapshotEngine) :=
  {| snapshots := snapshots e; currentValues := x |}.

(** [{ ...OPXY_PARAMETERS, ...generateTrackParameters() }]. *)
Definition allParams : list (string * OpxyParameter) :=
  JsMap.spread OPXY_PARAMETERS generateTrackParameters.

Definition initializeDefaultValues (e : SnapshotEngine) : SnapshotEngine :=
  let setDefault (cv : list (string * Z)) (param : OpxyParameter) :=
    JsMap.set (param_id param) (defaultValue param) cv in
  let cv1 := fold_left setDefault (JsMap.values OPXY_PARAMETERS) [] in
  let cv2 := fold_left setDefault (JsMap.values generateTrackParameters) cv1 in
  set_currentValues cv2 e.

Definition constructor : SnapshotEngine :=
  initializeDefaultValues {| snapshots := []; currentValues := [] |}.

Definition defaultName (bank slot : Z) : string :=
  "Snapshot " +:+ pretty bank +:+ "-" +:+ pretty slot.

(** [uuid] is the value of [uuidv4()], [now] that of [Date.now()]. *)
Definition createSnapshot (bank slot : Z) (name : option string)
           (uuid : string) (now : Z) (e : SnapshotEngine)
  : Snapshot * SnapshotEngine :=
  let snapshot :=
    {| snapshot_id := uuid;
       snapshot_name := default (defaultName bank slot) name;
       bank := bank; slot := slot;
       parameters := []; oneShotMessages := Some [];
       color := None; createdAt := now; modifiedAt := now |} in
  (snapshot, set_snapshots (JsMap.set uuid snapshot (snapshots e)) e).

Definition with_parameters (ps : list SnapshotParameter) (s : Snapshot) : Snapshot :=
  {| snapshot_id := snapshot_id s; snapshot_name := snapshot_name s;
     bank := bank s; slot := slot s; parameters := ps;
     oneShotMessages := oneShotMessages s; color := color s;
     createdAt := createdAt s; modifiedAt := modifiedAt s |}.

Definition with_modifiedAt (now : Z) (s : Snapshot) : Snapshot :=
  {| snapshot_id := snapshot_id s; snapshot_name := snapshot_name s;
     bank := bank s; slot := slot s; parameters := parameters s;
     oneShotMessages := oneShotMessages s; color := color s;
     createdAt := createdAt s; modifiedAt := now |}.

Definition captureSnapshot (bank slot : Z) (name : option string)
           (uuid : string) (now : Z) (e : SnapshotEngine)
  : Snapshot * SnapshotEngine :=
  let '(snapshot, e1) := createSnapshot bank slot name uuid now e in
  let ps := map (fun kv => {| parameterId := fst kv; value := snd kv;
                              isEnabled := true |}) (currentValues e1) in
  let snapshot' := with_parameters ps snapshot in
  (snapshot', set_snapshots (JsMap.set (snapshot_id snapshot') snapshot' (snapshots e1)) e1).

Definition getSnapshot (id : string) (e : SnapshotEngine) : option Snapshot :=
  JsMap.get id (snapshots e).

Definition getAllSnapshots (e : SnapshotEngine) : list Snapshot :=
  JsMap.values (snapshots e).

Definition deleteSnapshot (id : string) (e : SnapshotEngine) : bool * SnapshotEngine :=
  (JsMap.has id (snapshots e), set_snapshots (JsMap.delete id (snapshots e)) e).

(** [parameters.findIndex(p => p.parameterId === parameterId)]. *)
Fixpoint findIndex (pid : string) (ps : list SnapshotParameter) : option nat :=
  match ps with
  | [] => None
  | p :: r =>
    if String.eqb (parameterId p) pid then Some O
    else option_map S (findIndex pid r)
  end.

Definition updateSnapshotParameter (snapshotId pid : string) (v : Z)
           (enabled : bool) (now : Z) (e : SnapshotEngine)
  : bool * SnapshotEngine :=
  match JsMap.get snapshotId (snapshots e) with
  | None => (false, e)
  | Some snapshot =>
    let entry := {| parameterId := pid; value := Z.max 0 (Z.min 127 v);
                    isEnabled := enabled |} in
    let ps :=
      match findIndex pid (parameters snapshot) with
      | Some existingIndex => <[existingIndex := entry]> (parameters snapshot)
      | None => parameters snapshot ++ [entry]
      end in
    let snapshot' := with_modifiedAt now (with_parameters ps snapshot) in
    (true, set_snapshots (JsMap.set snapshotId snapshot' (snapshots e)) e)
  end.

Definition updateCurrentValue (pid : string) (v : Z) (e : SnapshotEngine)
  : SnapshotEngine :=
  set_currentValues (JsMap.set pid (Z.max 0 (Z.min 127 v)) (currentValues e)) e.

Definition getCurrentValue (pid : string) (e : SnapshotEngine) : option Z :=
  JsMap.get pid (currentValues e).

Definition resetCurrentValues (e : SnapshotEngine) : SnapshotEngine :=
  initializeDefaultValues e.

Definition parameterToMidiMessage (pid : string) (v : Z) : option MIDIMessage :=
  match JsMap.get (toUpperCase pid) allParams with
  | None => None
  | Some paramDef =>
    Some {| msg_type := param_type paramDef;
            msg_channel := param_channel paramDef;
            msg_value := v;
            msg_cc := param_cc paramDef;
            msg_note := None; msg_velocity := None;
            msg_nrpnMsb := None; msg_nrpnLsb := None |}
  end.

(** The messages that the loop over [snapshot.parameters] pushes. *)
Fixpoint parameterMessages (ps : list SnapshotParameter) : list MIDIMessage :=
  match ps with
  | [] => []
  | param :: r =>
    if negb (isEnabled param) then parameterMessages r
    else
      match parameterToMidiMessage (parameterId param) (value param) with
      | Some midiMessage => midiMessage :: parameterMessages r
      | None => parameterMessages r
      end
  end.

Definition getSnapshotMidiMessages (snapshotId : string) (e : SnapshotEngine)
  : list MIDIMessage :=
  match JsMap.get snapshotId (snapshots e) with
  | None => []
  | Some snapshot =>
    parameterMessages (parameters snapshot)
      ++ match oneShotMessages snapshot with
         | Some l => l
         | None => []
         end
  end.

Definition getInterpolationTargets (snapshotId : string) (e : SnapshotEngine)
  : list (string * Z) :=
  match JsMap.get snapshotId (snapshots e) with
  | None => []
  | Some snapshot =>
    fold_left (fun targets param =>
                 if isEnabled param
                 then JsMap.set (parameterId param) (value param) targets
                 else targets)
              (parameters snapshot) []
  end.

(** The channel and controller number that a registry entry puts on the
    wire. *)
Definition wireOf (paramDef : OpxyParameter) : Z * option Z :=
  (param_channel paramDef, param_cc paramDef).

Definition loadSnapshots (l : list Snapshot) (e : SnapshotEngine) : SnapshotEngine :=
  set_snapshots
    (fold_left (fun m snapshot => JsMap.set (snapshot_id snapshot) snapshot m) l [])
    e.

Definition exportSnapshots (e : SnapshotEngine) : list Snapshot :=
  JsMap.values (snapshots e).

End Store.

(* ====================================================================== *)
(** * types.ts: transition types *)
(* ====================================================================== *)

Inductive TransitionMode : Type := mode_jump | mode_drop.

Record TransitionSettings : Type := mkSettings {
  mode : TransitionMode;
  fadeTimeMs : Q;
  quantization : QuantizationType;
  cycleLengthBars : Z;
  clockSource : ClockSource;
  internalBpm : Q;
  repeatMode : bool
}.

Record ScheduledTransition : Type := mkScheduled {
  scheduled_snapshot : Snapshot;
  scheduled_mode : TransitionMode;
  targetBar : option Z;
  targetBeat : option Z;
  scheduledAt : Z;
  executeAt : Q
}.

Record InterpolationState : Type := mkInterpolation {
  active : bool;
  interpolation_snapshot : Snapshot;
  startValues : list (string * Z);
  targetValues : list (string * Z);
  startTime : Z;
  duration : Q;
  parametersToInterpolate : list string
}.

(* ====================================================================== *)
(** * TransitionEngine *)
(* ====================================================================== *)

Module Transition.
Import Js.

(** What a pending host timer runs when it fires: the closure given to
    [setTimeout] by [scheduleQuantizedJump] or by [executeDrop], or the
    frame callback given to [setInterval] by [startInterpolationLoop]. *)
Inductive TimerTask : Type :=
  | JumpTimeout (snapshot : Snapshot) (fadeTimeMs : Q) (delayMs : Q)
  | DropTimeout (snapshot : Snapshot) (repeatMode : bool) (delayMs : Q)
  | FrameInterval (periodMs : Q).

(** The fields of the class, the two engines it holds references to, and
    the host side: the table of pending timers with the next free handle,
    and the arguments of the calls made to the three callbacks, oldest
    first.  A callback field is [true] when a callback is installed. *)
Record TransitionEngine : Type := mkEngine {
  clockEngine : Clock.ClockEngine;
  snapshotEngine : Store.SnapshotEngine;
  scheduledTransition : option ScheduledTransition;
  interpolationState : option InterpolationState;
  interpolationTimerId : option nat;
  transitionTimerId : option nat;
  midiSendCallback : bool;
  interpolationUpdateCallback : bool;
  transitionCompleteCallback : bool;
  timers : gmap nat TimerTask;
  nextTimerId : nat;
  midiSent : list MIDIMessage;
  interpolationUpdates : list InterpolationState;
  transitionsCompleted : list Snapshot
}.

Definition set_clockEngine (x : Clock.ClockEngine) (t : TransitionEngine) : TransitionEngine :=
  {| clockEngine := x; snapshotEngine := snapshotEngine t;
     scheduledTransition := scheduledTransition t;
     interpolationState := interpolationState t;
     interpolationTimerId := interpolationTimerId t;
     transitionTimerId := transitionTimerId t;
     midiSendCallback := midiSendCallback t;
     interpolationUpdateCallback := interpolationUpdateCallback t;
     transitionCompleteCallback := transitionCompleteCallback t;
     timers := timers t; nextTimerId := nextTimerId t;
     midiSent := midiSent t;
     interpolationUpdates := interpolationUpdates t;
     transitionsCompleted := transitionsCompleted t |}.

Definition set_snapshotEngine (x : Store.SnapshotEngine) (t : TransitionEngine) : TransitionEngine :=
  {| clockEngine := clockEngine t; snapshotEngine := x;
     scheduledTransition := scheduledTransition t;
     interpolationState := interpolationState t;
     interpolationTimerId := interpolationTimerId t;
     transitionTimerId := transitionTimerId t;
     midiSendCallback := midiSendCallback t;
     interpolationUpdateCallback := interpolationUpdateCallback t;
     transitionCompleteCallback := transitionCompleteCallback t;
     timers := timers t; nextTimerId := nextTimerId t;
     midiSent := midiSent t;
     interpolationUpdates := interpolationUpdates t;
     transitionsCompleted := transitionsCompleted t |}.

Definition set_scheduledTransition (x : option ScheduledTransition) (t : TransitionEngine) : TransitionEngine :=
  {| clockEngine := clockEngine t; snapshotEngine := snapshotEngine t;
     scheduledTransition := x; interpolationState := interpolationState t;
     interpolationTimerId := interpolationTimerId t;
     transitionTimerId := transitionTimerId t;
     midiSendCallback := midiSendCallback t;
     interpolationUpdateCallback := interpolationUpdateCallback t;
     transitionCompleteCallback := transitionCompleteCallback t;
     timers := timers t; nextTimerId := nextTimerId t;
     midiSent := midiSent t;
     interpolationUpdates := interpolationUpdates t;
     transitionsCompleted := transitionsCompleted t |}.

Definition set_interpolationState (x : option InterpolationState) (t : TransitionEngine) : TransitionEngine :=
  {| clockEngine := clockEngine t; snapshotEngine := snapshotEngine t;
     scheduledTransition := scheduledTransition t; interpolationState := x;
     interpolationTimerId := interpolationTimerId t;
     transitionTimerId := transitionTimerId t;
     midiSendCallback := midiSendCallback t;
     interpolationUpdateCallback := interpolationUpdateCallback t;
     transitionCompleteCallback := transitionCompleteCallback t;
     timers := timers t; nextTimerId := nextTimerId t;
     midiSent := midiSent t;
     interpolationUpdates := interpolationUpdates t;
     transitionsCompleted := transitionsCompleted t |}.

Definition set_interpolationTimerId (x : option nat) (t : TransitionEngine) : TransitionEngine :=
  {| clockEngine := clockEngine t; snapshotEngine := snapshotEngine t;
     scheduledTransition := scheduledTransition t;
     interpolationState := interpolationState t; interpolationTimerId := x;
     transitionTimerId := transitionTimerId t;
     midiSendCallback := midiSendCallback t;
     interpolationUpdateCallback := interpolationUpdateCallback t;
     transitionCompleteCallback := transitionCompleteCallback t;
     timers := timers t; nextTimerId := nextTimerId t;
     midiSent := midiSent t;
     interpolationUpdates := interpolationUpdates t;
     transitionsCompleted := transitionsCompleted t |}.

Definition set_transitionTimerId (x : option nat) (t : TransitionEngine) : TransitionEngine :=
  {| clockEngine := clockEngine t; snapshotEngine := snapshotEngine t;
     scheduledTransition := scheduledTransition t;
     interpolationState := interpolationState t;
     interpolationTimerId := interpolationTimerId t;
     transitionTimerId := x; midiSendCallback := midiSendCallback t;
     interpolationUpdateCallback := interpolationUpdateCallback t;
     transitionCompleteCallback := transitionCompleteCallback t;
     timers := timers t; nextTimerId := nextTimerId t;
     midiSent := midiSent t;
     interpolationUpdates := interpolationUpdates t;
     transitionsCompleted := transitionsCompleted t |}.

Definition set_midiSendCallback (x : bool) (t : TransitionEngine) : TransitionEngine :=
  {| clockEngine := clockEngine t; snapshotEngine := snapshotEngine t;
     scheduledTransition := scheduledTransition t;
     interpolationState := interpolationState t;
     interpolationTimerId := interpolationTimerId t;
     transitionTimerId := transitionTimerId t; midiSendCallback := x;
     interpolationUpdateCallback := interpolationUpdateCallback t;
     transitionCompleteCallback := transitionCompleteCallback t;
     timers := timers t; nextTimerId := nextTimerId t;
     midiSent := midiSent t;
     interpolationUpdates := interpolationUpdates t;
     transitionsCompleted := transitionsCompleted t |}.

Definition set_interpolationUpdateCallback (x : bool) (t : TransitionEngine) : TransitionEngine :=
  {| clockEngine := clockEngine t; snapshotEngine := snapshotEngine t;
     scheduledTransition := scheduledTransition t;
     interpolationState := interpolationState t;
     interpolationTimerId := interpolationTimerId t;
     transitionTimerId := transitionTimerId t;
     midiSendCallback := midiSendCallback t;
     interpolationUpdateCallback := x;
     transitionCompleteCallback := transitionCompleteCallback t;
     timers := timers t; nextTimerId := nextTimerId t;
     midiSent := midiSent t;
     interpolationUpdates := interpolationUpdates t;
     transitionsCompleted := transitionsCompleted t |}.

Definition set_transitionCompleteCallback (x : bool) (t : TransitionEngine) : TransitionEngine :=
  {| clockEngine := clockEngine t; snapshotEngine := snapshotEngine t;
     scheduledTransition := scheduledTransition t;
     interpolationState := interpolationState t;
     interpolationTimerId := interpolationTimerId t;
     transitionTimerId := transitionTimerId t;
     midiSendCallback := midiSendCallback t;
     interpolationUpdateCallback := interpolationUpdateCallback t;
     transitionCompleteCallback := x; timers := timers t;
     nextTimerId := nextTimerId t; midiSent := midiSent t;
     interpolationUpdates := interpolationUpdates t;
     transitionsCompleted := transitionsCompleted t |}.

Definition set_timers (x : gmap nat TimerTask) (t : TransitionEngine) : TransitionEngine :=
  {| clockEngine := clockEngine t; snapshotEngine := snapshotEngine t;
     scheduledTransition := scheduledTransition t;
     interpolationState := interpolationState t;
     interpolationTimerId := interpolationTimerId t;
     transitionTimerId := transitionTimerId t;
     midiSendCallback := midiSendCallback t;
     interpolationUpdateCallback := interpolationUpdateCallback t;
     transitionCompleteCallback := transitionCompleteCallback t;
     timers := x; nextTimerId := nextTimerId t; midiSent := midiSent t;
     interpolationUpdates := interpolationUpdates t;
     transitionsCompleted := transitionsCompleted t |}.

Definition set_nextTimerId (x : nat) (t : TransitionEngine) : TransitionEngine :=
  {| clockEngine := clockEngine t; snapshotEngine := snapshotEngine t;
     scheduledTransition := scheduledTransition t;
     interpolationState := interpolationState t;
     interpolationTimerId := interpolationTimerId t;
     transitionTimerId := transitionTimerId t;
     midiSendCallback := midiSendCallback t;
     interpolationUpdateCallback := interpolationUpdateCallback t;
     transitionCompleteCallback := transitionCompleteCallback t;
     timers := timers t; nextTimerId := x; midiSent := midiSent t;
     interpolationUpdates := interpolationUpdates t;
     transitionsCompleted := transitionsCompleted t |}.

Definition set_midiSent (x : list MIDIMessage) (t : TransitionEngine) : TransitionEngine :=
  {| clockEngine := clockEngine t; snapshotEngine := snapshotEngine t;
     scheduledTransition := scheduledTransition t;
     interpolationState := interpolationState t;
     interpolationTimerId := interpolationTimerId t;
     transitionTimerId := transitionTimerId t;
     midiSendCallback := midiSendCallback t;
     interpolationUpdateCallback := interpolationUpdateCallback t;
     transitionCompleteCallback := transitionCompleteCallback t;
     timers := timers t; nextTimerId := nextTimerId t; midiSent := x;
     interpolationUpdates := interpolationUpdates t;
     transitionsCompleted := transitionsCompleted t |}.

Definition set_interpolationUpdates (x : list InterpolationState) (t : TransitionEngine) : TransitionEngine :=
  {| clockEngine := clockEngine t; snapshotEngine := snapshotEngine t;
     scheduledTransition := scheduledTransition t;
     interpolationState := interpolationState t;
     interpolationTimerId := interpolationTimerId t;
     transitionTimerId := transitionTimerId t;
     midiSendCallback := midiSendCallback t;
     interpolationUpdateCallback := interpolationUpdateCallback t;
     transitionCompleteCallback := transitionCompleteCallback t;
     timers := timers t; nextTimerId := nextTimerId t;
     midiSent := midiSent t; interpolationUpdates := x;
     transitionsCompleted := transitionsCompleted t |}.

Definition set_transitionsCompleted (x : list Snapshot) (t : TransitionEngine) : TransitionEngine :=
  {| clockEngine := clockEngine t; snapshotEngine := snapshotEngine t;
     scheduledTransition := scheduledTransition t;
     interpolationState := interpolationState t;
     interpolationTimerId := interpolationTimerId t;
     transitionTimerId := transitionTimerId t;
     midiSendCallback := midiSendCallback t;
     interpolationUpdateCallback := interpolationUpdateCallback t;
     transitionCompleteCallback := transitionCompleteCallback t;
     timers := timers t; nextTimerId := nextTimerId t;
     midiSent := midiSent t;
     interpolationUpdates := interpolationUpdates t;
     transitionsCompleted := x |}.


Definition constructor (clock : Clock.ClockEngine) (store : Store.SnapshotEngine)
  : TransitionEngine :=
  {| clockEngine := clock; snapshotEngine := store;
     scheduledTransition := None; interpolationState := None;
     interpolationTimerId := None; transitionTimerId := None;
     midiSendCallback := false; interpolationUpdateCallback := false;
     transitionCompleteCallback := false;
     timers := ∅; nextTimerId := O;
     midiSent := []; interpolationUpdates := []; transitionsCompleted := [] |}.

Definition onMidiSend (t : TransitionEngine) : TransitionEngine :=
  set_midiSendCallback true t.

Definition onInterpolationUpdate (t : TransitionEngine) : TransitionEngine :=
  set_interpolationUpdateCallback true t.

Definition onTransitionComplete (t : TransitionEngine) : TransitionEngine :=
  set_transitionCompleteCallback true t.

(** Host timers. *)
Definition setTimer (task : TimerTask) (t : TransitionEngine) : nat * TransitionEngine :=
  let handle := nextTimerId t in
  (handle, set_nextTimerId (S handle) (set_timers (<[handle := task]> (timers t)) t)).

Definition clearTimer (handle : nat) (t : TransitionEngine) : TransitionEngine :=
  set_timers (delete handle (timers t)) t.

(** Calls of the installed callbacks. *)
Definition sendMidiMessage (message : MIDIMessage) (t : TransitionEngine)
  : TransitionEngine :=
  if midiSendCallback t then set_midiSent (midiSent t ++ [message]) t else t.

Definition notifyInterpolation (st : InterpolationState) (t : TransitionEngine)
  : TransitionEngine :=
  if interpolationUpdateCallback t
  then set_interpolationUpdates (interpolationUpdates t ++ [st]) t
  else t.

Definition notifyComplete (snapshot : Snapshot) (t : TransitionEngine)
  : TransitionEngine :=
  if transitionCompleteCallback t
  then set_transitionsCompleted (transitionsCompleted t ++ [snapshot]) t
  else t.

Definition easeOutCubic (t : Q) : Q := (1 - pow3 (1 - t))%Q.

(** [Math.min(elapsed / duration, 1.0)], for [duration] other than 0. *)
Definition progressAt (elapsed duration : Q) : Q :=
  Qmin (elapsed / duration) 1.

(** The eased progress of a frame [elapsed] ms after the start. *)
Definition easedProgressAt (elapsed duration : Q) : Q :=
  easeOutCubic (progressAt elapsed duration).

Definition stopInterpolationLoop (t : TransitionEngine) : TransitionEngine :=
  match interpolationTimerId t with
  | Some handle => set_interpolationTimerId None (clearTimer handle t)
  | None => t
  end.

Definition cancelActiveTransition (t : TransitionEngine) : TransitionEngine :=
  let t1 :=
    match transitionTimerId t with
    | Some handle => set_transitionTimerId None (clearTimer handle t)
    | None => t
    end in
  let t2 := set_scheduledTransition None t1 in
  let t3 := stopInterpolationLoop t2 in
  match interpolationState t3 with
  | Some _ => set_interpolationState None t3
  | None => t3
  end.

Definition getScheduledTransition (t : TransitionEngine) : option ScheduledTransition :=
  scheduledTransition t.

Definition getInterpolationState (t : TransitionEngine) : option InterpolationState :=
  interpolationState t.

Definition isTransitionActive (t : TransitionEngine) : bool :=
  match scheduledTransition t with
  | Some _ => true
  | None =>
    match interpolationState t with
    | Some st => active st
    | None => false
    end
  end.

Definition sendParameterValue (pid : string) (v : Z) (uuid : string) (now : Z)
           (t : TransitionEngine) : TransitionEngine :=
  let '(snapshot, e1) :=
    Store.createSnapshot 0 0 (Some "temp") uuid now (snapshotEngine t) in
  let '(_, e2) :=
    Store.updateSnapshotParameter (snapshot_id snapshot) pid v true now e1 in
  let messages := Store.getSnapshotMidiMessages (snapshot_id snapshot) e2 in
  let t1 := set_snapshotEngine e2 t in
  let t2 :=
    match messages with
    | m :: _ => sendMidiMessage m t1
    | [] => t1
    end in
  let '(_, e3) := Store.deleteSnapshot (snapshot_id snapshot) (snapshotEngine t2) in
  set_snapshotEngine e3 t2.

Definition startInterpolationLoop (t : TransitionEngine) : TransitionEngine :=
  let '(handle, t1) := setTimer (FrameInterval (1000 / 60)) t in
  set_interpolationTimerId (Some handle) t1.

Definition startJumpInterpolation (snapshot : Snapshot) (fadeTimeMs : Q) (now : Z)
           (t : TransitionEngine) : TransitionEngine :=
  let targetValues :=
    Store.getInterpolationTargets (snapshot_id snapshot) (snapshotEngine t) in
  match targetValues with
  | [] => t
  | _ :: _ =>
    let startValues :=
      fold_left (fun acc kv =>
                   let currentValue :=
                     default (snd kv)
                             (Store.getCurrentValue (fst kv) (snapshotEngine t)) in
                   JsMap.set (fst kv) currentValue acc)
                targetValues [] in
    let st :=
      {| active := true; interpolation_snapshot := snapshot;
         startValues := startValues; targetValues := targetValues;
         startTime := now; duration := fadeTimeMs;
         parametersToInterpolate := JsMap.keys targetValues |} in
    let t1 := set_interpolationState (Some st) t in
    let t2 := notifyInterpolation st t1 in
    startInterpolationLoop t2
  end.

Definition calculateTargetBeat (q : QuantizationType) (s : ClockState) : Z :=
  match q with
  | every beat => currentBeat s + 1
  | every bar => 0
  | every bar2 => 0
  | every bar4 => 0
  | none => currentBeat s
  end.

Definition scheduleQuantizedJump (snapshot : Snapshot) (settings : TransitionSettings)
           (q : BoundaryKind) (now : Z) (t : TransitionEngine) : TransitionEngine :=
  let delayMs := Clock.getTimeUntilNextQuantization q (clockEngine t) in
  let clockState := Clock.getState (clockEngine t) in
  let targetBeat := calculateTargetBeat (quantization settings) clockState in
  let t1 :=
    set_scheduledTransition
      (Some {| scheduled_snapshot := snapshot; scheduled_mode := mode_jump;
               targetBar := None; targetBeat := Some targetBeat;
               scheduledAt := now; executeAt := (inject_Z now + delayMs)%Q |}) t in
  let '(handle, t2) := setTimer (JumpTimeout snapshot (fadeTimeMs settings) delayMs) t1 in
  set_transitionTimerId (Some handle) t2.

Definition executeJump (snapshot : Snapshot) (settings : TransitionSettings) (now : Z)
           (t : TransitionEngine) : TransitionEngine :=
  let t1 := cancelActiveTransition t in
  match quantization settings with
  | none => startJumpInterpolation snapshot (fadeTimeMs settings) now t1
  | every q => scheduleQuantizedJump snapshot settings q now t1
  end.

Definition executeDrop (snapshot : Snapshot) (settings : TransitionSettings) (now : Z)
           (t : TransitionEngine) : TransitionEngine :=
  let t1 := cancelActiveTransition t in
  let targetBar := Clock.getNextCycleBar (cycleLengthBars settings) (clockEngine t1) in
  let delayMs := Clock.getTimeUntilBar targetBar (clockEngine t1) in
  let t2 :=
    set_scheduledTransition
      (Some {| scheduled_snapshot := snapshot; scheduled_mode := mode_drop;
               targetBar := Some targetBar; targetBeat := None;
               scheduledAt := now; executeAt := (inject_Z now + delayMs)%Q |}) t1 in
  let '(handle, t3) := setTimer (DropTimeout snapshot (repeatMode settings) delayMs) t2 in
  set_transitionTimerId (Some handle) t3.

Definition executeDropImmediate (snapshot : Snapshot) (repeatMode : bool)
           (t : TransitionEngine) : TransitionEngine :=
  let messages :=
    Store.getSnapshotMidiMessages (snapshot_id snapshot) (snapshotEngine t) in
  let t1 := fold_left (fun acc message => sendMidiMessage message acc) messages t in
  let targets :=
    Store.getInterpolationTargets (snapshot_id snapshot) (snapshotEngine t1) in
  let t2 :=
    fold_left (fun acc kv =>
                 set_snapshotEngine
                   (Store.updateCurrentValue (fst kv) (snd kv) (snapshotEngine acc)) acc)
              targets t1 in
  let t3 := notifyComplete snapshot t2 in
  let t4 := set_scheduledTransition None t3 in
  if repeatMode
  then t4 (* placeholder in the source: the branch is empty *)
  else t4.

(** One parameter of one frame: interpolate, send, update the shadow. *)
Definition frameParameter (st : InterpolationState) (easedProgress : Q) (now : Z)
           (uuid : string) (pid : string) (t : TransitionEngine) : TransitionEngine :=
  let startValue := default 0 (JsMap.get pid (startValues st)) in
  let targetValue := default 0 (JsMap.get pid (targetValues st)) in
  let currentValue :=
    Math_round (inject_Z startValue
                + inject_Z (targetValue - startValue) * easedProgress)%Q in
  let t1 := sendParameterValue pid currentValue uuid now t in
  set_snapshotEngine
    (Store.updateCurrentValue pid currentValue (snapshotEngine t1)) t1.

(** The loop over [parametersToInterpolate]; [uuids i] is the identifier
    drawn for the temporary snapshot of the i-th parameter. *)
Fixpoint frameParameters (st : InterpolationState) (easedProgress : Q) (now : Z)
         (uuids : nat -> string) (i : nat) (pids : list string)
         (t : TransitionEngine) : TransitionEngine :=
  match pids with
  | [] => t
  | pid :: r =>
    frameParameters st easedProgress now uuids (S i) r
                    (frameParameter st easedProgress now (uuids i) pid t)
  end.

(** The frame callback of [startInterpolationLoop], for a state whose
    duration is not 0 (with a duration of 0 the quotient is not a finite
    number and the frame is outside this model: [None]). *)
Definition interpolationFrame (now : Z) (uuids : nat -> string)
           (t : TransitionEngine) : option TransitionEngine :=
  match interpolationState t with
  | None => Some (stopInterpolationLoop t)
  | Some st =>
    if negb (active st) then Some (stopInterpolationLoop t)
    else if Qeq_bool (duration st) 0 then None
    else
      let elapsed := inject_Z (now - startTime st) in
      let progress := progressAt elapsed (duration st) in
      let easedProgress := easeOutCubic progress in
      let t1 := frameParameters st easedProgress now uuids O
                                (parametersToInterpolate st) t in
      if Qle_bool 1 progress then
        let t2 := stopInterpolationLoop t1 in
        let t3 := notifyComplete (interpolation_snapshot st) t2 in
        Some (set_interpolationState None t3)
      else
        Some (notifyInterpolation st t1)
  end.


(** The pending timer [handle] fires. *)
Definition fireTimer (handle : nat) (now : Z) (uuids : nat -> string)
           (t : TransitionEngine) : option TransitionEngine :=
  match timers t !! handle with
  | None => Some t
  | Some (DropTimeout snapshot repeatMode _) =>
    Some (executeDropImmediate snapshot repeatMode (clearTimer handle t))
  | Some (JumpTimeout snapshot fadeTimeMs _) =>
    Some (set_scheduledTransition None
            (startJumpInterpolation snapshot fadeTimeMs now (clearTimer handle t)))
  | Some (FrameInterval _) => interpolationFrame now uuids t
  end.

End Transition.

(* ====================================================================== *)
(** * Concrete snapshots and engines used in examples *)
(* ====================================================================== *)

Module Scenario.
Import Store Transition.

(** The wire message of the registry entry TEMPO with value 64. *)
Definition tempo64 : MIDIMessage :=
  {| msg_type := cc; msg_channel := 1; msg_value := 64; msg_cc := Some 80;
     msg_note := None; msg_velocity := None;
     msg_nrpnMsb := None; msg_nrpnLsb := None |}.

Definition snapshotOf (id : string) (ps : list SnapshotParameter)
           (oneShots : list MIDIMessage) : Snapshot :=
  {| snapshot_id := id; snapshot_name := id; bank := 0; slot := 0;
     parameters := ps; oneShotMessages := Some oneShots;
     color := None; createdAt := 0; modifiedAt := 0 |}.



(** The snapshot of the first end-to-end scenario of the specification. *)
Definition volume100 : Snapshot :=
  snapshotOf "volume-100"
             [ {| parameterId := "track_1_volume"; value := 100; isEnabled := true |} ]
             [].

(** The snapshot of the second end-to-end scenario: pan of track 3 to 0. *)
Definition panLeft : Snapshot :=
  snapshotOf "pan-left"
             [ {| parameterId := "track_3_pan"; value := 0; isEnabled := true |} ]
             [].

(** The wire message of the pan of track 3 with value [v]. *)
Definition pan3 (v : Z) : MIDIMessage :=
  {| msg_type := cc; msg_channel := 3; msg_value := v; msg_cc := Some 10;
     msg_note := None; msg_velocity := None;
     msg_nrpnMsb := None; msg_nrpnLsb := None |}.

(** A transition engine over a fresh clock and a store loaded with [l],
    with the three callbacks installed. *)
Definition engineWith (l : list Snapshot) : TransitionEngine :=
  onTransitionComplete
    (onInterpolationUpdate
       (onMidiSend
          (Transition.constructor Clock.new (loadSnapshots l Store.constructor)))).

Definition dropSettings (cycle : Z) (repeat : bool) : TransitionSettings :=
  {| mode := mode_drop; fadeTimeMs := 100; quantization := every beat;
     cycleLengthBars := cycle; clockSource := internal; internalBpm := 120;
     repeatMode := repeat |}.

Definition jumpSettings (fade : Q) (q : QuantizationType) : TransitionSettings :=
  {| mode := mode_jump; fadeTimeMs := fade; quantization := q;
     cycleLengthBars := 4; clockSource := internal; internalBpm := 120;
     repeatMode := false |}.

End Scenario.

(* ====================================================================== *)
(** * opxyParameters: registry lookups *)
(* ====================================================================== *)

#[global] Instance Category_eq_dec : EqDecision Category.
Proof. solve_decision. Defined.

#[global] Instance OpxyParameter_eq_dec : EqDecision OpxyParameter.
Proof. solve_decision. Defined.

Module Registry.
Import Js.

(** Get all available OP-XY parameters (global + tracks). *)
Definition getAllOpxyParameters : list (string * OpxyParameter) :=
  JsMap.spread OPXY_PARAMETERS generateTrackParameters.

(** Get parameter by ID. *)
Definition getParameterById (id : string) : option OpxyParameter :=
  JsMap.get (toUpperCase id) getAllOpxyParameters.

(** [param.cc === cc && param.channel === channel]. *)
Definition matchesCC (cc channel : Z) (param : OpxyParameter) : bool :=
  match param_cc param with
  | Some c => (c =? cc) && (param_channel param =? channel)
  | None => false
  end.

(** Get parameter by CC number and channel: the first entry, in the order
    of [Object.values], that matches. *)
Definition getParameterByCC (cc channel : Z) : option OpxyParameter :=
  List.find (matchesCC cc channel) (JsMap.values getAllOpxyParameters).

(** Get parameters by category. *)
Definition getParametersByCategory (cat : Category) : list OpxyParameter :=
  List.filter (fun param => bool_decide (category param = cat))
              (JsMap.values getAllOpxyParameters).

Definition getSceneParameters : list OpxyParameter := getParametersByCategory scene.

Definition getTempoParameters : list OpxyParameter := getParametersByCategory tempo.

(** Get all track parameters for a specific track; [inl] is the message of
    the [Error] that the function throws. *)
Definition getTrackParameters (trackNumber : Z) : string + list OpxyParameter :=
  if (trackNumber <? 1) || (16 <? trackNumber)
  then inl "Track number must be between 1 and 16"
  else inr (List.filter (fun param => param_channel param =? trackNumber)
                        (JsMap.values getAllOpxyParameters)).

End Registry.

(* ====================================================================== *)
(** * opxyParameters: the other value conversions and the validators *)
(* ====================================================================== *)

Module Units.
Import Js.

(** Convert scene number (1-128) to MIDI CC value (0-127). *)
Definition sceneToMidiValue (sceneNumber : Z) : Z :=
  Z.max 0 (Z.min 127 (sceneNumber - 1)).

(** Convert MIDI CC value to scene number (1-128). *)
Definition midiValueToScene (midiValue : Z) : Z :=
  Z.max 1 (Z.min 128 (midiValue + 1)).

(** Convert volume percentage (0-100) to MIDI CC value (0-127). *)
Definition volumeToMidiValue (volumePercent : Q) : Z :=
  Math_round ((volumePercent / 100) * 127)%Q.

(** Convert MIDI CC value to volume percentage (0-100). *)
Definition midiValueToVolume (midiValue : Q) : Z :=
  Math_round ((midiValue / 127) * 100)%Q.

(** Convert pan position (-50 to +50) to MIDI CC value (0-127, center at 64). *)
Definition panToMidiValue (pan : Q) : Z :=
  Math_round (64 + (pan / 50) * 63)%Q.

(** Convert MIDI CC value to pan position (-50 to +50, center at 0). *)
Definition midiValueToPan (midiValue : Q) : Z :=
  Math_round (((midiValue - 64) / 63) * 50)%Q.

(** Convert boolean mute state to MIDI CC value. *)
Definition muteToMidiValue (isMuted : bool) : Z := if isMuted then 127 else 0.

(** Convert MIDI CC value to boolean mute state. *)
Definition midiValueToMute (midiValue : Z) : bool := midiValue >=? 64.

(** [Number.isInteger]. *)
Definition Number_isInteger (x : Q) : bool := Qeq_bool (inject_Z (Qfloor x)) x.

(** Validate MIDI value (0-127). *)
Definition isValidMidiValue (v : Q) : bool :=
  Number_isInteger v && Qle_bool 0 v && Qle_bool v 127.

(** Validate MIDI channel (1-16). *)
Definition isValidMidiChannel (channel : Q) : bool :=
  Number_isInteger channel && Qle_bool 1 channel && Qle_bool channel 16.

(** Validate CC number (0-127). *)
Definition isValidCCNumber (ccNumber : Q) : bool :=
  Number_isInteger ccNumber && Qle_bool 0 ccNumber && Qle_bool ccNumber 127.

(** Validate scene number (1-128). *)
Definition isValidSceneNumber (sceneNumber : Q) : bool :=
  Number_isInteger sceneNumber && Qle_bool 1 sceneNumber && Qle_bool sceneNumber 128.

(** Validate track number (1-16). *)
Definition isValidTrackNumber (trackNumber : Q) : bool :=
  Number_isInteger trackNumber && Qle_bool 1 trackNumber && Qle_bool trackNumber 16.

(** Clamp MIDI value to valid range. *)
Definition clampMidiValue (v : Q) : Z :=
  Z.max 0 (Z.min 127 (Math_round v)).

(** Clamp MIDI channel to valid range. *)
Definition clampMidiChannel (channel : Q) : Z :=
  Z.max 1 (Z.min 16 (Math_round channel)).

End Units.

(** The volume and pan conversions on IEEE binary64 numbers. *)
Module Binary64Units.

Definition volumeToMidiValue (volumePercent : float) : option Z :=
  Binary64.Math_round ((volumePercent / 100) * 127)%float.

Definition midiValueToVolume (midiValue : float) : option Z :=
  Binary64.Math_round ((midiValue / 127) * 100)%float.

Definition panToMidiValue (pan : float) : option Z :=
  Binary64.Math_round (64 + (pan / 50) * 63)%float.

Definition midiValueToPan (midiValue : float) : option Z :=
  Binary64.Math_round (((midiValue - 64) / 63) * 50)%float.

(** A signed integer as a binary64 number. *)
Definition of_Z (z : Z) : float :=
  if z <? 0 then (- Binary64.of_Z (- z))%float else Binary64.of_Z z.

End Binary64Units.

(* ====================================================================== *)
(** * midiUtils: message constructors and the dispatch of a message *)
(* ====================================================================== *)

Module MidiUtils.
Import Js.

(** Convert normalized value (0-1) to MIDI value (0-127). *)
Definition normalizedToMidi (normalizedValue : Q) : Z :=
  Z.max 0 (Z.min 127 (Math_round (normalizedValue * 127)%Q)).

(** Convert MIDI value (0-127) to normalized value (0-1). *)
Definition midiToNormalized (midiValue : Q) : Q :=
  Qmax 0 (Qmin 1 (midiValue / 127)).

(** Convert parameter ID and value to MIDI message. *)
Definition parameterToCC (pid : string) (v : Q) (channel ccNumber : Z) : MIDIMessage :=
  {| msg_type := cc; msg_channel := channel;
     msg_value := Z.max 0 (Z.min 127 (Math_round v));
     msg_cc := Some ccNumber; msg_note := None; msg_velocity := None;
     msg_nrpnMsb := None; msg_nrpnLsb := None |}.

(** Create CC message. *)
Definition createCCMessage (channel ccNumber : Z) (v : Q) : MIDIMessage :=
  {| msg_type := cc; msg_channel := channel;
     msg_value := Z.max 0 (Z.min 127 (Math_round v));
     msg_cc := Some ccNumber; msg_note := None; msg_velocity := None;
     msg_nrpnMsb := None; msg_nrpnLsb := None |}.

(** Create Program Change message. *)
Definition createPCMessage (channel : Z) (program : Q) : MIDIMessage :=
  {| msg_type := pc; msg_channel := channel;
     msg_value := Z.max 0 (Z.min 127 (Math_round program));
     msg_cc := None; msg_note := None; msg_velocity := None;
     msg_nrpnMsb := None; msg_nrpnLsb := None |}.

(** Create Note message. *)
Definition createNoteMessage (channel noteNumber velocity : Z) (on : bool) : MIDIMessage :=
  {| msg_type := note; msg_channel := channel;
     msg_value := if on then velocity else 0;
     msg_cc := None; msg_note := Some noteNumber; msg_velocity := Some velocity;
     msg_nrpnMsb := None; msg_nrpnLsb := None |}.

(** Create NRPN message. *)
Definition createNRPNMessage (channel nrpnMsb nrpnLsb : Z) (v : Q) : MIDIMessage :=
  {| msg_type := nrpn; msg_channel := channel;
     msg_value := Z.max 0 (Z.min 127 (Math_round v));
     msg_cc := None; msg_note := None; msg_velocity := None;
     msg_nrpnMsb := Some nrpnMsb; msg_nrpnLsb := Some nrpnLsb |}.

(** The calls that [sendMidiMessage] makes on a channel of an output. *)
Inductive ChannelCall : Type :=
  | sendControlChange (controller : Z) (v : Z)
  | sendProgramChange (program : Z)
  | sendNoteOn (noteNumber : Z) (rawAttack : Z)
  | sendNoteOff (noteNumber : Z) (rawRelease : Z).

#[global] Instance ChannelCall_eq_dec : EqDecision ChannelCall.
Proof. solve_decision. Defined.

(** The body of the [switch] of [sendMidiMessage]. *)
Definition channelCalls (message : MIDIMessage) : list ChannelCall :=
  match msg_type message with
  | cc =>
    match msg_cc message with
    | Some controller => [sendControlChange controller (msg_value message)]
    | None => []
    end
  | pc => [sendProgramChange (msg_value message)]
  | note =>
    match msg_note message with
    | Some noteNumber =>
      let velocity := default 100 (msg_velocity message) in
      if msg_value message >? 0
      then [sendNoteOn noteNumber velocity]
      else [sendNoteOff noteNumber velocity]
    | None => []
    end
  | nrpn =>
    match msg_nrpnMsb message, msg_nrpnLsb message with
    | Some msb, Some lsb =>
      [sendControlChange 99 msb; sendControlChange 98 lsb;
       sendControlChange 6 (msg_value message)]
    | _, _ => []
    end
  end.

Section Outputs.

(** An output of the MIDI library is represented by the calls made on its
    channels, oldest first, each with the number of the channel.
    [hasChannel n] tells whether [output.channels[n]] is defined; it belongs
    to the library. *)
Variable hasChannel : Z -> bool.

Definition sendToOutput (message : MIDIMessage) (output : list (Z * ChannelCall))
  : list (Z * ChannelCall) :=
  if hasChannel (msg_channel message)
  then output ++ map (fun call => (msg_channel message, call)) (channelCalls message)
  else output.

(** Send a single MIDI message; [enabled] is [WebMidi.enabled]. *)
Definition sendMidiMessage (enabled : bool) (message : MIDIMessage)
           (outputs : list (list (Z * ChannelCall))) : list (list (Z * ChannelCall)) :=
  if negb enabled then outputs
  else map (sendToOutput message) outputs.

End Outputs.

End MidiUtils.

(* ====================================================================== *)
(** * ClockEngine: the listener table *)
(* ====================================================================== *)

(** [on], [off], [removeAllListeners] and the part of [emit] that calls the
    listeners.  A callback is represented by a number that stands for the
    identity of the function object; the table maps each of the four keys to
    its callbacks in registration order ([has]/[get] do not tell an absent
    key from an empty list in any way [emit] or [off] could observe). *)
Module Listeners.

Inductive Key : Type := key_bar | key_beat | key_tick | key_all.

#[global] Instance Key_eq_dec : EqDecision Key.
Proof. solve_decision. Defined.

Definition Table : Type := Key -> list nat.

Definition empty : Table := fun _ => [].

Definition update (k : Key) (l : list nat) (t : Table) : Table :=
  fun k' => if decide (k' = k) then l else t k'.


Definition on (eventType : Key) (callback : nat) (t : Table) : Table :=
  update eventType (t eventType ++ [callback]) t.


Definition removeAllListeners (t : Table) : Table := empty.



End Listeners.

(* ====================================================================== *)
(** * useSnapshotPlayback: tempo from the device, triggers *)
(* ====================================================================== *)

Module Playback.

(** The control-change listener: CC 80 on channel 1 is the tempo of the
    device, read only while the clock source is MIDI; a tempo outside
    40..240 is ignored (with a warning on the console). *)
Definition onMidiControlChange (clockSourceRef : ClockSource) (ccNumber v channel : Z)
           (c : Clock.ClockEngine) : Clock.ClockEngine :=
  match clockSourceRef with
  | midi =>
    if (ccNumber =? 80) && (channel =? 1) then
      let newBpm := Conversions.midiValueToBpm (inject_Z v) in
      if negb (Qle_bool 40 newBpm) || negb (Qle_bool newBpm 240)
      then c
      else Clock.setBpm newBpm c
    else c
  | internal => c
  end.

(** [triggerJump]: look the snapshot up, do nothing when it is missing. *)
Definition triggerJump (snapshotId : string) (settings : TransitionSettings) (now : Z)
           (t : Transition.TransitionEngine) : Transition.TransitionEngine :=
  match Store.getSnapshot snapshotId (Transition.snapshotEngine t) with
  | None => t
  | Some snapshot => Transition.executeJump snapshot settings now t
  end.

(** [triggerDrop]. *)
Definition triggerDrop (snapshotId : string) (settings : TransitionSettings) (now : Z)
           (t : Transition.TransitionEngine) : Transition.TransitionEngine :=
  match Store.getSnapshot snapshotId (Transition.snapshotEngine t) with
  | None => t
  | Some snapshot => Transition.executeDrop snapshot settings now t
  end.

(** [cancelTransition]. *)
Definition cancelTransition (t : Transition.TransitionEngine) : Transition.TransitionEngine :=
  Transition.cancelActiveTransition t.

End Playback.

(* ====================================================================== *)
(** * SnapshotEngine: the remaining operations *)
(* ====================================================================== *)

(** [Partial<Snapshot>]: a field is [Some] when the object has the key. *)
Record SnapshotUpdates : Type := mkSnapshotUpdates {
  upd_id : option string;
  upd_name : option string;
  upd_bank : option Z;
  upd_slot : option Z;
  upd_parameters : option (list SnapshotParameter);
  upd_oneShotMessages : option (option (list MIDIMessage));
  upd_color : option (option string);
  upd_createdAt : option Z;
  upd_modifiedAt : option Z
}.

Module StoreOps.
Import Js Store.

Definition getSnapshotByPosition (bankNo slotNo : Z) (e : SnapshotEngine)
  : option Snapshot :=
  List.find (fun snapshot => (bank snapshot =? bankNo) && (slot snapshot =? slotNo))
            (JsMap.values (snapshots e)).

Definition getSnapshotsByBank (bankNo : Z) (e : SnapshotEngine) : list Snapshot :=
  List.filter (fun s => bank s =? bankNo) (JsMap.values (snapshots e)).

(** [{ ...snapshot, ...updates, modifiedAt: Date.now() }], stored under the
    key it was looked up with. *)
Definition updateSnapshot (id : string) (updates : SnapshotUpdates) (now : Z)
           (e : SnapshotEngine) : option Snapshot * SnapshotEngine :=
  match JsMap.get id (snapshots e) with
  | None => (None, e)
  | Some snapshot =>
    let updated :=
      {| snapshot_id := default (snapshot_id snapshot) (upd_id updates);
         snapshot_name := default (snapshot_name snapshot) (upd_name updates);
         bank := default (bank snapshot) (upd_bank updates);
         slot := default (slot snapshot) (upd_slot updates);
         parameters := default (parameters snapshot) (upd_parameters updates);
         oneShotMessages :=
           default (oneShotMessages snapshot) (upd_oneShotMessages updates);
         color := default (color snapshot) (upd_color updates);
         createdAt := default (createdAt snapshot) (upd_createdAt updates);
         modifiedAt := now |} in
    (Some updated, set_snapshots (JsMap.set id updated (snapshots e)) e)
  end.

Definition clearAllSnapshots (e : SnapshotEngine) : SnapshotEngine :=
  set_snapshots [] e.

(** [parameters.splice(index, 1)] at the index that [findIndex] returns. *)
Definition removeSnapshotParameter (snapshotId pid : string) (now : Z)
           (e : SnapshotEngine) : bool * SnapshotEngine :=
  match JsMap.get snapshotId (snapshots e) with
  | None => (false, e)
  | Some snapshot =>
    match findIndex pid (parameters snapshot) with
    | Some index =>
      let ps := delete index (parameters snapshot) in
      let snapshot' := with_modifiedAt now (with_parameters ps snapshot) in
      (true, set_snapshots (JsMap.set snapshotId snapshot' (snapshots e)) e)
    | None => (false, e)
    end
  end.

(** [param.isEnabled = !param.isEnabled] on the first parameter with the
    id, the one that [find] returns. *)
Definition toggleParameterEnabled (snapshotId pid : string) (now : Z)
           (e : SnapshotEngine) : bool * SnapshotEngine :=
  match JsMap.get snapshotId (snapshots e) with
  | None => (false, e)
  | Some snapshot =>
    match findIndex pid (parameters snapshot) with
    | Some index =>
      let toggle (param : SnapshotParameter) :=
        {| parameterId := parameterId param; value := value param;
           isEnabled := negb (isEnabled param) |} in
      let ps := alter toggle index (parameters snapshot) in
      let snapshot' := with_modifiedAt now (with_parameters ps snapshot) in
      (true, set_snapshots (JsMap.set snapshotId snapshot' (snapshots e)) e)
    | None => (false, e)
    end
  end.

Definition getAllCurrentValues (e : SnapshotEngine) : list (string * Z) :=
  currentValues e.

Definition isPositionOccupied (bankNo slotNo : Z) (e : SnapshotEngine) : bool :=
  match getSnapshotByPosition bankNo slotNo e with
  | Some _ => true
  | None => false
  end.

(** The loop over [slot = 0 .. slotsPerBank - 1]. *)
Definition getEmptyPositions (bankNo slotsPerBank : Z) (e : SnapshotEngine)
  : list (Z * Z) :=
  fold_left (fun empty slotNo =>
               if negb (isPositionOccupied bankNo slotNo e)
               then empty ++ [(bankNo, slotNo)]
               else empty)
            (seqZ 0 slotsPerBank) [].

(** The inner loop of [getNextAvailablePosition], which returns at the first
    slot that is not occupied. *)
Fixpoint firstFreeSlot (bankNo : Z) (slots : list Z) (e : SnapshotEngine)
  : option (Z * Z) :=
  match slots with
  | [] => None
  | slotNo :: r =>
    if negb (isPositionOccupied bankNo slotNo e) then Some (bankNo, slotNo)
    else firstFreeSlot bankNo r e
  end.

Fixpoint firstFreeIn (banks : list Z) (slotsPerBank : Z) (e : SnapshotEngine)
  : option (Z * Z) :=
  match banks with
  | [] => None
  | bankNo :: r =>
    match firstFreeSlot bankNo (seqZ 0 slotsPerBank) e with
    | Some position => Some position
    | None => firstFreeIn r slotsPerBank e
    end
  end.

Definition getNextAvailablePosition (startBank slotsPerBank totalBanks : Z)
           (e : SnapshotEngine) : option (Z * Z) :=
  firstFreeIn (seqZ startBank (totalBanks - startBank)) slotsPerBank e.

(** The operations that write the shadow of current values. *)
Inductive ShadowOp : Type :=
  | OpUpdateCurrentValue (pid : string) (v : Z)
  | OpResetCurrentValues.

Definition applyShadow (o : ShadowOp) (e : SnapshotEngine) : SnapshotEngine :=
  match o with
  | OpUpdateCurrentValue pid v => updateCurrentValue pid v e
  | OpResetCurrentValues => resetCurrentValues e
  end.

Definition runShadow (ops : list ShadowOp) (e : SnapshotEngine) : SnapshotEngine :=
  fold_left (fun acc o => applyShadow o acc) ops e.

End StoreOps.

(* ====================================================================== *)
(** * SnapshotEngine with the identity of the parameter arrays *)
(* ====================================================================== *)

(** [Store] keeps every snapshot by value.  That is what the engine does as
    long as no two stored snapshot objects hold the same [parameters] array.
    [copySnapshot] builds the copy with [{ ...source, ... }], which copies
    the reference to the array, and [updateSnapshotParameter],
    [removeSnapshotParameter] and [toggleParameterEnabled] edit the array in
    place.  This module keeps the arrays in a heap and lets a snapshot
    object hold the address of its array. *)
Module SharedStore.
Import Js.

Record SnapshotObject : Type := mkObject {
  obj_id : string;
  obj_name : string;
  obj_bank : Z;
  obj_slot : Z;
  obj_parameters : nat;
  obj_oneShotMessages : option (list MIDIMessage);
  obj_color : option string;
  obj_createdAt : Z;
  obj_modifiedAt : Z
}.

Record SnapshotEngine : Type := mkShared {
  snapshots : list (string * SnapshotObject);
  arrays : gmap nat (list SnapshotParameter);
  nextArray : nat;
  currentValues : list (string * Z)
}.

Definition constructor : SnapshotEngine :=
  {| snapshots := []; arrays := ∅; nextArray := O;
     currentValues := Store.currentValues Store.constructor |}.

Definition set_snapshots (x : list (string * SnapshotObject)) (e : SnapshotEngine) :=
  {| snapshots := x; arrays := arrays e; nextArray := nextArray e;
     currentValues := currentValues e |}.

Definition set_arrays (x : gmap nat (list SnapshotParameter)) (e : SnapshotEngine) :=
  {| snapshots := snapshots e; arrays := x; nextArray := nextArray e;
     currentValues := currentValues e |}.

(** A new array literal. *)
Definition newArray (ps : list SnapshotParameter) (e : SnapshotEngine)
  : nat * SnapshotEngine :=
  (nextArray e,
   {| snapshots := snapshots e; arrays := <[nextArray e := ps]> (arrays e);
      nextArray := S (nextArray e); currentValues := currentValues e |}).

Definition with_parameters (a : nat) (o : SnapshotObject) : SnapshotObject :=
  {| obj_id := obj_id o; obj_name := obj_name o; obj_bank := obj_bank o;
     obj_slot := obj_slot o; obj_parameters := a;
     obj_oneShotMessages := obj_oneShotMessages o; obj_color := obj_color o;
     obj_createdAt := obj_createdAt o; obj_modifiedAt := obj_modifiedAt o |}.

Definition with_modifiedAt (now : Z) (o : SnapshotObject) : SnapshotObject :=
  {| obj_id := obj_id o; obj_name := obj_name o; obj_bank := obj_bank o;
     obj_slot := obj_slot o; obj_parameters := obj_parameters o;
     obj_oneShotMessages := obj_oneShotMessages o; obj_color := obj_color o;
     obj_createdAt := obj_createdAt o; obj_modifiedAt := now |}.

(** The content of the array of a snapshot object. *)
Definition parametersOf (o : SnapshotObject) (e : SnapshotEngine)
  : list SnapshotParameter :=
  default [] (arrays e !! obj_parameters o).

(** The snapshot that a reader of the object sees. *)
Definition read (e : SnapshotEngine) (o : SnapshotObject) : Snapshot :=
  {| snapshot_id := obj_id o; snapshot_name := obj_name o;
     bank := obj_bank o; slot := obj_slot o;
     parameters := parametersOf o e;
     oneShotMessages := obj_oneShotMessages o; color := obj_color o;
     createdAt := obj_createdAt o; modifiedAt := obj_modifiedAt o |}.

Definition createSnapshot (bankNo slotNo : Z) (name : option string)
           (uuid : string) (now : Z) (e : SnapshotEngine)
  : SnapshotObject * SnapshotEngine :=
  let '(a, e1) := newArray [] e in
  let snapshot :=
    {| obj_id := uuid;
       obj_name := default (Store.defaultName bankNo slotNo) name;
       obj_bank := bankNo; obj_slot := slotNo;
       obj_parameters := a; obj_oneShotMessages := Some [];
       obj_color := None; obj_createdAt := now; obj_modifiedAt := now |} in
  (snapshot, set_snapshots (JsMap.set uuid snapshot (snapshots e1)) e1).

Definition captureSnapshot (bankNo slotNo : Z) (name : option string)
           (uuid : string) (now : Z) (e : SnapshotEngine)
  : SnapshotObject * SnapshotEngine :=
  let '(snapshot, e1) := createSnapshot bankNo slotNo name uuid now e in
  let '(a, e2) :=
    newArray (map (fun kv => {| parameterId := fst kv; value := snd kv;
                                isEnabled := true |}) (currentValues e1)) e1 in
  let snapshot' := with_parameters a snapshot in
  (snapshot', set_snapshots (JsMap.set (obj_id snapshot') snapshot' (snapshots e2)) e2).

Definition getSnapshot (id : string) (e : SnapshotEngine) : option Snapshot :=
  option_map (read e) (JsMap.get id (snapshots e)).

Definition deleteSnapshot (id : string) (e : SnapshotEngine) : bool * SnapshotEngine :=
  (JsMap.has id (snapshots e), set_snapshots (JsMap.delete id (snapshots e)) e).

(** [{ ...source, id, name, bank, slot, createdAt, modifiedAt }]: the copy
    holds the array of the source.  [now1] and [now2] are the values of the
    two calls of [Date.now()]. *)
Definition copySnapshot (sourceId : string) (targetBank targetSlot : Z)
           (uuid : string) (now1 now2 : Z) (e : SnapshotEngine)
  : option SnapshotObject * SnapshotEngine :=
  match JsMap.get sourceId (snapshots e) with
  | None => (None, e)
  | Some source =>
    let copy :=
      {| obj_id := uuid; obj_name := obj_name source +:+ " (copy)";
         obj_bank := targetBank; obj_slot := targetSlot;
         obj_parameters := obj_parameters source;
         obj_oneShotMessages := obj_oneShotMessages source;
         obj_color := obj_color source;
         obj_createdAt := now1; obj_modifiedAt := now2 |} in
    (Some copy, set_snapshots (JsMap.set (obj_id copy) copy (snapshots e)) e)
  end.

(** An edit of the array of the snapshot in place, followed by
    [snapshot.modifiedAt = Date.now()]. *)
Definition editInPlace (snapshotId : string) (snapshot : SnapshotObject)
           (ps : list SnapshotParameter) (now : Z) (e : SnapshotEngine)
  : SnapshotEngine :=
  let e1 := set_arrays (<[obj_parameters snapshot := ps]> (arrays e)) e in
  set_snapshots (JsMap.set snapshotId (with_modifiedAt now snapshot) (snapshots e1)) e1.

Definition updateSnapshotParameter (snapshotId pid : string) (v : Z)
           (enabled : bool) (now : Z) (e : SnapshotEngine)
  : bool * SnapshotEngine :=
  match JsMap.get snapshotId (snapshots e) with
  | None => (false, e)
  | Some snapshot =>
    let entry := {| parameterId := pid; value := Z.max 0 (Z.min 127 v);
                    isEnabled := enabled |} in
    let ps :=
      match Store.findIndex pid (parametersOf snapshot e) with
      | Some existingIndex => <[existingIndex := entry]> (parametersOf snapshot e)
      | None => parametersOf snapshot e ++ [entry]
      end in
    (true, editInPlace snapshotId snapshot ps now e)
  end.

Definition removeSnapshotParameter (snapshotId pid : string) (now : Z)
           (e : SnapshotEngine) : bool * SnapshotEngine :=
  match JsMap.get snapshotId (snapshots e) with
  | None => (false, e)
  | Some snapshot =>
    match Store.findIndex pid (parametersOf snapshot e) with
    | Some index =>
      (true, editInPlace snapshotId snapshot
                         (delete index (parametersOf snapshot e)) now e)
    | None => (false, e)
    end
  end.

Definition toggleParameterEnabled (snapshotId pid : string) (now : Z)
           (e : SnapshotEngine) : bool * SnapshotEngine :=
  match JsMap.get snapshotId (snapshots e) with
  | None => (false, e)
  | Some snapshot =>
    match Store.findIndex pid (parametersOf snapshot e) with
    | Some index =>
      let toggle (param : SnapshotParameter) :=
        {| parameterId := parameterId param; value := value param;
           isEnabled := negb (isEnabled param) |} in
      (true, editInPlace snapshotId snapshot
                         (alter toggle index (parametersOf snapshot e)) now e)
    | None => (false, e)
    end
  end.

Definition getInterpolationTargets (snapshotId : string) (e : SnapshotEngine)
  : list (string * Z) :=
  match JsMap.get snapshotId (snapshots e) with
  | None => []
  | Some snapshot =>
    fold_left (fun targets param =>
                 if isEnabled param
                 then JsMap.set (parameterId param) (value param) targets
                 else targets)
              (parametersOf snapshot e) []
  end.

Definition getSnapshotMidiMessages (snapshotId : string) (e : SnapshotEngine)
  : list MIDIMessage :=
  match JsMap.get snapshotId (snapshots e) with
  | None => []
  | Some snapshot =>
    Store.parameterMessages (parametersOf snapshot e)
      ++ match obj_oneShotMessages snapshot with
         | Some l => l
         | None => []
         end
  end.

(** The edits of parameters in place. *)
Inductive Edit : Type :=
  | EditUpdate (snapshotId pid : string) (v : Z) (enabled : bool) (now : Z)
  | EditRemove (snapshotId pid : string) (now : Z)
  | EditToggle (snapshotId pid : string) (now : Z).

Definition applyEdit (ed : Edit) (e : SnapshotEngine) : SnapshotEngine :=
  match ed with
  | EditUpdate snapshotId pid v enabled now =>
    snd (updateSnapshotParameter snapshotId pid v enabled now e)
  | EditRemove snapshotId pid now => snd (removeSnapshotParameter snapshotId pid now e)
  | EditToggle snapshotId pid now => snd (toggleParameterEnabled snapshotId pid now e)
  end.

Definition runEdits (eds : list Edit) (e : SnapshotEngine) : SnapshotEngine :=
  fold_left (fun acc ed => applyEdit ed acc) eds e.

(** The store by value that a reader of all the snapshots sees. *)
Definition readAll (e : SnapshotEngine) (m : list (string * SnapshotObject))
  : list (string * Snapshot) :=
  map (fun kv => (fst kv, read e (snd kv))) m.

Definition view (e : SnapshotEngine) : Store.SnapshotEngine :=
  {| Store.snapshots := readAll e (snapshots e);
     Store.currentValues := currentValues e |}.

(** The arrays that the stored snapshot objects hold. *)
Definition addresses (m : list (string * SnapshotObject)) : list nat :=
  map (fun kv => obj_parameters (snd kv)) m.

(** No two stored snapshot objects hold the same array, and the arrays that
    are held have been allocated. *)
Definition unshared (e : SnapshotEngine) : Prop :=
  List.NoDup (JsMap.keys (snapshots e)) /\
  List.NoDup (addresses (snapshots e)) /\
  (forall a : nat, In a (addresses (snapshots e)) -> (a < nextArray e)%nat).

End SharedStore.

(* ====================================================================== *)
(** * TransitionEngine: cleanup, the life of an engine *)
(* ====================================================================== *)

Module TransitionOps.
Import Js Transition.

(** [destroy]. *)
Definition destroy (t : TransitionEngine) : TransitionEngine :=
  let t1 := cancelActiveTransition t in
  let t2 := set_midiSendCallback false t1 in
  let t3 := set_interpolationUpdateCallback false t2 in
  set_transitionCompleteCallback false t3.

(** The value that a frame computes for a parameter: the [currentValue] of
    [frameParameter]. *)
Definition frameValue (st : InterpolationState) (easedProgress : Q) (pid : string) : Z :=
  let startValue := default 0 (JsMap.get pid (startValues st)) in
  let targetValue := default 0 (JsMap.get pid (targetValues st)) in
  Math_round (inject_Z startValue
              + inject_Z (targetValue - startValue) * easedProgress)%Q.

(** What happens to an engine: the calls of its public methods, a pending
    host timer that fires, and what the other holders of the clock and of
    the store do to these two objects. *)
Inductive Op : Type :=
  | OpExecuteJump (snapshot : Snapshot) (settings : TransitionSettings) (now : Z)
  | OpExecuteDrop (snapshot : Snapshot) (settings : TransitionSettings) (now : Z)
  | OpCancel
  | OpDestroy
  | OpOnMidiSend
  | OpOnInterpolationUpdate
  | OpOnTransitionComplete
  | OpFire (handle : nat) (now : Z) (uuids : nat -> string)
  | OpClock (o : Clock.Op)
  | OpStore (f : Store.SnapshotEngine -> Store.SnapshotEngine).

Definition apply (o : Op) (t : TransitionEngine) : option TransitionEngine :=
  match o with
  | OpExecuteJump snapshot settings now => Some (executeJump snapshot settings now t)
  | OpExecuteDrop snapshot settings now => Some (executeDrop snapshot settings now t)
  | OpCancel => Some (cancelActiveTransition t)
  | OpDestroy => Some (destroy t)
  | OpOnMidiSend => Some (onMidiSend t)
  | OpOnInterpolationUpdate => Some (onInterpolationUpdate t)
  | OpOnTransitionComplete => Some (onTransitionComplete t)
  | OpFire handle now uuids => fireTimer handle now uuids t
  | OpClock o => Some (set_clockEngine (Clock.apply o (clockEngine t)) t)
  | OpStore f => Some (set_snapshotEngine (f (snapshotEngine t)) t)
  end.

Inductive reachable : TransitionEngine -> Prop :=
  | reach_new clock store : reachable (constructor clock store)
  | reach_step o t t' : reachable t -> apply o t = Some t' -> reachable t'.

(** Everything in an engine but the store and the log of sent messages. *)
Definition control (t : TransitionEngine) :=
  (timers t, nextTimerId t, scheduledTransition t, interpolationState t,
   interpolationTimerId t, transitionTimerId t,
   (midiSendCallback t, interpolationUpdateCallback t, transitionCompleteCallback t),
   interpolationUpdates t, transitionsCompleted t, clockEngine t).




End TransitionOps.

(* ====================================================================== *)
(** * Properties of the arithmetic helpers *)
(* ====================================================================== *)

Module JsFacts.
Import Js.

Lemma Math_round_bounds (x : Q) :
  (inject_Z (Math_round x) <= x + (1 # 2) /\ x + (1 # 2) < inject_Z (Math_round x) + 1)%Q.
Proof.
  unfold Math_round. split.
  - apply Qfloor_le.
  - pose proof (Qlt_floor (x + (1 # 2))) as H.
    rewrite inject_Z_plus in H. exact H.
Qed.

Lemma Math_round_integer (v : Z) (x : Q) :
  (x == inject_Z v)%Q -> Math_round x = v.
Proof.
  intros Hx. destruct (Math_round_bounds x) as [Hlo Hhi].
  set (r := Math_round x) in *.
  assert (H1 : (inject_Z r <= inject_Z v + (1 # 2))%Q) by lra.
  assert (H2 : (inject_Z v + (1 # 2) < inject_Z r + 1)%Q) by lra.
  clear - H1 H2.
  unfold Qle, Qlt, Qplus, inject_Z in *. simpl in *. lia.
Qed.


Lemma clampQ_inside (lo hi x : Q) :
  (lo <= x)%Q -> (x <= hi)%Q -> (Qmax lo (Qmin hi x) == x)%Q.
Proof.
  intros Hlo Hhi.
  rewrite (Q.min_r hi x) by exact Hhi.
  apply Q.max_r. exact Hlo.
Qed.

End JsFacts.

(* ====================================================================== *)
(** * Tempo conversion round trips *)
(* ====================================================================== *)

Module ConversionsSpec.
Import Js JsFacts Conversions.

Lemma midiValueToBpm_linear (x : Q) :
  (midiValueToBpm x == 40 + x * (200 # 127))%Q.
Proof. unfold midiValueToBpm. field. Qed.

Lemma midiValueToBpm_range (v : Z) :
  0 <= v <= 127 ->
  (40 <= midiValueToBpm (inject_Z v) /\ midiValueToBpm (inject_Z v) <= 240)%Q.
Proof.
  intros [H0 H1]. rewrite midiValueToBpm_linear.
  assert (Ha : (0 <= inject_Z v)%Q) by (unfold Qle, inject_Z; simpl; lia).
  assert (Hb : (inject_Z v <= 127)%Q) by (unfold Qle, inject_Z; simpl; lia).
  split; lra.
Qed.

Lemma bpm_midi_bpm_exact (v : Z) :
  0 <= v <= 127 -> bpmToMidiValue (midiValueToBpm (inject_Z v)) = v.
Proof.
  intros Hv. destruct (midiValueToBpm_range v Hv) as [Hlo Hhi].
  unfold bpmToMidiValue. apply Math_round_integer.
  rewrite (clampQ_inside 40 240 _ Hlo Hhi).
  unfold midiValueToBpm. field.
Qed.

Lemma midi_bpm_midi_close (b : Q) :
  (40 <= b)%Q -> (b <= 240)%Q ->
  (-1 <= midiValueToBpm (inject_Z (bpmToMidiValue b)) - b /\
   midiValueToBpm (inject_Z (bpmToMidiValue b)) - b <= 1)%Q.
Proof.
  intros Hlo Hhi. unfold bpmToMidiValue.
  set (x := ((Qmax 40 (Qmin 240 b) - 40) / (240 - 40) * 127)%Q).
  destruct (Math_round_bounds x) as [H1 H2].
  assert (Hx : (x == (b - 40) / 200 * 127)%Q).
  { unfold x. rewrite (clampQ_inside 40 240 b Hlo Hhi). field. }
  assert (Hy : (x == (b - 40) * (127 # 200))%Q) by (rewrite Hx; field).
  rewrite midiValueToBpm_linear.
  set (m := inject_Z (Math_round x)) in *.
  split; lra.
Qed.

(** C9. For every integer v in [0,127], converting v to a tempo and back
    returns v; and for every tempo b in [40,240], converting b to a MIDI
    value and back gives a tempo that differs from b by at most 1. *)
Theorem bpm_midi_round_trip :
  (forall v : Z, 0 <= v <= 127 ->
     bpmToMidiValue (midiValueToBpm (inject_Z v)) = v) /\
  (forall b : Q, (40 <= b)%Q -> (b <= 240)%Q ->
     (Qabs (midiValueToBpm (inject_Z (bpmToMidiValue b)) - b) <= 1)%Q).
Proof.
  split.
  - exact bpm_midi_bpm_exact.
  - intros b Hlo Hhi. apply Qabs_Qle_condition.
    exact (midi_bpm_midi_close b Hlo Hhi).
Qed.

(** On binary64 numbers the first round trip is exact as well, for each of
    the 128 MIDI values. *)
Lemma bpm_midi_bpm_binary64 (v : Z) :
  0 <= v <= 127 ->
  Binary64.bpmToMidiValue (Binary64.midiValueToBpm (Binary64.of_Z v)) = Some v.
Proof.
  intros Hv.
  assert (Hall : forallb
                   (fun w => match Binary64.bpmToMidiValue
                                     (Binary64.midiValueToBpm (Binary64.of_Z w)) with
                             | Some r => r =? w
                             | None => false
                             end) (seqZ 0 128) = true)
    by (vm_compute; reflexivity).
  rewrite forallb_forall in Hall.
  specialize (Hall v). 
  assert (Hin : In v (seqZ 0 128)).
  { apply list_elem_of_In. apply elem_of_seqZ. lia. }
  specialize (Hall Hin).
  destruct (Binary64.bpmToMidiValue (Binary64.midiValueToBpm (Binary64.of_Z v)))
    as [r |]; [| discriminate].
  f_equal. lia.
Qed.

(** On binary64 numbers the second round trip stays within 1 of every
    whole tempo from 40 to 240. *)
Lemma midi_bpm_midi_binary64 (b : Z) :
  40 <= b <= 240 ->
  exists (v : Z) (r : Q),
    Binary64.bpmToMidiValue (Binary64.of_Z b) = Some v /\
    Binary64.exact (Binary64.midiValueToBpm (Binary64.of_Z v)) = Some r /\
    (Qabs (r - inject_Z b) <= 1)%Q.
Proof.
  intros Hb.
  assert (Hall : forallb
                   (fun w =>
                      match Binary64.bpmToMidiValue (Binary64.of_Z w) with
                      | Some v =>
                        match Binary64.exact
                                (Binary64.midiValueToBpm (Binary64.of_Z v)) with
                        | Some r => Qle_bool (Qabs (r - inject_Z w)) 1
                        | None => false
                        end
                      | None => false
                      end) (seqZ 40 201) = true)
    by (vm_compute; reflexivity).
  rewrite forallb_forall in Hall.
  assert (Hin : In b (seqZ 40 201)).
  { apply list_elem_of_In. apply elem_of_seqZ. lia. }
  specialize (Hall b Hin).
  destruct (Binary64.bpmToMidiValue (Binary64.of_Z b)) as [v |] eqn:Hv;
    [| discriminate].
  destruct (Binary64.exact (Binary64.midiValueToBpm (Binary64.of_Z v)))
    as [r |] eqn:Hr; [| discriminate].
  exists v, r. split; [reflexivity |]. split; [exact Hr |].
  apply Qle_bool_iff. exact Hall.
Qed.

Lemma bpm_midi_round_trip_witness :
  0 <= 64 <= 127 /\
  bpmToMidiValue (midiValueToBpm (inject_Z 64)) = 64 /\
  (40 <= 120)%Q /\ (120 <= 240)%Q /\
  (Qabs (midiValueToBpm (inject_Z (bpmToMidiValue 120%Q)) - 120) <= 1)%Q.
Proof.
  split; [lia |].
  split; [apply (proj1 bpm_midi_round_trip 64); lia |].
  split; [vm_compute; discriminate |].
  split; [vm_compute; discriminate |].
  apply (proj2 bpm_midi_round_trip 120%Q); vm_compute; discriminate.
Defined.

End ConversionsSpec.

(* ====================================================================== *)
(** * Properties of the clock *)
(* ====================================================================== *)

Module ClockSpec.
Import Js JsFacts Clock.

(** Unfold the clock operations down to record fields, leaving the
    arithmetic folded. *)
Ltac clock_fields :=
  cbn [state intervalId tickCount lastBeat lastBar emitted
       isRunning source bpm currentBeat currentBar beatsPerBar ppqn
       lastTickTime negb] in *.

Ltac clock_unfold :=
  cbv beta iota zeta delta
      [apply processMidiStart processMidiStop processMidiContinue
       processMidiClockTick setClockSource setBpm start stop reset
       advanceBeat startInternalClock stopInternalClock emit
       with_state set_isRunning set_source set_bpm set_currentBeat
       set_currentBar set_lastTickTime set_intervalId set_tickCount
       set_lastBeat set_lastBar
       state intervalId tickCount lastBeat lastBar emitted
       isRunning source bpm currentBeat currentBar beatsPerBar ppqn
       lastTickTime negb].

Ltac clock_cases :=
  repeat (clock_fields;
          match goal with
          | |- context [match ?x with _ => _ end] => is_var x; destruct x
          | |- context [?a >=? ?b] => destruct (a >=? b) eqn:?
          | |- context [?a =? ?b] => destruct (a =? b) eqn:?
          end);
  clock_fields.

(** ** getNextCycleBar *)




(** ** Position invariant *)

Lemma apply_meter (o : Op) (c : ClockEngine) :
  beatsPerBar (state (apply o c)) = beatsPerBar (state c) /\
  ppqn (state (apply o c)) = ppqn (state c).
Proof.
  destruct c as [[run src b beat0 bar0 bpb pp ltt] iid tc lb lbar em].
  destruct o; clock_unfold; clock_cases; auto.
Qed.

Lemma apply_position_ok (o : Op) (c : ClockEngine) :
  position_ok c -> position_ok (apply o c).
Proof.
  unfold position_ok.
  destruct c as [[run src b beat0 bar0 bpb pp ltt] iid tc lb lbar em].
  clock_fields. intros H.
  destruct o; clock_unfold; clock_cases; lia.
Qed.

Lemma reachable_meter (c : ClockEngine) :
  reachable c -> beatsPerBar (state c) = 4 /\ ppqn (state c) = 24.
Proof.
  induction 1 as [| o c Hc [IH1 IH2]].
  - split; reflexivity.
  - destruct (apply_meter o c) as [E1 E2]. rewrite E1, E2. auto.
Qed.

Lemma reachable_position_ok (c : ClockEngine) :
  reachable c -> position_ok c.
Proof.
  induction 1 as [| o c Hc IH].
  - unfold position_ok. simpl. lia.
  - apply apply_position_ok. exact IH.
Qed.

Lemma reachable_run (ops : list Op) (c : ClockEngine) :
  reachable c -> reachable (run ops c).
Proof.
  revert c. induction ops as [| o ops IH]; intros c Hc; simpl.
  - exact Hc.
  - apply IH. constructor. exact Hc.
Qed.

(** ** One tick *)

Lemma tick_within_beat (now : Z) (c : ClockEngine) :
  source (state c) = midi ->
  tickCount c + 1 < ppqn (state c) ->
  tickCount (processMidiClockTick now c) = tickCount c + 1 /\
  currentBeat (state (processMidiClockTick now c)) = currentBeat (state c) /\
  currentBar (state (processMidiClockTick now c)) = currentBar (state c).
Proof.
  destruct c as [[run src b beat0 bar0 bpb pp ltt] iid tc lb lbar em].
  simpl. intros -> Hlt. clock_unfold.
  destruct (tc + 1 >=? pp) eqn:E; [lia |]. clock_fields. auto.
Qed.

Lemma tick_completes_beat (now : Z) (c : ClockEngine) :
  source (state c) = midi ->
  ppqn (state c) <= tickCount c + 1 ->
  currentBeat (state c) + 1 < beatsPerBar (state c) ->
  tickCount (processMidiClockTick now c) = 0 /\
  currentBeat (state (processMidiClockTick now c)) = currentBeat (state c) + 1 /\
  currentBar (state (processMidiClockTick now c)) = currentBar (state c).
Proof.
  destruct c as [[run src b beat0 bar0 bpb pp ltt] iid tc lb lbar em].
  simpl. intros -> Hge Hlt. clock_unfold.
  destruct (tc + 1 >=? pp) eqn:E; [| lia].
  destruct (beat0 + 1 >=? bpb) eqn:E2; [lia |].
  clock_cases; auto.
Qed.

Lemma tick_completes_bar (now : Z) (c : ClockEngine) :
  source (state c) = midi ->
  ppqn (state c) <= tickCount c + 1 ->
  beatsPerBar (state c) <= currentBeat (state c) + 1 ->
  tickCount (processMidiClockTick now c) = 0 /\
  currentBeat (state (processMidiClockTick now c)) = 0 /\
  currentBar (state (processMidiClockTick now c)) = currentBar (state c) + 1.
Proof.
  destruct c as [[run src b beat0 bar0 bpb pp ltt] iid tc lb lbar em].
  simpl. intros -> Hge Hge2. clock_unfold.
  destruct (tc + 1 >=? pp) eqn:E; [| lia].
  destruct (beat0 + 1 >=? bpb) eqn:E2; [| lia].
  clock_cases; auto.
Qed.

Lemma tick_source (now : Z) (c : ClockEngine) :
  source (state (processMidiClockTick now c)) = source (state c).
Proof.
  destruct c as [[run src b beat0 bar0 bpb pp ltt] iid tc lb lbar em].
  clock_unfold. clock_cases; auto.
Qed.

Lemma tick_position_ticks (now : Z) (c : ClockEngine) :
  source (state c) = midi ->
  position_ok c ->
  position_ticks (processMidiClockTick now c) = position_ticks c + 1.
Proof.
  intros Hsrc (Hbeat & Hbar & Htick).
  destruct (apply_meter (OpTick now) c) as [Em Ep]. simpl in Em, Ep.
  unfold position_ticks. rewrite Em, Ep.
  destruct (Z_lt_le_dec (tickCount c + 1) (ppqn (state c))) as [Hlt | Hge].
  - destruct (tick_within_beat now c Hsrc Hlt) as (-> & -> & ->). lia.
  - destruct (Z_lt_le_dec (currentBeat (state c) + 1) (beatsPerBar (state c)))
      as [Hb | Hb].
    + destruct (tick_completes_beat now c Hsrc Hge Hb) as (-> & -> & ->). nia.
    + destruct (tick_completes_bar now c Hsrc Hge Hb) as (-> & -> & ->). nia.
Qed.

Lemma ticks_position_ticks (nows : list Z) (c : ClockEngine) :
  source (state c) = midi ->
  position_ok c ->
  position_ticks (run (map OpTick nows) c) = position_ticks c + Z.of_nat (length nows).
Proof.
  revert c. induction nows as [| now nows IH]; intros c Hsrc Hok.
  - simpl. lia.
  - cbn [map run fold_left length]. fold (run (map OpTick nows)).
    change (apply (OpTick now) c) with (processMidiClockTick now c).
    rewrite IH.
    + rewrite tick_position_ticks by assumption. lia.
    + rewrite tick_source. exact Hsrc.
    + exact (apply_position_ok (OpTick now) c Hok).
Qed.

(** C4. In every clock state reachable from the initial state by the clock
    operations, current_beat lies in [0, beats_per_bar), current_bar >= 0 and
    the tick accumulator lies in [0, ppqn).  An ingested tick (source = midi)
    increments the accumulator; the tick that would bring it to ppqn resets
    it to 0 and advances the beat; when the beat would reach beats_per_bar
    it resets to 0 and the bar advances by one.  Hence every ppqn ticks the
    accumulator is back where it was and the position is one beat later. *)
Theorem clock_position_invariant (c : ClockEngine) :
  reachable c ->
  (0 <= currentBeat (state c) < beatsPerBar (state c) /\
   0 <= currentBar (state c) /\
   0 <= tickCount c < ppqn (state c)) /\
  (forall now : Z,
     source (state c) = midi ->
     let c' := processMidiClockTick now c in
     (tickCount c + 1 < ppqn (state c) ->
        tickCount c' = tickCount c + 1 /\
        currentBeat (state c') = currentBeat (state c) /\
        currentBar (state c') = currentBar (state c)) /\
     (tickCount c + 1 = ppqn (state c) ->
        tickCount c' = 0 /\
        (currentBeat (state c) + 1 < beatsPerBar (state c) ->
           currentBeat (state c') = currentBeat (state c) + 1 /\
           currentBar (state c') = currentBar (state c)) /\
        (currentBeat (state c) + 1 = beatsPerBar (state c) ->
           currentBeat (state c') = 0 /\
           currentBar (state c') = currentBar (state c) + 1))) /\
  (forall nows : list Z,
     source (state c) = midi ->
     Z.of_nat (length nows) = ppqn (state c) ->
     let c' := run (map OpTick nows) c in
     tickCount c' = tickCount c /\
     currentBar (state c') * beatsPerBar (state c) + currentBeat (state c') =
       currentBar (state c) * beatsPerBar (state c) + currentBeat (state c) + 1).
Proof.
  intros Hreach.
  pose proof (reachable_position_ok c Hreach) as Hok.
  split; [exact Hok |]. split.
  - intros now Hsrc c'. subst c'. split.
    + intros Hlt. exact (tick_within_beat now c Hsrc Hlt).
    + intros Heq. split; [| split].
      * destruct (Z_lt_le_dec (currentBeat (state c) + 1) (beatsPerBar (state c)))
          as [Hb | Hb].
        -- apply (tick_completes_beat now c Hsrc); [lia | exact Hb].
        -- apply (tick_completes_bar now c Hsrc); [lia | exact Hb].
      * intros Hb.
        destruct (tick_completes_beat now c Hsrc ltac:(lia) Hb) as (_ & E1 & E2).
        auto.
      * intros Hb.
        destruct (tick_completes_bar now c Hsrc ltac:(lia) ltac:(lia)) as (_ & E1 & E2).
        auto.
  - intros nows Hsrc Hlen c'.
    pose proof (ticks_position_ticks nows c Hsrc Hok) as Hpos.
    assert (Hreach' : reachable c') by (apply reachable_run; exact Hreach).
    pose proof (reachable_position_ok c' Hreach') as Hok'.
    destruct (reachable_meter c Hreach) as [Em Ep].
    destruct (reachable_meter c' Hreach') as [Em' Ep'].
    fold c' in Hpos. unfold position_ticks in Hpos.
    destruct Hok as (Hb & Hbar & Ht). destruct Hok' as (Hb' & Hbar' & Ht').
    rewrite Em, Ep in *. rewrite Em', Ep' in *. lia.
Qed.

Lemma clock_position_invariant_witness :
  let c := run (OpSetClockSource midi 0 :: map OpTick (seqZ 1 23)) new in
  reachable c /\
  source (state c) = midi /\
  tickCount c = 23 /\
  currentBeat (state (processMidiClockTick 24 c)) = 1 /\
  tickCount (processMidiClockTick 24 c) = 0.
Proof.
  intros c.
  assert (Hreach : reachable c) by (unfold c; apply reachable_run; constructor).
  assert (Hsrc : source (state c) = midi) by (vm_compute; reflexivity).
  destruct (clock_position_invariant c Hreach) as (_ & Hstep & _).
  destruct (Hstep 24 Hsrc) as (_ & Hwrap).
  destruct (Hwrap ltac:(vm_compute; reflexivity)) as (Ht & Hbeat & _).
  destruct (Hbeat ltac:(vm_compute; reflexivity)) as (Hb & _).
  split; [exact Hreach |]. split; [exact Hsrc |].
  split; [vm_compute; reflexivity |].
  split; [rewrite Hb; vm_compute; reflexivity | exact Ht].
Defined.

(** ** External events and the clock source *)







(** ** Time until the next quantization boundary *)

Lemma msPerBeat_pos (s : ClockState) :
  (0 < bpm s)%Q -> (0 < msPerBeat s)%Q.
Proof.
  intros Hb. unfold msPerBeat, Qdiv.
  apply Qmult_lt_0_compat; [| reflexivity].
  apply Qmult_lt_0_compat; [reflexivity |].
  apply Qinv_lt_0_compat. exact Hb.
Qed.

Lemma beatsToWait_range (q : BoundaryKind) (s : ClockState) :
  0 <= currentBeat s < beatsPerBar s ->
  0 <= currentBar s ->
  1 <= beatsToWait q s <= period_beats q s /\
  (on_boundary q s = true -> beatsToWait q s = period_beats q s) /\
  (on_boundary q s = false -> beatsToWait q s < period_beats q s).
Proof.
  intros Hbeat Hbar.
  destruct q; unfold beatsToWait, period_beats, on_boundary; cbv zeta.
  - repeat split; try lia; discriminate.
  - repeat split; try lia; intros H; lia.
  - rewrite (Z.rem_mod_nonneg (currentBar s) 2) by lia.
    pose proof (Z.mod_pos_bound (currentBar s) 2 ltac:(lia)) as Hr.
    set (r := currentBar s mod 2) in *.
    assert (Hcase : r = 0 \/ r = 1) by lia.
    repeat split; destruct Hcase as [-> | ->]; try lia;
      intros H; apply andb_prop in H || apply andb_false_iff in H; lia.
  - rewrite (Z.rem_mod_nonneg (currentBar s) 4) by lia.
    pose proof (Z.mod_pos_bound (currentBar s) 4 ltac:(lia)) as Hr.
    set (r := currentBar s mod 4) in *.
    assert (Hcase : r = 0 \/ r = 1 \/ r = 2 \/ r = 3) by lia.
    repeat split; destruct Hcase as [-> | [-> | [-> | ->]]]; try lia;
      intros H; apply andb_prop in H || apply andb_false_iff in H; lia.
Qed.

Lemma scale_by_beat (n p : Z) (m : Q) :
  (0 < m)%Q ->
  (0 < n -> (0 < inject_Z n * m)%Q) /\
  (n <= p -> (inject_Z n * m <= inject_Z p * m)%Q) /\
  (n < p -> (inject_Z n * m < inject_Z p * m)%Q).
Proof.
  intros Hm. split; [| split].
  - intros Hn. apply Qmult_lt_0_compat; [| exact Hm].
    unfold Qlt, inject_Z. simpl. lia.
  - intros Hle. apply Qmult_le_compat_r; [| apply Qlt_le_weak; exact Hm].
    rewrite <- Zle_Qle. exact Hle.
  - intros Hlt. apply Qmult_lt_compat_r; [exact Hm |].
    rewrite <- Zlt_Qlt. exact Hlt.
Qed.

(** C2, as the code has it.  For a clock with bpm in [20,300] at a position
    with current_beat in [0, beats_per_bar) and current_bar >= 0,
    getTimeUntilNextQuantization(q) is never 0: it lies in
    (0, duration of one q-period], it is the full duration of one q-period
    exactly when the (bar, beat) position is on a boundary of kind q, and it
    is strictly between 0 and that duration otherwise. *)
Theorem time_until_next_quantization_range (q : BoundaryKind) (c : ClockEngine) :
  (20 <= bpm (state c))%Q -> (bpm (state c) <= 300)%Q ->
  0 <= currentBeat (state c) < beatsPerBar (state c) ->
  0 <= currentBar (state c) ->
  (0 < getTimeUntilNextQuantization q c)%Q /\
  (getTimeUntilNextQuantization q c <= period_ms q (state c))%Q /\
  (on_boundary q (state c) = true ->
     (getTimeUntilNextQuantization q c == period_ms q (state c))%Q) /\
  (on_boundary q (state c) = false ->
     (getTimeUntilNextQuantization q c < period_ms q (state c))%Q).
Proof.
  intros Hlo Hhi Hbeat Hbar.
  assert (Hm : (0 < msPerBeat (state c))%Q) by (apply msPerBeat_pos; lra).
  destruct (beatsToWait_range q (state c) Hbeat Hbar) as (Hrange & Hon & Hoff).
  destruct (scale_by_beat (beatsToWait q (state c)) (period_beats q (state c))
              (msPerBeat (state c)) Hm) as (Hpos & Hle & Hlt).
  unfold getTimeUntilNextQuantization, period_ms.
  split; [apply Hpos; lia |]. split; [apply Hle; lia |]. split.
  - intros Hb. rewrite (Hon Hb). reflexivity.
  - intros Hb. apply Hlt. exact (Hoff Hb).
Qed.

Lemma time_until_next_quantization_range_witness :
  let c := with_state (set_currentBeat 2) new in
  on_boundary bar (state c) = false /\
  (0 < getTimeUntilNextQuantization bar c)%Q /\
  (getTimeUntilNextQuantization bar c < period_ms bar (state c))%Q.
Proof.
  intros c.
  destruct (time_until_next_quantization_range bar c) as (Hpos & _ & _ & Hlt).
  - vm_compute. discriminate.
  - vm_compute. discriminate.
  - vm_compute. split; [discriminate | reflexivity].
  - vm_compute. discriminate.
  - split; [reflexivity |]. split; [exact Hpos | apply Hlt; reflexivity].
Defined.

(** C2, counterexample.  The freshly built clock (120 bpm, bar 0, beat 0)
    is on a bar boundary, and the time until the next bar boundary is the
    2000 ms of a whole bar, not 0. *)
Lemma bar_boundary_waits_whole_bar :
  (20 <= bpm (state new))%Q /\ (bpm (state new) <= 300)%Q /\
  on_boundary bar (state new) = true /\
  (getTimeUntilNextQuantization bar new == 2000)%Q /\
  ~ (getTimeUntilNextQuantization bar new == 0)%Q.
Proof.
  split; [vm_compute; discriminate |].
  split; [vm_compute; discriminate |].
  split; [reflexivity |].
  split; [vm_compute; reflexivity |].
  vm_compute. discriminate.
Qed.

(** ** The clock on the scenarios of the specification *)

(** External clock: 96 ticks take the position from bar 0 to bar 1, beat 0;
    the beats of bar 0 are announced in order, and the bar event of bar 1
    precedes the beat event of its first beat. *)
Example external_clock_96_ticks :
  let c := run (OpSetClockSource midi 0 :: map OpTick (seqZ 1 96)) new in
  currentBar (state c) = 1 /\ currentBeat (state c) = 0 /\ tickCount c = 0 /\
  List.filter (fun e => match ev_type e with ev_tick => false | _ => true end)
              (emitted c) =
    [ mkClockEvent ev_beat 0 1 24; mkClockEvent ev_beat 0 2 48;
      mkClockEvent ev_beat 0 3 72; mkClockEvent ev_bar 1 0 96;
      mkClockEvent ev_beat 1 0 96 ].
Proof. cbv zeta. repeat split; vm_compute; reflexivity. Qed.

(** Quantized Jump to the next bar: at 120 bpm, bar 0, beat 2, the next bar
    is 1000 ms away. *)
Example next_bar_from_beat_2 :
  (getTimeUntilNextQuantization bar (with_state (set_currentBeat 2) new) == 1000)%Q.
Proof. vm_compute. reflexivity. Qed.

(** The internal generator calls [processMidiClockTick], which ignores the
    tick because the source is internal: the position of a running internal
    clock does not advance. *)
Example internal_generator_does_not_advance :
  let c := start 0 new in
  intervalId c <> None /\ isRunning (state c) = true /\
  run (map OpTick (seqZ 1 96)) c = c.
Proof.
  cbv zeta. split; [vm_compute; discriminate |]. split; [reflexivity |].
  vm_compute. reflexivity.
Qed.

End ClockSpec.

(* ====================================================================== *)
(** * Properties of insertion-ordered maps *)
(* ====================================================================== *)

Module JsMapFacts.
Section JsMapFacts.
Context {V : Type}.
Implicit Types (k : string) (v : V) (m : list (string * V)).

Lemma get_set_eq k v m : JsMap.get k (JsMap.set k v m) = Some v.
Proof.
  induction m as [| [k' v'] r IH]; simpl.
  - rewrite String.eqb_refl. reflexivity.
  - destruct (String.eqb_spec k' k) as [-> | Hne]; simpl.
    + rewrite String.eqb_refl. reflexivity.
    + destruct (String.eqb_spec k' k); [contradiction | exact IH].
Qed.

Lemma get_set_ne k k' v m :
  k <> k' -> JsMap.get k' (JsMap.set k v m) = JsMap.get k' m.
Proof.
  intros Hne. induction m as [| [k1 v1] r IH]; simpl.
  - destruct (String.eqb_spec k k'); [contradiction | reflexivity].
  - destruct (String.eqb_spec k1 k) as [-> | Hk]; simpl.
    + destruct (String.eqb_spec k k'); [contradiction | reflexivity].
    + destruct (String.eqb_spec k1 k'); [reflexivity | exact IH].
Qed.

Lemma set_set_eq k v v' m :
  JsMap.set k v' (JsMap.set k v m) = JsMap.set k v' m.
Proof.
  induction m as [| [k1 v1] r IH]; simpl.
  - rewrite String.eqb_refl. reflexivity.
  - destruct (String.eqb_spec k1 k) as [-> | Hk]; simpl.
    + rewrite String.eqb_refl. reflexivity.
    + destruct (String.eqb_spec k1 k); [contradiction |]. rewrite IH. reflexivity.
Qed.

Lemma delete_set_fresh k v m :
  JsMap.get k m = None -> JsMap.delete k (JsMap.set k v m) = m.
Proof.
  induction m as [| [k1 v1] r IH]; simpl; intros Hget.
  - rewrite String.eqb_refl. reflexivity.
  - destruct (String.eqb_spec k1 k) as [-> | Hk]; [discriminate |]. simpl.
    destruct (String.eqb_spec k1 k); [contradiction |].
    rewrite (IH Hget). reflexivity.
Qed.

Lemma get_None_keys k m :
  JsMap.get k m = None <-> ~ In k (JsMap.keys m).
Proof.
  induction m as [| [k1 v1] r IH]; simpl.
  - tauto.
  - destruct (String.eqb_spec k1 k) as [-> | Hk].
    + split; [discriminate | intros H; exfalso; apply H; left; reflexivity].
    + rewrite IH. tauto.
Qed.

Lemma keys_set_fresh k v m :
  JsMap.get k m = None -> JsMap.keys (JsMap.set k v m) = JsMap.keys m ++ [k].
Proof.
  induction m as [| [k1 v1] r IH]; simpl; intros Hget.
  - reflexivity.
  - destruct (String.eqb_spec k1 k) as [-> | Hk]; [discriminate |]. simpl.
    rewrite (IH Hget). reflexivity.
Qed.

Lemma keys_set_present k v m :
  JsMap.get k m <> None -> JsMap.keys (JsMap.set k v m) = JsMap.keys m.
Proof.
  induction m as [| [k1 v1] r IH]; simpl; intros Hget.
  - contradiction.
  - destruct (String.eqb_spec k1 k) as [-> | Hk]; simpl.
    + reflexivity.
    + rewrite (IH Hget). reflexivity.
Qed.

Lemma keys_set_NoDup k v m :
  List.NoDup (JsMap.keys m) -> List.NoDup (JsMap.keys (JsMap.set k v m)).
Proof.
  intros Hnd. destruct (JsMap.get k m) as [v0 |] eqn:Hget.
  - rewrite keys_set_present by congruence. exact Hnd.
  - rewrite keys_set_fresh by exact Hget.
    apply NoDup_ListNoDup. apply NoDup_app. repeat split.
    + apply NoDup_ListNoDup. exact Hnd.
    + intros x Hx Hx'. apply list_elem_of_In in Hx.
      apply list_elem_of_singleton in Hx'. subst x.
      apply get_None_keys in Hget. contradiction.
    + apply NoDup_singleton.
Qed.

Lemma get_In k v m : JsMap.get k m = Some v -> In (k, v) m.
Proof.
  induction m as [| [k1 v1] r IH]; simpl; intros Hget.
  - discriminate.
  - destruct (String.eqb_spec k1 k) as [-> | Hk].
    + left. congruence.
    + right. exact (IH Hget).
Qed.

End JsMapFacts.
End JsMapFacts.

(* ====================================================================== *)
(** * Properties of the transition engine *)
(* ====================================================================== *)

Module TransitionSpec.
Import Js JsFacts JsMapFacts Store Transition.

Ltac engine_fields :=
  cbn [clockEngine snapshotEngine scheduledTransition interpolationState
       interpolationTimerId transitionTimerId midiSendCallback
       interpolationUpdateCallback transitionCompleteCallback timers
       nextTimerId midiSent interpolationUpdates transitionsCompleted
       snapshots currentValues fst snd] in *.

Ltac engine_unfold :=
  cbv beta iota zeta delta
      [set_clockEngine set_snapshotEngine set_scheduledTransition
       set_interpolationState set_interpolationTimerId set_transitionTimerId
       set_midiSendCallback set_interpolationUpdateCallback
       set_transitionCompleteCallback set_timers set_nextTimerId set_midiSent
       set_interpolationUpdates set_transitionsCompleted
       clearTimer setTimer sendMidiMessage notifyInterpolation notifyComplete
       set_snapshots set_currentValues
       clockEngine snapshotEngine scheduledTransition interpolationState
       interpolationTimerId transitionTimerId midiSendCallback
       interpolationUpdateCallback transitionCompleteCallback timers
       nextTimerId midiSent interpolationUpdates transitionsCompleted
       snapshots currentValues fst snd] in *.

(** ** The temporary snapshot of sendParameterValue *)

Lemma temporary_snapshot_messages (pid : string) (v : Z) (uuid : string) (now : Z)
      (e : SnapshotEngine) :
  let e1 := snd (createSnapshot 0 0 (Some "temp") uuid now e) in
  let e2 := snd (updateSnapshotParameter uuid pid v true now e1) in
  getSnapshotMidiMessages uuid e2 =
    match parameterToMidiMessage pid (Z.max 0 (Z.min 127 v)) with
    | Some m => [m]
    | None => []
    end.
Proof.
  intros e1 e2. subst e1 e2.
  unfold createSnapshot. cbn [snd fst].
  unfold updateSnapshotParameter, set_snapshots. cbn [snapshots].
  rewrite get_set_eq. cbn [snd parameters findIndex app].
  unfold getSnapshotMidiMessages. cbn [snapshots].
  rewrite get_set_eq.
  cbn [with_modifiedAt with_parameters parameters oneShotMessages
       parameterMessages isEnabled negb parameterId value].
  destruct (parameterToMidiMessage pid (Z.max 0 (Z.min 127 v))); reflexivity.
Qed.

Lemma temporary_snapshot_deleted (pid : string) (v : Z) (uuid : string) (now : Z)
      (e : SnapshotEngine) :
  JsMap.get uuid (snapshots e) = None ->
  let e1 := snd (createSnapshot 0 0 (Some "temp") uuid now e) in
  let e2 := snd (updateSnapshotParameter uuid pid v true now e1) in
  snd (deleteSnapshot uuid e2) = e.
Proof.
  intros Hfresh e1 e2. subst e1 e2.
  unfold createSnapshot. cbn [snd fst].
  unfold updateSnapshotParameter, set_snapshots. cbn [snapshots].
  rewrite get_set_eq. cbn [snd snapshots currentValues].
  unfold deleteSnapshot, set_snapshots. cbn [snd snapshots currentValues].
  rewrite set_set_eq. rewrite (delete_set_fresh _ _ _ Hfresh).
  destruct e; reflexivity.
Qed.

(** With a fresh identifier, [sendParameterValue] amounts to sending the
    message that encodes the clamped value, if the parameter is registered. *)
Lemma sendParameterValue_fresh (pid : string) (v : Z) (uuid : string) (now : Z)
      (t : TransitionEngine) :
  JsMap.get uuid (snapshots (snapshotEngine t)) = None ->
  sendParameterValue pid v uuid now t =
    match parameterToMidiMessage pid (Z.max 0 (Z.min 127 v)) with
    | Some m => sendMidiMessage m t
    | None => t
    end.
Proof.
  intros Hfresh.
  pose proof (temporary_snapshot_messages pid v uuid now (snapshotEngine t)) as Hmsg.
  pose proof (temporary_snapshot_deleted pid v uuid now (snapshotEngine t) Hfresh) as Hdel.
  cbv zeta in Hmsg, Hdel.
  unfold sendParameterValue.
  destruct (createSnapshot 0 0 (Some "temp") uuid now (snapshotEngine t))
    as [snapshot e1] eqn:Hcreate.
  assert (Hid : snapshot_id snapshot = uuid).
  { unfold createSnapshot in Hcreate. injection Hcreate as <- _. reflexivity. }
  rewrite Hid. cbn [snd] in Hmsg, Hdel.
  destruct (updateSnapshotParameter uuid pid v true now e1) as [ok e2] eqn:Hupd.
  cbn [snd] in Hmsg, Hdel. rewrite Hmsg.
  destruct t as [ck e0 sch ist iti tti cb1 cb2 cb3 tm nt sent ups done].
  engine_fields.
  destruct (parameterToMidiMessage pid (Z.max 0 (Z.min 127 v))) as [m |].
  - unfold sendMidiMessage, set_snapshotEngine, set_midiSent. engine_fields.
    destruct cb1; engine_fields;
      destruct (deleteSnapshot uuid e2) as [ok' e3]; cbn [snd] in Hdel;
      subst e3; reflexivity.
  - unfold set_snapshotEngine. engine_fields.
    destruct (deleteSnapshot uuid e2) as [ok' e3]; cbn [snd] in Hdel;
      subst e3; reflexivity.
Qed.

Lemma sendMidiMessage_store (m : MIDIMessage) (t : TransitionEngine) :
  snapshotEngine (sendMidiMessage m t) = snapshotEngine t.
Proof. unfold sendMidiMessage. destruct (midiSendCallback t); reflexivity. Qed.

Lemma sendParameterValue_store (pid : string) (v : Z) (uuid : string) (now : Z)
      (t : TransitionEngine) :
  JsMap.get uuid (snapshots (snapshotEngine t)) = None ->
  snapshotEngine (sendParameterValue pid v uuid now t) = snapshotEngine t.
Proof.
  intros Hfresh. rewrite (sendParameterValue_fresh _ _ _ _ _ Hfresh).
  destruct (parameterToMidiMessage pid _); [apply sendMidiMessage_store | reflexivity].
Qed.

Lemma frameParameter_snapshots (st : InterpolationState) (eased : Q) (now : Z)
      (uuid pid : string) (t : TransitionEngine) :
  JsMap.get uuid (snapshots (snapshotEngine t)) = None ->
  snapshots (snapshotEngine (frameParameter st eased now uuid pid t)) =
    snapshots (snapshotEngine t).
Proof.
  intros Hfresh. unfold frameParameter. cbv zeta.
  unfold set_snapshotEngine, updateCurrentValue, set_currentValues.
  engine_fields.
  rewrite (sendParameterValue_store _ _ _ _ _ Hfresh). reflexivity.
Qed.

Lemma frameParameters_snapshots (st : InterpolationState) (eased : Q) (now : Z)
      (uuids : nat -> string) (pids : list string) :
  forall (i : nat) (t : TransitionEngine),
    (forall j : nat, JsMap.get (uuids j) (snapshots (snapshotEngine t)) = None) ->
    snapshots (snapshotEngine (frameParameters st eased now uuids i pids t)) =
      snapshots (snapshotEngine t).
Proof.
  induction pids as [| pid r IH]; intros i t Hfresh; simpl.
  - reflexivity.
  - rewrite IH.
    + apply frameParameter_snapshots. apply Hfresh.
    + intros j. rewrite frameParameter_snapshots by apply Hfresh. apply Hfresh.
Qed.

(** C10. Every per-parameter emission of a Jump frame leaves the snapshot
    store unchanged: when the identifier drawn for the temporary snapshot is
    fresh (no stored snapshot has it), the stored snapshots after
    sendParameterValue are exactly those before, entry by entry and in the
    same order, and so are they after the whole loop of a frame. *)
Theorem sendParameterValue_preserves_snapshots :
  (forall (pid : string) (v : Z) (uuid : string) (now : Z) (t : TransitionEngine),
     JsMap.get uuid (snapshots (snapshotEngine t)) = None ->
     snapshots (snapshotEngine (sendParameterValue pid v uuid now t)) =
       snapshots (snapshotEngine t)) /\
  (forall (st : InterpolationState) (eased : Q) (now : Z) (uuids : nat -> string)
          (pids : list string) (t : TransitionEngine),
     (forall j : nat, JsMap.get (uuids j) (snapshots (snapshotEngine t)) = None) ->
     snapshots (snapshotEngine (frameParameters st eased now uuids O pids t)) =
       snapshots (snapshotEngine t)).
Proof.
  split.
  - intros pid v uuid now t Hfresh.
    rewrite (sendParameterValue_store _ _ _ _ _ Hfresh). reflexivity.
  - intros st eased now uuids pids t Hfresh.
    apply frameParameters_snapshots. exact Hfresh.
Qed.

Lemma sendParameterValue_preserves_snapshots_witness :
  let t := Scenario.engineWith [Scenario.volume100] in
  JsMap.get "fresh-id" (snapshots (snapshotEngine t)) = None /\
  snapshots (snapshotEngine (sendParameterValue "track_3_pan" 17 "fresh-id" 0 t)) =
    snapshots (snapshotEngine t).
Proof.
  intros t. split; [reflexivity |].
  apply (proj1 sendParameterValue_preserves_snapshots). reflexivity.
Defined.

(** ** Eased progress of a Jump *)

Lemma square_nonneg (z : Q) : (0 <= z * z)%Q.
Proof. nra. Qed.

Lemma cube_monotone (x y : Q) :
  (y <= x)%Q -> (y * y * y <= x * x * x)%Q.
Proof.
  intros Hyx.
  pose proof (square_nonneg (x + y)) as H1.
  pose proof (square_nonneg x) as H2.
  pose proof (square_nonneg y) as H3.
  assert (Hprod : (0 <= (x - y) * ((x + y) * (x + y) + x * x + y * y))%Q).
  { apply Qmult_le_0_compat; lra. }
  assert (Heq : ((x - y) * ((x + y) * (x + y) + x * x + y * y)
                 == 2 * (x * x * x - y * y * y))%Q) by ring.
  rewrite Heq in Hprod. lra.
Qed.

Lemma easeOutCubic_monotone (a b : Q) :
  (a <= b)%Q -> (easeOutCubic a <= easeOutCubic b)%Q.
Proof.
  intros Hab. unfold easeOutCubic, pow3.
  assert (Hc : ((1 - b) * (1 - b) * (1 - b) <= (1 - a) * (1 - a) * (1 - a))%Q).
  { apply cube_monotone. lra. }
  lra.
Qed.

Lemma quotient_monotone (e1 e2 d : Q) :
  (0 < d)%Q -> (e1 <= e2)%Q -> (e1 / d <= e2 / d)%Q.
Proof.
  intros Hd He. unfold Qdiv. apply Qmult_le_compat_r; [exact He |].
  apply Qlt_le_weak. apply Qinv_lt_0_compat. exact Hd.
Qed.

Lemma progressAt_monotone (e1 e2 d : Q) :
  (0 < d)%Q -> (e1 <= e2)%Q -> (progressAt e1 d <= progressAt e2 d)%Q.
Proof.
  intros Hd He. unfold progressAt.
  apply Q.min_le_compat_r. apply quotient_monotone; assumption.
Qed.

Lemma progressAt_start (d : Q) : (0 < d)%Q -> (progressAt 0 d == 0)%Q.
Proof.
  intros Hd. unfold progressAt.
  assert (H0 : (0 / d == 0)%Q) by (unfold Qdiv; apply Qmult_0_l).
  destruct (Q.min_spec (0 / d) 1) as [[_ Heq] | [Hle _]].
  - rewrite Heq. exact H0.
  - rewrite H0 in Hle. exfalso. revert Hle. apply Qlt_not_le. reflexivity.
Qed.

Lemma progressAt_end (e d : Q) :
  (0 < d)%Q -> (d <= e)%Q -> (progressAt e d == 1)%Q.
Proof.
  intros Hd He. unfold progressAt. apply Q.min_r.
  apply Qle_shift_div_l; [exact Hd |]. lra.
Qed.

Lemma progressAt_clamp (e d : Q) :
  (0 < d)%Q -> (0 <= e)%Q -> (progressAt e d == clampQ 0 1 (e / d))%Q.
Proof.
  intros Hd He. unfold progressAt, clampQ.
  assert (Hq : (0 <= e / d)%Q).
  { apply Qle_shift_div_l; [exact Hd | lra]. }
  rewrite (Q.min_comm 1 (e / d)).
  symmetry. apply Q.max_r. apply Q.min_glb; [exact Hq | discriminate].
Qed.

(** C7. For a Jump with duration d > 0, the eased progress of a frame,
    1 - (1 - min(elapsed/d, 1))^3, is 0 at elapsed = 0, is 1 for every
    elapsed >= d, and is monotonically non-decreasing in elapsed; for
    elapsed >= 0 it is the value 1 - (1 - clamp(elapsed/d, 0, 1))^3. *)
Theorem eased_progress_profile (d : Q) :
  (0 < d)%Q ->
  (easedProgressAt 0 d == 0)%Q /\
  (forall e : Q, (d <= e)%Q -> (easedProgressAt e d == 1)%Q) /\
  (forall e1 e2 : Q,
     (e1 <= e2)%Q -> (easedProgressAt e1 d <= easedProgressAt e2 d)%Q) /\
  (forall e : Q,
     (0 <= e)%Q ->
     (easedProgressAt e d == 1 - pow3 (1 - clampQ 0 1 (e / d)))%Q).
Proof.
  intros Hd. unfold easedProgressAt. split; [| split; [| split]].
  - unfold easeOutCubic, pow3. rewrite (progressAt_start d Hd). ring.
  - intros e He. unfold easeOutCubic, pow3. rewrite (progressAt_end e d Hd He). ring.
  - intros e1 e2 He. apply easeOutCubic_monotone.
    apply progressAt_monotone; assumption.
  - intros e He. unfold easeOutCubic, pow3.
    rewrite (progressAt_clamp e d Hd He). reflexivity.
Qed.

Lemma eased_progress_profile_witness :
  (0 < 1000)%Q /\
  (easedProgressAt 0 1000 == 0)%Q /\
  (easedProgressAt 1500 1000 == 1)%Q /\
  (easedProgressAt 250 1000 <= easedProgressAt 500 1000)%Q.
Proof.
  assert (Hd : (0 < 1000)%Q) by reflexivity.
  destruct (eased_progress_profile 1000 Hd) as (H0 & H1 & Hmono & _).
  split; [exact Hd |]. split; [exact H0 |].
  split; [apply H1; vm_compute; discriminate |].
  apply Hmono. vm_compute. discriminate.
Defined.

(** ** Cancellation *)

Lemma cancel_settled (t : TransitionEngine) :
  transitionTimerId t = None ->
  scheduledTransition t = None ->
  interpolationTimerId t = None ->
  interpolationState t = None ->
  cancelActiveTransition t = t.
Proof.
  destruct t as [ck e0 sch ist iti tti cb1 cb2 cb3 tm nt sent ups done].
  engine_fields. intros -> -> -> ->. reflexivity.
Qed.

Lemma cancel_fields (t : TransitionEngine) :
  transitionTimerId (cancelActiveTransition t) = None /\
  scheduledTransition (cancelActiveTransition t) = None /\
  interpolationTimerId (cancelActiveTransition t) = None /\
  interpolationState (cancelActiveTransition t) = None.
Proof.
  destruct t as [ck e0 sch ist iti tti cb1 cb2 cb3 tm nt sent ups done].
  destruct tti, iti, ist; repeat split; reflexivity.
Qed.

Lemma cancel_frame (t : TransitionEngine) :
  snapshotEngine (cancelActiveTransition t) = snapshotEngine t /\
  clockEngine (cancelActiveTransition t) = clockEngine t /\
  midiSent (cancelActiveTransition t) = midiSent t /\
  interpolationUpdates (cancelActiveTransition t) = interpolationUpdates t /\
  transitionsCompleted (cancelActiveTransition t) = transitionsCompleted t.
Proof.
  destruct t as [ck e0 sch ist iti tti cb1 cb2 cb3 tm nt sent ups done].
  destruct tti, iti, ist; repeat split; reflexivity.
Qed.

(** C6. cancelActiveTransition is idempotent: a second call in a row leaves
    the whole engine state, pending timers and callback logs included, as
    the first call left it.  After it returns, isTransitionActive() is false,
    getScheduledTransition() and getInterpolationState() return null, and the
    store (stored snapshots and current-value shadow) is what it was before
    the call; nothing is sent and no completion is reported. *)
Theorem cancel_idempotent_no_rollback (t : TransitionEngine) :
  cancelActiveTransition (cancelActiveTransition t) = cancelActiveTransition t /\
  isTransitionActive (cancelActiveTransition t) = false /\
  getScheduledTransition (cancelActiveTransition t) = None /\
  getInterpolationState (cancelActiveTransition t) = None /\
  currentValues (snapshotEngine (cancelActiveTransition t)) =
    currentValues (snapshotEngine t) /\
  snapshots (snapshotEngine (cancelActiveTransition t)) =
    snapshots (snapshotEngine t) /\
  midiSent (cancelActiveTransition t) = midiSent t /\
  transitionsCompleted (cancelActiveTransition t) = transitionsCompleted t.
Proof.
  destruct (cancel_fields t) as (H1 & H2 & H3 & H4).
  destruct (cancel_frame t) as (F1 & F2 & F3 & F4 & F5).
  split; [apply cancel_settled; assumption |].
  unfold isTransitionActive, getScheduledTransition, getInterpolationState.
  rewrite H2, H4, F1, F3, F5. repeat split; reflexivity.
Qed.

(** ** Drop *)

Lemma sendAll_installed (msgs : list MIDIMessage) :
  forall t : TransitionEngine,
    midiSendCallback t = true ->
    fold_left (fun acc message => sendMidiMessage message acc) msgs t =
      set_midiSent (midiSent t ++ msgs) t.
Proof.
  induction msgs as [| m r IH]; intros t Hcb; simpl.
  - rewrite app_nil_r. destruct t; reflexivity.
  - rewrite IH.
    + unfold sendMidiMessage. rewrite Hcb.
      unfold set_midiSent. engine_fields. rewrite <- app_assoc. reflexivity.
    + unfold sendMidiMessage. rewrite Hcb. exact Hcb.
Qed.

Lemma sendAll_not_installed (msgs : list MIDIMessage) :
  forall t : TransitionEngine,
    midiSendCallback t = false ->
    fold_left (fun acc message => sendMidiMessage message acc) msgs t = t.
Proof.
  induction msgs as [| m r IH]; intros t Hcb; simpl.
  - reflexivity.
  - unfold sendMidiMessage at 2. rewrite Hcb. apply IH. exact Hcb.
Qed.

Lemma updateAll_store (targets : list (string * Z)) :
  forall t : TransitionEngine,
    fold_left (fun acc kv =>
                 set_snapshotEngine
                   (updateCurrentValue (fst kv) (snd kv) (snapshotEngine acc)) acc)
              targets t =
    set_snapshotEngine
      (fold_left (fun e kv => updateCurrentValue (fst kv) (snd kv) e)
                 targets (snapshotEngine t)) t.
Proof.
  induction targets as [| kv r IH]; intros t; simpl.
  - destruct t; reflexivity.
  - rewrite IH. destruct t; reflexivity.
Qed.

(** What a Drop firing does to the engine state. *)
Lemma executeDropImmediate_effect (snapshot : Snapshot) (repeat : bool)
      (t : TransitionEngine) :
  let msgs := getSnapshotMidiMessages (snapshot_id snapshot) (snapshotEngine t) in
  let targets := getInterpolationTargets (snapshot_id snapshot) (snapshotEngine t) in
  let t' := executeDropImmediate snapshot repeat t in
  midiSent t' = (if midiSendCallback t then midiSent t ++ msgs else midiSent t) /\
  snapshotEngine t' =
    fold_left (fun e kv => updateCurrentValue (fst kv) (snd kv) e)
              targets (snapshotEngine t) /\
  scheduledTransition t' = None /\
  timers t' = timers t /\
  nextTimerId t' = nextTimerId t /\
  transitionTimerId t' = transitionTimerId t /\
  interpolationTimerId t' = interpolationTimerId t /\
  interpolationState t' = interpolationState t /\
  clockEngine t' = clockEngine t.
Proof.
  intros msgs targets t'. subst t'. unfold executeDropImmediate. cbv zeta.
  fold msgs.
  assert (Hif : forall (b : bool) (x : TransitionEngine), (if b then x else x) = x)
    by (intros []; reflexivity).
  rewrite Hif. rewrite updateAll_store.
  destruct (midiSendCallback t) eqn:Hcb.
  - rewrite (sendAll_installed msgs t Hcb).
    destruct t as [ck e0 sch ist iti tti cb1 cb2 cb3 tm nt sent ups done].
    unfold notifyComplete. engine_unfold. fold targets.
    destruct cb3; repeat split; reflexivity.
  - rewrite (sendAll_not_installed msgs t Hcb).
    destruct t as [ck e0 sch ist iti tti cb1 cb2 cb3 tm nt sent ups done].
    unfold notifyComplete. engine_unfold. fold targets.
    destruct cb3; repeat split; reflexivity.
Qed.

(** *** The registry puts distinct entries on distinct controllers *)

Lemma allParams_wire_NoDup :
  NoDup (map (fun kv => wireOf (snd kv)) allParams).
Proof. apply (bool_decide_unpack _). vm_compute. exact I. Qed.

Lemma NoDup_map_injective {A B : Type} (f : A -> B) (l : list A) (x y : A) :
  NoDup (map f l) -> In x l -> In y l -> f x = f y -> x = y.
Proof.
  induction l as [| a r IH]; simpl; intros Hnd Hx Hy Hf.
  - contradiction.
  - apply NoDup_cons in Hnd as [Hnotin Hnd].
    destruct Hx as [-> | Hx], Hy as [-> | Hy].
    + reflexivity.
    + exfalso. apply Hnotin. rewrite Hf. apply list_elem_of_In.
      apply in_map. exact Hy.
    + exfalso. apply Hnotin. rewrite <- Hf. apply list_elem_of_In.
      apply in_map. exact Hx.
    + apply IH; assumption.
Qed.



(** *** Targets of a snapshot and the shadow after a Drop *)

Lemma targets_keys_NoDup (ps : list SnapshotParameter) :
  forall acc : list (string * Z),
    List.NoDup (JsMap.keys acc) ->
    List.NoDup
      (JsMap.keys
         (fold_left (fun targets param =>
                       if isEnabled param
                       then JsMap.set (parameterId param) (value param) targets
                       else targets) ps acc)).
Proof.
  induction ps as [| e r IH]; intros acc Hnd; simpl.
  - exact Hnd.
  - apply IH. destruct (isEnabled e); [apply keys_set_NoDup |]; exact Hnd.
Qed.

Lemma targets_absent (p : string) (ps : list SnapshotParameter) :
  forall acc : list (string * Z),
    count_occ string_dec (map parameterId ps) p = O ->
    JsMap.get p
      (fold_left (fun targets param =>
                    if isEnabled param
                    then JsMap.set (parameterId param) (value param) targets
                    else targets) ps acc) = JsMap.get p acc.
Proof.
  induction ps as [| e r IH]; intros acc Hc; simpl in *.
  - reflexivity.
  - destruct (string_dec (parameterId e) p) as [Heq | Hne]; [discriminate |].
    rewrite (IH _ Hc). destruct (isEnabled e); [| reflexivity].
    apply get_set_ne. exact Hne.
Qed.

Lemma occurs_at_least_once (p : string) (v : Z) (b : bool)
      (ps : list SnapshotParameter) :
  In {| parameterId := p; value := v; isEnabled := b |} ps ->
  (1 <= count_occ string_dec (map parameterId ps) p)%nat.
Proof.
  intros Hin.
  apply (in_map parameterId) in Hin. cbn [parameterId] in Hin.
  apply (count_occ_In string_dec) in Hin. lia.
Qed.

Lemma targets_unique (p : string) (v : Z) (ps : list SnapshotParameter) :
  forall acc : list (string * Z),
    In {| parameterId := p; value := v; isEnabled := true |} ps ->
    count_occ string_dec (map parameterId ps) p = 1%nat ->
    JsMap.get p
      (fold_left (fun targets param =>
                    if isEnabled param
                    then JsMap.set (parameterId param) (value param) targets
                    else targets) ps acc) = Some v.
Proof.
  induction ps as [| e r IH]; intros acc Hin Hc; simpl in *.
  - contradiction.
  - destruct (string_dec (parameterId e) p) as [Heq | Hne].
    + assert (Hr : count_occ string_dec (map parameterId r) p = O) by lia.
      destruct Hin as [-> | Hin].
      * cbn [isEnabled parameterId value].
        rewrite (targets_absent p r _ Hr). apply get_set_eq.
      * apply occurs_at_least_once in Hin. lia.
    + destruct Hin as [-> | Hin]; [cbn [parameterId] in Hne; contradiction |].
      apply IH; assumption.
Qed.

Lemma updateAll_get (targets : list (string * Z)) (k : string) :
  forall e : SnapshotEngine,
    List.NoDup (JsMap.keys targets) ->
    getCurrentValue k
      (fold_left (fun e kv => updateCurrentValue (fst kv) (snd kv) e) targets e) =
    match JsMap.get k targets with
    | Some v => Some (Z.max 0 (Z.min 127 v))
    | None => getCurrentValue k e
    end.
Proof.
  induction targets as [| [k1 v1] r IH]; intros e Hnd; simpl.
  - reflexivity.
  - apply List.NoDup_cons_iff in Hnd as [Hnotin Hnd].
    rewrite (IH _ Hnd). cbn [fst snd] in *.
    destruct (String.eqb_spec k1 k) as [-> | Hne].
    + apply get_None_keys in Hnotin. rewrite Hnotin.
      unfold getCurrentValue, updateCurrentValue, set_currentValues.
      cbn [currentValues]. apply get_set_eq.
    + destruct (JsMap.get k r); [reflexivity |].
      unfold getCurrentValue, updateCurrentValue, set_currentValues.
      cbn [currentValues]. apply get_set_ne. exact Hne.
Qed.

(** *** Messages of the parameters of a snapshot *)





(** A Drop that was scheduled fires as [executeDropImmediate]: the store, the
    callbacks and the log of sent messages are those of the engine at the
    time of the trigger. *)
Lemma scheduled_drop_fires (snapshot : Snapshot) (settings : TransitionSettings)
      (now : Z) (t : TransitionEngine) :
  let t1 := executeDrop snapshot settings now t in
  exists handle : nat,
    transitionTimerId t1 = Some handle /\
    snapshotEngine t1 = snapshotEngine t /\
    midiSendCallback t1 = midiSendCallback t /\
    midiSent t1 = midiSent t /\
    forall (now' : Z) (uuids : nat -> string),
      fireTimer handle now' uuids t1 =
        Some (executeDropImmediate snapshot (repeatMode settings)
                                   (clearTimer handle t1)).
Proof.
  intros t1. subst t1. unfold executeDrop. cbv zeta.
  destruct (cancel_frame t) as (F1 & _ & F3 & _).
  assert (Fcb : midiSendCallback (cancelActiveTransition t) = midiSendCallback t).
  { destruct t as [ck e0 sch ist iti tti cb1 cb2 cb3 tm nt sent ups done].
    destruct tti, iti, ist; reflexivity. }
  set (t0 := cancelActiveTransition t) in *.
  destruct t0 as [ck e0 sch ist iti tti cb1 cb2 cb3 tm nt sent ups done].
  engine_unfold. exists nt.
  repeat split; try assumption.
  intros now' uuids. unfold fireTimer. engine_unfold.
  rewrite lookup_insert_eq. reflexivity.
Qed.




(** C8, what the code does.  A Drop that fires with repeat = true does
    exactly what it does with repeat = false: no Drop is scheduled
    afterwards and no timer is armed.  On the engine of the first scenario
    (cycle length 1, repeat = true) the state after the firing has no
    scheduled transition and no pending timer. *)
Theorem drop_repeat_flag_has_no_effect :
  (forall (snapshot : Snapshot) (t : TransitionEngine),
     executeDropImmediate snapshot true t = executeDropImmediate snapshot false t /\
     scheduledTransition (executeDropImmediate snapshot true t) = None /\
     timers (executeDropImmediate snapshot true t) = timers t) /\
  (let t0 := Scenario.engineWith [Scenario.volume100] in
   let t1 := executeDrop Scenario.volume100 (Scenario.dropSettings 1 true) 0 t0 in
   transitionTimerId t1 = Some O /\
   match timers t1 !! O with
   | Some (DropTimeout snapshot repeat delayMs) =>
     snapshot = Scenario.volume100 /\ repeat = true /\ (delayMs == 2000)%Q
   | _ => False
   end /\
   exists t2 : TransitionEngine,
     fireTimer O 2000 (fun _ => "unused") t1 = Some t2 /\
     scheduledTransition t2 = None /\
     isTransitionActive t2 = false /\
     timers t2 = ∅ /\
     List.length (midiSent t2) = 1%nat /\
     transitionsCompleted t2 = [Scenario.volume100]).
Proof.
  split.
  - intros snapshot t.
    destruct (executeDropImmediate_effect snapshot true t)
      as (_ & _ & Hs & Ht & _).
    split; [reflexivity | split; assumption].
  - cbv zeta. split; [vm_compute; reflexivity |].
    split; [vm_compute; repeat split; reflexivity |].
    eexists. split; [vm_compute; reflexivity |].
    repeat split; vm_compute; reflexivity.
Qed.

(** ** The engine on the scenarios of the specification *)

Example registry_has_54_entries :
  List.length allParams = 54%nat /\
  List.length (currentValues Store.constructor) = 54%nat /\
  getCurrentValue "track_3_pan" Store.constructor = Some 64.
Proof. repeat split; vm_compute; reflexivity. Qed.

(** Internal-clock Drop at the bar boundary: scheduled for bar 1; when it
    fires, exactly one CC (channel 1, controller 7, value 100) is delivered,
    the shadow holds 100 and the completion is reported once. *)
Example drop_at_bar_boundary :
  let t0 := Scenario.engineWith [Scenario.volume100] in
  let t1 := executeDrop Scenario.volume100 (Scenario.dropSettings 1 false) 0 t0 in
  (targetBar <$> scheduledTransition t1) = Some (Some 1) /\
  exists t2 : TransitionEngine,
    fireTimer O 2000 (fun _ => "unused") t1 = Some t2 /\
    midiSent t2 =
      [ {| msg_type := cc; msg_channel := 1; msg_value := 100; msg_cc := Some 7;
           msg_note := None; msg_velocity := None;
           msg_nrpnMsb := None; msg_nrpnLsb := None |} ] /\
    getCurrentValue "track_1_volume" (snapshotEngine t2) = Some 100 /\
    transitionsCompleted t2 = [Scenario.volume100].
Proof.
  cbv zeta. split; [vm_compute; reflexivity |].
  eexists. split; [vm_compute; reflexivity |].
  repeat split; vm_compute; reflexivity.
Qed.

(** Jump fade without quantization, 1000 ms: the frame at 500 ms sends the
    pan at 8 (eased progress 7/8 of the way from 64 to 0), the frame at
    1000 ms sends 0, reports the completion and ends the transition. *)
Example jump_fade_frames :
  let t0 := Scenario.engineWith [Scenario.panLeft] in
  let t1 := executeJump Scenario.panLeft (Scenario.jumpSettings 1000 none) 0 t0 in
  isTransitionActive t1 = true /\
  exists t2 t3 : TransitionEngine,
    interpolationFrame 500 (fun _ => "frame-1") t1 = Some t2 /\
    midiSent t2 = [Scenario.pan3 8] /\
    getCurrentValue "track_3_pan" (snapshotEngine t2) = Some 8 /\
    isTransitionActive t2 = true /\
    interpolationFrame 1000 (fun _ => "frame-2") t2 = Some t3 /\
    midiSent t3 = [Scenario.pan3 8; Scenario.pan3 0] /\
    getCurrentValue "track_3_pan" (snapshotEngine t3) = Some 0 /\
    isTransitionActive t3 = false /\
    transitionsCompleted t3 = [Scenario.panLeft] /\
    timers t3 = ∅ /\
    snapshots (snapshotEngine t3) = snapshots (snapshotEngine t0).
Proof.
  cbv zeta. split; [vm_compute; reflexivity |].
  eexists. eexists. split; [vm_compute; reflexivity |].
  repeat split; vm_compute; reflexivity.
Qed.

(** Cancellation during the Jump: after the frame at 500 ms, cancel leaves
    the shadow at the intermediate value 8, the transition is no longer
    active, no completion is reported and no timer is pending. *)
Example cancel_during_jump :
  let t0 := Scenario.engineWith [Scenario.panLeft] in
  let t1 := executeJump Scenario.panLeft (Scenario.jumpSettings 1000 none) 0 t0 in
  exists t2 : TransitionEngine,
    interpolationFrame 500 (fun _ => "frame-1") t1 = Some t2 /\
    let t3 := cancelActiveTransition t2 in
    getCurrentValue "track_3_pan" (snapshotEngine t3) = Some 8 /\
    isTransitionActive t3 = false /\
    transitionsCompleted t3 = [] /\
    midiSent t3 = [Scenario.pan3 8] /\
    timers t3 = ∅.
Proof.
  cbv zeta. eexists. split; [vm_compute; reflexivity |].
  repeat split; vm_compute; reflexivity.
Qed.

End TransitionSpec.

(* ====================================================================== *)
(** * Properties of the registry lookups *)
(* ====================================================================== *)

Module RegistrySpec.
Import Js JsMapFacts Registry.








Lemma registry_entries_are_controllers (d : OpxyParameter) :
  In d (JsMap.values getAllOpxyParameters) ->
  param_type d = cc /\ 1 <= param_channel d <= 16 /\
  exists c : Z, param_cc d = Some c /\ 0 <= c <= 127.
Proof.
  assert (H : forallb
                (fun d => bool_decide (param_type d = cc)
                          && (1 <=? param_channel d) && (param_channel d <=? 16)
                          && match param_cc d with
                             | Some c => (0 <=? c) && (c <=? 127)
                             | None => false
                             end)
                (JsMap.values getAllOpxyParameters) = true)
    by (vm_compute; reflexivity).
  rewrite forallb_forall in H. intros Hin. specialize (H d Hin).
  rewrite !andb_true_iff in H. destruct H as (((Ht & H1) & H2) & Hc).
  apply bool_decide_eq_true in Ht.
  destruct (param_cc d) as [c |]; [| discriminate].
  split; [exact Ht |]. split; [lia |]. exists c. split; [reflexivity | lia].
Qed.

Lemma values_In (V : Type) (v : V) (m : list (string * V)) :
  In v (JsMap.values m) <-> exists k : string, In (k, v) m.
Proof.
  unfold JsMap.values. rewrite in_map_iff. split.
  - intros ([k v'] & Heq & Hin). cbn [snd] in Heq. subst v'. exists k. exact Hin.
  - intros (k & Hin). exists (k, v). split; [reflexivity | exact Hin].
Qed.

Lemma find_unique {A : Type} (f : A -> bool) (l : list A) (x : A) :
  In x l -> f x = true ->
  (forall y : A, In y l -> f y = true -> y = x) ->
  List.find f l = Some x.
Proof.
  induction l as [| a r IH]; simpl; intros Hin Hfx Huniq.
  - contradiction.
  - destruct (f a) eqn:Hfa.
    + f_equal. apply Huniq; [left; reflexivity | exact Hfa].
    + destruct Hin as [-> | Hin]; [congruence |].
      apply IH; [exact Hin | exact Hfx |].
      intros y Hy. apply Huniq. right. exact Hy.
Qed.

Lemma matchesCC_spec (c ch : Z) (d : OpxyParameter) :
  matchesCC c ch d = true <-> param_cc d = Some c /\ param_channel d = ch.
Proof.
  unfold matchesCC. destruct (param_cc d) as [c' |].
  - rewrite andb_true_iff, !Z.eqb_eq. split.
    + intros [-> ->]. auto.
    + intros [Heq ->]. injection Heq as ->. auto.
  - split; [discriminate | intros [Heq _]; discriminate].
Qed.

Lemma registry_entry_by_wire (d1 d2 : OpxyParameter) :
  In d1 (JsMap.values getAllOpxyParameters) ->
  In d2 (JsMap.values getAllOpxyParameters) ->
  param_cc d1 = param_cc d2 -> param_channel d1 = param_channel d2 ->
  d1 = d2.
Proof.
  intros H1 H2 Hcc Hch.
  apply values_In in H1 as [k1 H1]. apply values_In in H2 as [k2 H2].
  assert (Heq : (k1, d1) = (k2, d2)).
  { apply (TransitionSpec.NoDup_map_injective
             (fun kv => Store.wireOf (snd kv)) Store.allParams);
      [exact TransitionSpec.allParams_wire_NoDup | exact H1 | exact H2 |].
    unfold Store.wireOf. cbn [snd]. congruence. }
  congruence.
Qed.

(** X2. Lookup by controller.  getParameterByCC(cc, channel) returns an entry
    exactly when that entry is the registry entry with this controller
    number on this channel; it therefore decodes what the store encodes: the
    message that encodes a registered parameter leads back to the entry of
    that parameter. *)
Theorem getParameterByCC_decodes :
  (forall (c ch : Z) (d : OpxyParameter),
     getParameterByCC c ch = Some d <->
     In d (JsMap.values getAllOpxyParameters) /\
     param_cc d = Some c /\ param_channel d = ch) /\
  (forall (p : string) (v : Z) (m : MIDIMessage),
     Store.parameterToMidiMessage p v = Some m ->
     exists c : Z,
       msg_cc m = Some c /\
       getParameterByCC c (msg_channel m) = getParameterById p /\
       getParameterById p <> None).
Proof.
  assert (Hiff : forall (c ch : Z) (d : OpxyParameter),
             getParameterByCC c ch = Some d <->
             In d (JsMap.values getAllOpxyParameters) /\
             param_cc d = Some c /\ param_channel d = ch).
  { intros c ch d. unfold getParameterByCC. split.
    - intros Hfind. apply find_some in Hfind as [Hin Hm].
      apply matchesCC_spec in Hm. tauto.
    - intros (Hin & Hcc & Hch). apply find_unique.
      + exact Hin.
      + apply matchesCC_spec. auto.
      + intros y Hy Hmy. apply matchesCC_spec in Hmy as [Hycc Hych].
        apply registry_entry_by_wire; congruence. }
  split; [exact Hiff |].
  intros p v m Hm. unfold Store.parameterToMidiMessage in Hm.
  change Store.allParams with getAllOpxyParameters in Hm.
  unfold getParameterById.
  destruct (JsMap.get (toUpperCase p) getAllOpxyParameters) as [d |] eqn:Hget;
    [| discriminate].
  injection Hm as <-. cbn [msg_cc msg_channel].
  assert (Hin : In d (JsMap.values getAllOpxyParameters)).
  { apply values_In. exists (toUpperCase p). apply get_In. exact Hget. }
  destruct (registry_entries_are_controllers d Hin) as (_ & _ & c & Hc & _).
  exists c. split; [exact Hc |]. split; [| discriminate].
  apply Hiff. auto.
Qed.

Lemma getParameterByCC_decodes_witness :
  exists c : Z,
    Some 9 = Some c /\
    getParameterByCC c 12 = getParameterById "track_12_mute" /\
    getParameterById "track_12_mute" <> None.
Proof.
  apply (proj2 getParameterByCC_decodes "track_12_mute" 127
               {| msg_type := cc; msg_channel := 12; msg_value := 127;
                  msg_cc := Some 9; msg_note := None; msg_velocity := None;
                  msg_nrpnMsb := None; msg_nrpnLsb := None |}).
  vm_compute. reflexivity.
Defined.

(** X3. Parameters of a track.  getTrackParameters throws for a track number
    outside 1..16.  For the tracks 2 to 16 it returns the volume, mute and
    pan entries of the track, in this order; for track 1 it returns nine
    entries, because the six scene, tempo and groove entries are on channel
    1 as well. *)
Theorem getTrackParameters_by_channel :
  (forall n : Z, n < 1 \/ 16 < n ->
     getTrackParameters n = inl "Track number must be between 1 and 16") /\
  (forall n : Z, 2 <= n <= 16 ->
     getTrackParameters n = inr (JsMap.values (trackParametersOf n))) /\
  getTrackParameters 1 =
    inr (JsMap.values OPXY_PARAMETERS ++ JsMap.values (trackParametersOf 1)).
Proof.
  split; [| split].
  - intros n Hn. unfold getTrackParameters.
    destruct (n <? 1) eqn:E1; [reflexivity |].
    destruct (16 <? n) eqn:E2; [reflexivity |]. lia.
  - intros n Hn.
    assert (Hall : forallb
                     (fun k => bool_decide
                                 (getTrackParameters k =
                                  inr (JsMap.values (trackParametersOf k))))
                     (seqZ 2 15) = true) by (vm_compute; reflexivity).
    rewrite forallb_forall in Hall.
    specialize (Hall n ltac:(apply list_elem_of_In; apply elem_of_seqZ; lia)).
    apply bool_decide_eq_true in Hall. exact Hall.
  - vm_compute. reflexivity.
Qed.

Lemma getTrackParameters_by_channel_witness :
  getTrackParameters 0 = inl "Track number must be between 1 and 16" /\
  getTrackParameters 5 = inr (JsMap.values (trackParametersOf 5)).
Proof.
  split.
  - apply (proj1 getTrackParameters_by_channel 0). lia.
  - apply (proj1 (proj2 getTrackParameters_by_channel) 5). lia.
Defined.

End RegistrySpec.

(* ====================================================================== *)
(** * Properties of the value conversions and validators *)
(* ====================================================================== *)

Module UnitsSpec.
Import Js JsFacts Conversions Units.

Ltac Q_to_Z := unfold Qle, Qlt, Qeq, Qplus, inject_Z in *; simpl in *; lia.

Lemma Math_round_unique (z : Z) (x : Q) :
  (inject_Z z <= x + (1 # 2))%Q -> (x + (1 # 2) < inject_Z z + 1)%Q ->
  Math_round x = z.
Proof.
  intros Hlo Hhi. destruct (Math_round_bounds x) as [Rlo Rhi].
  set (r := Math_round x) in *.
  assert (H1 : (inject_Z r < inject_Z z + 1)%Q) by lra.
  assert (H2 : (inject_Z z < inject_Z r + 1)%Q) by lra.
  clear - H1 H2. Q_to_Z.
Qed.

Lemma Math_round_monotone (x y : Q) :
  (x <= y)%Q -> Math_round x <= Math_round y.
Proof.
  intros Hxy. unfold Math_round. apply Qfloor_resp_le. lra.
Qed.

Lemma Math_round_inject (z : Z) : Math_round (inject_Z z) = z.
Proof. apply Math_round_integer. reflexivity. Qed.

(** Scenes.  Scene numbers 1..128 and MIDI values 0..127 correspond one
    to one through sceneToMidiValue and midiValueToScene, and both functions
    clamp what lies outside to the nearest end of their range. *)
Theorem scene_round_trip :
  (forall s : Z, 1 <= s <= 128 -> midiValueToScene (sceneToMidiValue s) = s) /\
  (forall v : Z, 0 <= v <= 127 -> sceneToMidiValue (midiValueToScene v) = v) /\
  (forall s : Z, 0 <= sceneToMidiValue s <= 127 /\
                 (s < 1 -> sceneToMidiValue s = 0) /\
                 (128 < s -> sceneToMidiValue s = 127)) /\
  (forall v : Z, 1 <= midiValueToScene v <= 128 /\
                 (v < 0 -> midiValueToScene v = 1) /\
                 (127 < v -> midiValueToScene v = 128)).
Proof.
  unfold midiValueToScene, sceneToMidiValue. repeat split; intros; lia.
Qed.

Lemma scene_round_trip_witness :
  1 <= 128 <= 128 /\ midiValueToScene (sceneToMidiValue 128) = 128 /\
  sceneToMidiValue (midiValueToScene 0) = 0.
Proof.
  split; [lia |]. split.
  - apply (proj1 scene_round_trip 128). lia.
  - apply (proj1 (proj2 scene_round_trip) 0). lia.
Defined.

(** ** Volume *)

Lemma volumeToMidiValue_linear (p : Q) :
  ((p / 100) * 127 == p * (127 # 100))%Q.
Proof. field. Qed.

Lemma midiValueToVolume_linear (v : Q) :
  ((v / 127) * 100 == v * (100 # 127))%Q.
Proof. field. Qed.

Lemma volume_round_trip_exact (p : Z) :
  midiValueToVolume (inject_Z (volumeToMidiValue (inject_Z p))) = p.
Proof.
  unfold midiValueToVolume, volumeToMidiValue.
  destruct (Math_round_bounds ((inject_Z p / 100) * 127)%Q) as [Hlo Hhi].
  set (m := Math_round ((inject_Z p / 100) * 127)%Q) in *.
  rewrite volumeToMidiValue_linear in Hlo, Hhi.
  apply Math_round_unique; rewrite midiValueToVolume_linear; lra.
Qed.

Lemma volume_round_trip_binary64 (p : Z) :
  0 <= p <= 100 ->
  exists v : Z,
    Binary64Units.volumeToMidiValue (Binary64.of_Z p) = Some v /\
    Binary64Units.midiValueToVolume (Binary64.of_Z v) = Some p.
Proof.
  intros Hp.
  assert (Hall : forallb
                   (fun q =>
                      match Binary64Units.volumeToMidiValue (Binary64.of_Z q) with
                      | Some v =>
                        match Binary64Units.midiValueToVolume (Binary64.of_Z v) with
                        | Some r => r =? q
                        | None => false
                        end
                      | None => false
                      end) (seqZ 0 101) = true) by (vm_compute; reflexivity).
  rewrite forallb_forall in Hall.
  specialize (Hall p ltac:(apply list_elem_of_In; apply elem_of_seqZ; lia)).
  destruct (Binary64Units.volumeToMidiValue (Binary64.of_Z p)) as [v |] eqn:Hv;
    [| discriminate].
  destruct (Binary64Units.midiValueToVolume (Binary64.of_Z v)) as [r |] eqn:Hr;
    [| discriminate].
  exists v. split; [reflexivity |]. rewrite Hr. f_equal. lia.
Qed.

(** X4. Volume.  Converting a whole percentage to a MIDI value and back
    returns the percentage (in exact arithmetic for every integer, on
    binary64 numbers for 0..100).  Percentages in 0..100 give MIDI values in
    0..127; volumeToMidiValue does not clamp, so a percentage of 101 or more
    gives a value of 128 or more.  The other direction loses information:
    MIDI value 2 is 2 percent, and 2 percent is MIDI value 3. *)
Theorem volume_round_trip :
  (forall p : Z, midiValueToVolume (inject_Z (volumeToMidiValue (inject_Z p))) = p) /\
  (forall p : Z, 0 <= p <= 100 ->
     exists v : Z,
       Binary64Units.volumeToMidiValue (Binary64.of_Z p) = Some v /\
       Binary64Units.midiValueToVolume (Binary64.of_Z v) = Some p) /\
  (forall p : Q, (0 <= p)%Q -> (p <= 100)%Q -> 0 <= volumeToMidiValue p <= 127) /\
  (forall p : Q, (101 <= p)%Q -> 128 <= volumeToMidiValue p) /\
  midiValueToVolume 2 = 2 /\ volumeToMidiValue 2 = 3.
Proof.
  split; [exact volume_round_trip_exact |].
  split; [exact volume_round_trip_binary64 |].
  split; [| split; [| split; vm_compute; reflexivity]].
  - intros p H0 H100. unfold volumeToMidiValue. split.
    + rewrite <- (Math_round_inject 0). apply Math_round_monotone.
      rewrite volumeToMidiValue_linear. change (inject_Z 0) with 0%Q. lra.
    + rewrite <- (Math_round_inject 127). apply Math_round_monotone.
      rewrite volumeToMidiValue_linear. change (inject_Z 127) with 127%Q. lra.
  - intros p Hp. unfold volumeToMidiValue.
    rewrite <- (Math_round_inject 128). apply Math_round_monotone.
    rewrite volumeToMidiValue_linear. change (inject_Z 128) with 128%Q. lra.
Qed.

Lemma volume_round_trip_witness :
  0 <= 75 <= 100 /\
  midiValueToVolume (inject_Z (volumeToMidiValue (inject_Z 75))) = 75 /\
  0 <= volumeToMidiValue 75 <= 127 /\
  128 <= volumeToMidiValue 150.
Proof.
  split; [lia |].
  split; [apply (proj1 volume_round_trip 75) |].
  split.
  - apply (proj1 (proj2 (proj2 volume_round_trip)) 75%Q); vm_compute; discriminate.
  - apply (proj1 (proj2 (proj2 (proj2 volume_round_trip))) 150%Q).
    vm_compute. discriminate.
Defined.

(** ** Pan *)

Lemma panToMidiValue_linear (p : Q) :
  (64 + (p / 50) * 63 == 64 + p * (63 # 50))%Q.
Proof. field. Qed.

Lemma midiValueToPan_linear (v : Q) :
  (((v - 64) / 63) * 50 == (v - 64) * (50 # 63))%Q.
Proof. field. Qed.

Lemma pan_round_trip_exact (p : Z) :
  midiValueToPan (inject_Z (panToMidiValue (inject_Z p))) = p.
Proof.
  unfold midiValueToPan, panToMidiValue.
  destruct (Math_round_bounds (64 + (inject_Z p / 50) * 63)%Q) as [Hlo Hhi].
  set (m := Math_round (64 + (inject_Z p / 50) * 63)%Q) in *.
  rewrite panToMidiValue_linear in Hlo, Hhi.
  apply Math_round_unique; rewrite midiValueToPan_linear; lra.
Qed.

Lemma pan_round_trip_binary64 (p : Z) :
  -50 <= p <= 50 ->
  exists v : Z,
    Binary64Units.panToMidiValue (Binary64Units.of_Z p) = Some v /\
    Binary64Units.midiValueToPan (Binary64Units.of_Z v) = Some p.
Proof.
  intros Hp.
  assert (Hall : forallb
                   (fun q =>
                      match Binary64Units.panToMidiValue (Binary64Units.of_Z q) with
                      | Some v =>
                        match Binary64Units.midiValueToPan (Binary64Units.of_Z v) with
                        | Some r => r =? q
                        | None => false
                        end
                      | None => false
                      end) (seqZ (-50) 101) = true) by (vm_compute; reflexivity).
  rewrite forallb_forall in Hall.
  specialize (Hall p ltac:(apply list_elem_of_In; apply elem_of_seqZ; lia)).
  destruct (Binary64Units.panToMidiValue (Binary64Units.of_Z p)) as [v |] eqn:Hv;
    [| discriminate].
  destruct (Binary64Units.midiValueToPan (Binary64Units.of_Z v)) as [r |] eqn:Hr;
    [| discriminate].
  exists v. split; [reflexivity |]. rewrite Hr. f_equal. lia.
Qed.

(** X5. Pan.  Converting a whole pan position to a MIDI value and back
    returns the position (in exact arithmetic for every integer, on binary64
    numbers for -50..50).  Positions in -50..50 give MIDI values in 1..127,
    with 0 at 64: MIDI value 0 is never produced.  MIDI values 1..127 give
    positions in -50..50, but MIDI value 0 gives -51, outside the range. *)
Theorem pan_round_trip :
  (forall p : Z, midiValueToPan (inject_Z (panToMidiValue (inject_Z p))) = p) /\
  (forall p : Z, -50 <= p <= 50 ->
     exists v : Z,
       Binary64Units.panToMidiValue (Binary64Units.of_Z p) = Some v /\
       Binary64Units.midiValueToPan (Binary64Units.of_Z v) = Some p) /\
  (forall p : Q, (-50 <= p)%Q -> (p <= 50)%Q -> 1 <= panToMidiValue p <= 127) /\
  panToMidiValue 0 = 64 /\
  (forall v : Q, (1 <= v)%Q -> (v <= 127)%Q -> -50 <= midiValueToPan v <= 50) /\
  midiValueToPan 0 = -51.
Proof.
  split; [exact pan_round_trip_exact |].
  split; [exact pan_round_trip_binary64 |].
  split; [| split; [vm_compute; reflexivity | split; [| vm_compute; reflexivity]]].
  - intros p Hlo Hhi. unfold panToMidiValue. split.
    + rewrite <- (Math_round_inject 1). apply Math_round_monotone.
      rewrite panToMidiValue_linear. change (inject_Z 1) with 1%Q. lra.
    + rewrite <- (Math_round_inject 127). apply Math_round_monotone.
      rewrite panToMidiValue_linear. change (inject_Z 127) with 127%Q. lra.
  - intros v Hlo Hhi. unfold midiValueToPan. split.
    + rewrite <- (Math_round_inject (-50)). apply Math_round_monotone.
      rewrite midiValueToPan_linear. change (inject_Z (-50)) with (-50)%Q. lra.
    + rewrite <- (Math_round_inject 50). apply Math_round_monotone.
      rewrite midiValueToPan_linear. change (inject_Z 50) with 50%Q. lra.
Qed.

Lemma pan_round_trip_witness :
  -50 <= -50 <= 50 /\
  midiValueToPan (inject_Z (panToMidiValue (inject_Z (-50)))) = -50 /\
  1 <= panToMidiValue (-50) <= 127 /\
  -50 <= midiValueToPan 1 <= 50.
Proof.
  split; [lia |].
  split; [apply (proj1 pan_round_trip (-50)) |].
  split.
  - apply (proj1 (proj2 (proj2 pan_round_trip)) (-50)%Q); vm_compute; discriminate.
  - apply (proj1 (proj2 (proj2 (proj2 (proj2 pan_round_trip)))) 1%Q);
      vm_compute; discriminate.
Defined.

End UnitsSpec.

(* ====================================================================== *)
(** * Properties of the validators, the tempo message and the tempo listener *)
(* ====================================================================== *)

Module TempoSpec.
Import Js JsFacts Conversions Units UnitsSpec.

Lemma isValidMidiValue_integer (z : Z) :
  0 <= z <= 127 -> isValidMidiValue (inject_Z z) = true.
Proof.
  intros Hz. unfold isValidMidiValue, Number_isInteger.
  rewrite Qfloor_Z. rewrite !andb_true_iff. repeat split.
  - apply Qeq_bool_iff. reflexivity.
  - apply Qle_bool_iff. Q_to_Z.
  - apply Qle_bool_iff. Q_to_Z.
Qed.

Lemma isValidMidiValue_spec (x : Q) :
  isValidMidiValue x = true <->
  exists z : Z, 0 <= z <= 127 /\ (x == inject_Z z)%Q.
Proof.
  split.
  - unfold isValidMidiValue, Number_isInteger. rewrite !andb_true_iff.
    intros [[Hint H0] H127].
    apply Qeq_bool_iff in Hint. apply Qle_bool_iff in H0, H127.
    exists (Qfloor x). split; [| symmetry; exact Hint].
    rewrite <- Hint in H0, H127. clear Hint. Q_to_Z.
  - intros (z & Hz & Hx).
    pose proof (isValidMidiValue_integer z Hz) as Hv.
    unfold isValidMidiValue, Number_isInteger in *.
    rewrite !andb_true_iff in *. destruct Hv as [[Hint H0] H127].
    apply Qle_bool_iff in H0, H127.
    rewrite (Qfloor_comp _ _ Hx), Qfloor_Z. repeat split.
    + apply Qeq_bool_iff. symmetry. exact Hx.
    + apply Qle_bool_iff. rewrite Hx. exact H0.
    + apply Qle_bool_iff. rewrite Hx. exact H127.
Qed.

(** Clamping to a MIDI value.  clampMidiValue always returns a value
    that isValidMidiValue accepts, returns a valid value unchanged, and is
    monotone; isValidMidiValue accepts exactly the integers 0..127. *)
Theorem clampMidiValue_valid :
  (forall x : Q, isValidMidiValue (inject_Z (clampMidiValue x)) = true) /\
  (forall x : Q, isValidMidiValue x = true ->
     (inject_Z (clampMidiValue x) == x)%Q) /\
  (forall x y : Q, (x <= y)%Q -> clampMidiValue x <= clampMidiValue y) /\
  (forall x : Q, isValidMidiValue x = true <->
     exists z : Z, 0 <= z <= 127 /\ (x == inject_Z z)%Q).
Proof.
  split; [| split; [| split]].
  - intros x. apply isValidMidiValue_integer. unfold clampMidiValue. lia.
  - intros x Hx. apply isValidMidiValue_spec in Hx as (z & Hz & Hx).
    unfold clampMidiValue. rewrite (Math_round_integer z x Hx).
    rewrite Hx. replace (Z.max 0 (Z.min 127 z)) with z by lia. reflexivity.
  - intros x y Hxy. unfold clampMidiValue.
    pose proof (Math_round_monotone x y Hxy). lia.
  - exact isValidMidiValue_spec.
Qed.

Lemma clampMidiValue_valid_witness :
  isValidMidiValue 64 = true /\ (inject_Z (clampMidiValue 64) == 64)%Q /\
  clampMidiValue (-3) <= clampMidiValue 300.
Proof.
  split; [reflexivity |]. split.
  - apply (proj1 (proj2 clampMidiValue_valid) 64%Q). reflexivity.
  - apply (proj1 (proj2 (proj2 clampMidiValue_valid)) (-3)%Q 300%Q).
    vm_compute. discriminate.
Defined.

(** ** The tempo message *)

Lemma bpm_scaled (c : Q) :
  (((c - 40) / (240 - 40)) * 127 == (c - 40) * (127 # 200))%Q.
Proof. field. Qed.

Lemma clamped_bpm_bounds (b : Q) :
  (40 <= Qmax 40 (Qmin 240 b))%Q /\ (Qmax 40 (Qmin 240 b) <= 240)%Q.
Proof.
  split.
  - apply Q.le_max_l.
  - apply Q.max_lub; [discriminate | apply Q.le_min_l].
Qed.

Lemma clamped_bpm_monotone (b1 b2 : Q) :
  (b1 <= b2)%Q -> (Qmax 40 (Qmin 240 b1) <= Qmax 40 (Qmin 240 b2))%Q.
Proof.
  intros H. apply Q.max_le_compat_l. apply Q.min_le_compat_l. exact H.
Qed.

(** X6. Tempo to MIDI.  bpmToMidiValue returns a value in 0..127 for every
    tempo, is monotone, and saturates: every tempo up to 40 gives 0 and
    every tempo from 240 on gives 127. *)
Theorem bpmToMidiValue_monotone_in_range :
  (forall b : Q, 0 <= bpmToMidiValue b <= 127) /\
  (forall b1 b2 : Q, (b1 <= b2)%Q -> bpmToMidiValue b1 <= bpmToMidiValue b2) /\
  (forall b : Q, (b <= 40)%Q -> bpmToMidiValue b = 0) /\
  (forall b : Q, (240 <= b)%Q -> bpmToMidiValue b = 127).
Proof.
  split; [| split; [| split]].
  - intros b. unfold bpmToMidiValue. cbv zeta.
    destruct (clamped_bpm_bounds b) as [Hlo Hhi]. split.
    + rewrite <- (Math_round_inject 0). apply Math_round_monotone.
      rewrite bpm_scaled. change (inject_Z 0) with 0%Q. lra.
    + rewrite <- (Math_round_inject 127) at 2. apply Math_round_monotone.
      rewrite bpm_scaled. change (inject_Z 127) with 127%Q. lra.
  - intros b1 b2 Hb. unfold bpmToMidiValue. cbv zeta.
    apply Math_round_monotone. rewrite !bpm_scaled.
    pose proof (clamped_bpm_monotone b1 b2 Hb). lra.
  - intros b Hb. unfold bpmToMidiValue. cbv zeta.
    apply Math_round_integer. rewrite bpm_scaled.
    assert (Hc : (Qmax 40 (Qmin 240 b) == 40)%Q).
    { apply Q.max_l. apply Qle_trans with b; [apply Q.le_min_r | exact Hb]. }
    rewrite Hc. reflexivity.
  - intros b Hb. unfold bpmToMidiValue. cbv zeta.
    apply Math_round_integer. rewrite bpm_scaled.
    assert (Hc : (Qmax 40 (Qmin 240 b) == 240)%Q).
    { rewrite (Q.min_l 240 b Hb). apply Q.max_r. discriminate. }
    rewrite Hc. reflexivity.
Qed.

Lemma bpmToMidiValue_monotone_in_range_witness :
  bpmToMidiValue 100 <= bpmToMidiValue 180 /\
  bpmToMidiValue 20 = 0 /\ bpmToMidiValue 300 = 127.
Proof.
  destruct bpmToMidiValue_monotone_in_range as (_ & Hmono & Hlow & Hhigh).
  split; [apply Hmono; vm_compute; discriminate |].
  split; [apply Hlow | apply Hhigh]; vm_compute; discriminate.
Defined.

(** ** The tempo listener of the coordinator *)

Lemma setBpm_effect (b : Q) (c : Clock.ClockEngine) :
  bpm (Clock.state (Clock.setBpm b c)) = Qmax 20 (Qmin 300 b) /\
  currentBar (Clock.state (Clock.setBpm b c)) = currentBar (Clock.state c) /\
  currentBeat (Clock.state (Clock.setBpm b c)) = currentBeat (Clock.state c) /\
  Clock.tickCount (Clock.setBpm b c) = Clock.tickCount c /\
  isRunning (Clock.state (Clock.setBpm b c)) = isRunning (Clock.state c) /\
  source (Clock.state (Clock.setBpm b c)) = source (Clock.state c).
Proof.
  destruct c as [[run src b0 beat0 bar0 bpb pp ltt] iid tc lb lbar em].
  ClockSpec.clock_unfold. destruct run, src, iid; repeat split; reflexivity.
Qed.

(** X7. Tempo from the device.  While the source is MIDI, a control change
    80 on channel 1 with a value v in 0..127 sets the tempo of the clock to
    40 + v * 200 / 127, which lies in 40..240 and so is neither rejected by
    the listener nor clamped by the clock; the position, the running flag
    and the source of the clock are unchanged.  A value outside 0..127, any
    other controller or channel, or an internal source leaves the clock as
    it is. *)
Theorem tempo_listener_sets_bpm :
  (forall (v : Z) (c : Clock.ClockEngine),
     0 <= v <= 127 ->
     let c' := Playback.onMidiControlChange midi 80 v 1 c in
     (bpm (Clock.state c') == 40 + inject_Z v * (200 # 127))%Q /\
     (40 <= bpm (Clock.state c'))%Q /\ (bpm (Clock.state c') <= 240)%Q /\
     currentBar (Clock.state c') = currentBar (Clock.state c) /\
     currentBeat (Clock.state c') = currentBeat (Clock.state c) /\
     Clock.tickCount c' = Clock.tickCount c /\
     isRunning (Clock.state c') = isRunning (Clock.state c) /\
     source (Clock.state c') = source (Clock.state c)) /\
  (forall (v : Z) (c : Clock.ClockEngine),
     v < 0 \/ 127 < v -> Playback.onMidiControlChange midi 80 v 1 c = c) /\
  (forall (src : ClockSource) (ccNumber v channel : Z) (c : Clock.ClockEngine),
     src = internal \/ ccNumber <> 80 \/ channel <> 1 ->
     Playback.onMidiControlChange src ccNumber v channel c = c).
Proof.
  split; [| split].
  - intros v c Hv c'. subst c'. unfold Playback.onMidiControlChange.
    cbn [Z.eqb Pos.eqb andb]. cbv zeta.
    destruct (ConversionsSpec.midiValueToBpm_range v Hv) as [Hlo Hhi].
    set (newBpm := midiValueToBpm (inject_Z v)) in *.
    assert (E1 : Qle_bool 40 newBpm = true) by (apply Qle_bool_iff; exact Hlo).
    assert (E2 : Qle_bool newBpm 240 = true) by (apply Qle_bool_iff; exact Hhi).
    rewrite E1, E2. cbn [negb orb].
    destruct (setBpm_effect newBpm c) as (Hb & Hrest). rewrite Hb.
    assert (Hc : (Qmax 20 (Qmin 300 newBpm) == newBpm)%Q)
      by (apply clampQ_inside; lra).
    split; [rewrite Hc; unfold newBpm; apply ConversionsSpec.midiValueToBpm_linear |].
    split; [rewrite Hc; exact Hlo |]. split; [rewrite Hc; exact Hhi |].
    exact Hrest.
  - intros v c Hv. unfold Playback.onMidiControlChange.
    cbn [Z.eqb Pos.eqb andb]. cbv zeta.
    pose proof (ConversionsSpec.midiValueToBpm_linear (inject_Z v)) as Hlin.
    set (newBpm := midiValueToBpm (inject_Z v)) in *.
    destruct Hv as [Hv | Hv].
    + assert (Hq : (inject_Z v <= -1)%Q) by (clear - Hv; Q_to_Z).
      destruct (Qle_bool 40 newBpm) eqn:E1; [| reflexivity].
      apply Qle_bool_iff in E1. lra.
    + assert (Hq : (128 <= inject_Z v)%Q) by (clear - Hv; Q_to_Z).
      destruct (Qle_bool newBpm 240) eqn:E2;
        [| rewrite orb_true_r; reflexivity].
      apply Qle_bool_iff in E2. lra.
  - intros src ccNumber v channel c Hcase. unfold Playback.onMidiControlChange.
    destruct src; [reflexivity |].
    destruct Hcase as [Hs | [Hcc | Hch]]; [discriminate | |].
    + apply Z.eqb_neq in Hcc. rewrite Hcc. reflexivity.
    + apply Z.eqb_neq in Hch. rewrite Hch, andb_false_r. reflexivity.
Qed.

Lemma tempo_listener_sets_bpm_witness :
  0 <= 51 <= 127 /\
  (bpm (Clock.state (Playback.onMidiControlChange midi 80 51 1 Clock.new))
     == 40 + inject_Z 51 * (200 # 127))%Q /\
  Playback.onMidiControlChange midi 80 128 1 Clock.new = Clock.new /\
  Playback.onMidiControlChange midi 81 51 1 Clock.new = Clock.new.
Proof.
  destruct tempo_listener_sets_bpm as (Hset & Hout & Hother).
  split; [lia |]. split; [| split].
  - apply (Hset 51 Clock.new). lia.
  - apply Hout. lia.
  - apply Hother. right. left. lia.
Defined.

End TempoSpec.

(* ====================================================================== *)
(** * Properties of the message constructors and of the dispatch *)
(* ====================================================================== *)

Module MidiUtilsSpec.
Import Js JsFacts JsMapFacts Units UnitsSpec MidiUtils.

Lemma midiToNormalized_scaled (v : Z) :
  0 <= v <= 127 -> (midiToNormalized (inject_Z v) * 127 == inject_Z v)%Q.
Proof.
  intros Hv. unfold midiToNormalized.
  assert (Hq : (inject_Z v / 127 == inject_Z v * (1 # 127))%Q) by field.
  assert (H0 : (0 <= inject_Z v)%Q) by (clear - Hv; Q_to_Z).
  assert (H1 : (inject_Z v <= 127)%Q) by (clear - Hv; Q_to_Z).
  rewrite (clampQ_inside 0 1 (inject_Z v / 127)) by (rewrite Hq; lra).
  field.
Qed.

(** X8. Normalized values.  normalizedToMidi returns a value in 0..127 for
    every input, midiToNormalized a value in 0..1, and MIDI value ->
    normalized -> MIDI value is the identity on 0..127. *)
Theorem normalized_round_trip :
  (forall v : Z, 0 <= v <= 127 ->
     normalizedToMidi (midiToNormalized (inject_Z v)) = v) /\
  (forall x : Q, 0 <= normalizedToMidi x <= 127) /\
  (forall v : Q, (0 <= midiToNormalized v)%Q /\ (midiToNormalized v <= 1)%Q).
Proof.
  split; [| split].
  - intros v Hv. unfold normalizedToMidi.
    rewrite (Math_round_integer v _ (midiToNormalized_scaled v Hv)). lia.
  - intros x. unfold normalizedToMidi. lia.
  - intros v. unfold midiToNormalized. split.
    + apply Q.le_max_l.
    + apply Q.max_lub; [discriminate | apply Q.le_min_l].
Qed.

Lemma normalized_round_trip_witness :
  0 <= 100 <= 127 /\ normalizedToMidi (midiToNormalized (inject_Z 100)) = 100.
Proof.
  split; [lia |]. apply (proj1 normalized_round_trip 100). lia.
Defined.

(** Constructors and dispatch.  What is sent for a message built by one
    of the constructors: a control change or a program change carries the
    value rounded and clamped to 0..127; a note message is a note-on only
    when it was built as on with a velocity above 0, otherwise a note-off
    (a note-on of velocity 0 is sent as a note-off); an NRPN message is the
    three control changes 99, 98, 6 in this order. *)
Theorem constructors_dispatch :
  (forall (ch c : Z) (x : Q),
     channelCalls (createCCMessage ch c x) = [sendControlChange c (clampMidiValue x)]) /\
  (forall (ch : Z) (x : Q),
     channelCalls (createPCMessage ch x) = [sendProgramChange (clampMidiValue x)]) /\
  (forall (ch n vel : Z) (on : bool),
     channelCalls (createNoteMessage ch n vel on) =
       if on && (0 <? vel) then [sendNoteOn n vel] else [sendNoteOff n vel]) /\
  (forall (ch msb lsb : Z) (x : Q),
     channelCalls (createNRPNMessage ch msb lsb x) =
       [sendControlChange 99 msb; sendControlChange 98 lsb;
        sendControlChange 6 (clampMidiValue x)]).
Proof.
  repeat split; try reflexivity.
  intros ch n vel on. unfold channelCalls, createNoteMessage.
  cbn [msg_type msg_note msg_velocity msg_value default].
  destruct on; cbn [andb].
  - rewrite Z.gtb_ltb. reflexivity.
  - reflexivity.
Qed.

Section Dispatch.
Variable hasChannel : Z -> bool.
Hypothesis channels_1_to_16 : forall n : Z, 1 <= n <= 16 -> hasChannel n = true.

Lemma registered_message_calls (p : string) (v : Z) (m : MIDIMessage) :
  Store.parameterToMidiMessage p v = Some m ->
  exists c : Z, 0 <= c <= 127 /\ 1 <= msg_channel m <= 16 /\
                msg_value m = v /\
                channelCalls m = [sendControlChange c v].
Proof.
  unfold Store.parameterToMidiMessage. intros Hm.
  destruct (JsMap.get (toUpperCase p) Store.allParams) as [d |] eqn:Hget;
    [| discriminate].
  assert (Hin : In d (JsMap.values Registry.getAllOpxyParameters)).
  { apply RegistrySpec.values_In. exists (toUpperCase p). apply get_In. exact Hget. }
  destruct (RegistrySpec.registry_entries_are_controllers d Hin)
    as (Ht & Hch & c & Hc & Hrange).
  injection Hm as <-. exists c.
  unfold channelCalls. cbn [msg_type msg_cc msg_value msg_channel].
  rewrite Ht, Hc. auto.
Qed.

(** X9. A registered parameter on the wire.  The message that the store
    encodes for a registered parameter and a value v is sent, on every
    output, as exactly one control change with the value v, on a channel in
    1..16 and a controller in 0..127; nothing is sent while the MIDI library
    is not enabled. *)
Theorem registered_parameter_is_one_control_change
        (p : string) (v : Z) (m : MIDIMessage)
        (outputs : list (list (Z * ChannelCall))) :
  Store.parameterToMidiMessage p v = Some m ->
  exists ch c : Z,
    1 <= ch <= 16 /\ 0 <= c <= 127 /\
    sendMidiMessage hasChannel true m outputs =
      map (fun output => output ++ [(ch, sendControlChange c v)]) outputs /\
    sendMidiMessage hasChannel false m outputs = outputs.
Proof.
  intros Hm.
  destruct (registered_message_calls p v m Hm) as (c & Hc & Hch & Hv & Hcalls).
  exists (msg_channel m), c. split; [exact Hch |]. split; [exact Hc |].
  split; [| reflexivity].
  unfold sendMidiMessage, sendToOutput. cbn [negb].
  rewrite (channels_1_to_16 _ Hch), Hcalls. reflexivity.
Qed.

End Dispatch.

Lemma registered_parameter_is_one_control_change_witness :
  exists ch c : Z,
    1 <= ch <= 16 /\ 0 <= c <= 127 /\
    sendMidiMessage (fun n => (1 <=? n) && (n <=? 16)) true Scenario.tempo64 [[]; []] =
      map (fun output => output ++ [(ch, sendControlChange c 64)]) [[]; []] /\
    sendMidiMessage (fun n => (1 <=? n) && (n <=? 16)) false Scenario.tempo64 [[]; []] =
      [[]; []].
Proof.
  apply (registered_parameter_is_one_control_change
           (fun n => (1 <=? n) && (n <=? 16))
           ltac:(intros n Hn; apply andb_true_iff; split; lia)
           "tempo" 64 Scenario.tempo64 [[]; []]).
  vm_compute. reflexivity.
Defined.

End MidiUtilsSpec.

(* ====================================================================== *)
(** * Properties of the listener table of the clock *)
(* ====================================================================== *)

Module ListenersSpec.
Import Listeners.






End ListenersSpec.

(* ====================================================================== *)
(** * Further properties of the clock *)
(* ====================================================================== *)

Module ClockTimingSpec.
Import Js JsFacts Clock ClockSpec.

(** ** The timer of the internal generator and the tempo *)

Lemma clamped_tempo (b : Q) :
  (20 <= Qmax 20 (Qmin 300 b))%Q /\ (Qmax 20 (Qmin 300 b) <= 300)%Q.
Proof.
  split.
  - apply Q.le_max_l.
  - apply Q.max_lub; [discriminate | apply Q.le_min_l].
Qed.

Lemma apply_tempo (o : Op) (c : ClockEngine) :
  (20 <= bpm (state c))%Q /\ (bpm (state c) <= 300)%Q ->
  (20 <= bpm (state (apply o c)))%Q /\ (bpm (state (apply o c)) <= 300)%Q.
Proof.
  destruct c as [[run src b beat0 bar0 bpb pp ltt] iid tc lb lbar em].
  clock_fields. intros H.
  destruct o; clock_unfold; clock_cases; try exact H; apply clamped_tempo.
Qed.

Lemma apply_timer (o : Op) (c : ClockEngine) :
  intervalId c =
    match isRunning (state c), source (state c) with
    | true, internal => Some (msPerBeat (state c) / inject_Z (ppqn (state c)))%Q
    | _, _ => None
    end ->
  intervalId (apply o c) =
    match isRunning (state (apply o c)), source (state (apply o c)) with
    | true, internal =>
      Some (msPerBeat (state (apply o c)) / inject_Z (ppqn (state (apply o c))))%Q
    | _, _ => None
    end.
Proof.
  destruct c as [[run src b beat0 bar0 bpb pp ltt] iid tc lb lbar em].
  unfold msPerBeat. clock_fields. intros ->.
  destruct o; try destruct src0; destruct run, src;
    clock_unfold; clock_cases; reflexivity.
Qed.

(** X11. The internal generator.  In every state reachable from the initial
    state by the clock operations the tempo lies in 20..300, and the
    interval timer of the internal generator is pending exactly when the
    clock is running on the internal source; its period is then the one
    computed from the current tempo, msPerBeat / ppqn (so a tempo change on
    a running internal clock re-paces the timer, and stopping or switching
    to the MIDI source leaves no timer behind). *)
Theorem internal_timer_follows_state (c : ClockEngine) :
  reachable c ->
  ((20 <= bpm (state c))%Q /\ (bpm (state c) <= 300)%Q) /\
  intervalId c =
    match isRunning (state c), source (state c) with
    | true, internal => Some (msPerBeat (state c) / inject_Z (ppqn (state c)))%Q
    | _, _ => None
    end.
Proof.
  induction 1 as [| o c Hc [IHt IHi]].
  - split; [split; discriminate | reflexivity].
  - split; [apply apply_tempo; exact IHt | apply apply_timer; exact IHi].
Qed.

Lemma internal_timer_follows_state_witness :
  let c := run [OpStart 0; OpSetBpm 1000] new in
  reachable c /\
  (bpm (state c) <= 300)%Q /\
  intervalId c = Some (msPerBeat (state c) / inject_Z (ppqn (state c)))%Q /\
  intervalId (setClockSource midi 5 c) = None.
Proof.
  intros c.
  assert (Hc : reachable c) by (unfold c; apply reachable_run; constructor).
  assert (Hc' : reachable (apply (OpSetClockSource midi 5) c))
    by (constructor; exact Hc).
  split; [exact Hc |].
  split; [exact (proj2 (proj1 (internal_timer_follows_state c Hc))) |].
  split.
  - exact (proj2 (internal_timer_follows_state c Hc)).
  - exact (proj2 (internal_timer_follows_state _ Hc')).
Defined.

(** ** Events *)

Lemma apply_lastBeat (o : Op) (c : ClockEngine) :
  lastBeat c = -1 \/ lastBeat c = currentBeat (state c) ->
  lastBeat (apply o c) = -1 \/ lastBeat (apply o c) = currentBeat (state (apply o c)).
Proof.
  destruct c as [[run src b beat0 bar0 bpb pp ltt] iid tc lb lbar em].
  clock_fields. intros H.
  destruct o; clock_unfold; clock_cases; try exact H; try lia.
Qed.

Lemma reachable_lastBeat (c : ClockEngine) :
  reachable c -> lastBeat c = -1 \/ lastBeat c = currentBeat (state c).
Proof.
  induction 1 as [| o c Hc IH].
  - left. reflexivity.
  - apply apply_lastBeat. exact IH.
Qed.

(** X12. The events of a tick.  On the MIDI source, in a reachable state,
    one ingested tick hands to the listeners: a tick event alone while the
    beat is not complete; a beat event and then the tick event when the tick
    completes a beat inside the bar; a bar event, then a beat event, then the
    tick event when it completes the bar.  All of them carry the position
    after the tick and the time of the tick.  Earlier events are kept. *)
Theorem tick_announces_new_position (now : Z) (c : ClockEngine) :
  reachable c ->
  source (state c) = midi ->
  let c' := processMidiClockTick now c in
  let here (ty : ClockEventType) :=
    mkClockEvent ty (currentBar (state c')) (currentBeat (state c')) now in
  emitted c' =
    emitted c ++
      (if tickCount c + 1 <? ppqn (state c) then [here ev_tick]
       else if currentBeat (state c) + 1 <? beatsPerBar (state c)
            then [here ev_beat; here ev_tick]
            else [here ev_bar; here ev_beat; here ev_tick]).
Proof.
  intros Hreach Hsrc.
  pose proof (reachable_lastBeat c Hreach) as Hlast.
  pose proof (reachable_position_ok c Hreach) as (Hbeat & Hbar & Htick).
  destruct (reachable_meter c Hreach) as [Em Ep].
  destruct c as [[run src b beat0 bar0 bpb pp ltt] iid tc lb lbar em].
  clock_fields. subst src bpb pp. cbv zeta. clock_unfold.
  destruct (tc + 1 <? 24) eqn:E1.
  - destruct (tc + 1 >=? 24) eqn:E2; [lia |]. clock_fields. reflexivity.
  - destruct (tc + 1 >=? 24) eqn:E2; [| lia].
    destruct (beat0 + 1 <? 4) eqn:E3.
    + destruct (beat0 + 1 >=? 4) eqn:E4; [lia |].
      destruct (lb =? beat0 + 1) eqn:E5; [lia |].
      clock_fields. rewrite <- app_assoc. reflexivity.
    + destruct (beat0 + 1 >=? 4) eqn:E4; [| lia].
      clock_fields.
      destruct (lb =? 0) eqn:E5; [lia |].
      clock_fields. rewrite <- !app_assoc. reflexivity.
Qed.

Lemma tick_announces_new_position_witness :
  let c := run (OpSetClockSource midi 0 :: map OpTick (seqZ 1 95)) new in
  emitted (processMidiClockTick 96 c) =
    emitted c ++ [mkClockEvent ev_bar 1 0 96; mkClockEvent ev_beat 1 0 96;
                  mkClockEvent ev_tick 1 0 96].
Proof.
  intros c.
  assert (Hc : reachable c) by (unfold c; apply reachable_run; constructor).
  assert (Hsrc : source (state c) = midi) by (vm_compute; reflexivity).
  pose proof (tick_announces_new_position 96 c Hc Hsrc) as H.
  cbv zeta in H. rewrite H. f_equal.
Defined.

(** What moves the position.  Start, Stop, Continue, a tempo change and
    a change of source leave the bar, the beat and the tick accumulator as
    they are; Reset and MIDI Start put them to 0.  None of these operations
    hands an event to the listeners: events come from ticks only. *)
Theorem transport_keeps_position (o : Op) (c : ClockEngine) :
  (forall now : Z, o <> OpTick now) ->
  emitted (apply o c) = emitted c /\
  match o with
  | OpReset | OpMidiStart _ =>
    currentBar (state (apply o c)) = 0 /\
    currentBeat (state (apply o c)) = 0 /\
    tickCount (apply o c) = 0
  | _ =>
    currentBar (state (apply o c)) = currentBar (state c) /\
    currentBeat (state (apply o c)) = currentBeat (state c) /\
    tickCount (apply o c) = tickCount c
  end.
Proof.
  intros Hnot.
  destruct c as [[run src b beat0 bar0 bpb pp ltt] iid tc lb lbar em].
  destruct o; try (exfalso; eapply Hnot; reflexivity);
    clock_unfold; clock_cases; auto.
Qed.

Lemma transport_keeps_position_witness :
  let c := run (OpSetClockSource midi 0 :: map OpTick (seqZ 1 30)) new in
  currentBeat (state c) = 1 /\ tickCount c = 6 /\
  currentBeat (state (setClockSource internal 40 c)) = 1 /\
  tickCount (setClockSource internal 40 c) = 6 /\
  emitted (setClockSource internal 40 c) = emitted c.
Proof.
  intros c.
  destruct (transport_keeps_position (OpSetClockSource internal 40) c)
    as (He & _ & Hb & Ht).
  - intros now. discriminate.
  - split; [vm_compute; reflexivity |]. split; [vm_compute; reflexivity |].
    split; [vm_compute; reflexivity |].
    split; [vm_compute; reflexivity | exact He].
Defined.

(** ** Time until a bar *)

Lemma bars_of_beats (n b : Z) (m : Q) :
  (inject_Z (n * b) * m == inject_Z n * (inject_Z b * m))%Q.
Proof. rewrite inject_Z_mult. ring. Qed.

(** X13. GetTimeUntilBar.  For a target bar that is not after the current
    bar the result is 0.  For a later target bar, n bars ahead, at a position
    with the beat in [0, beats_per_bar) and a positive tempo, the result is
    more than n - 1 bars and at most n bars of time, and exactly n bars when
    the position is at the start of its bar. *)
Theorem getTimeUntilBar_range (target : Z) (c : ClockEngine) :
  (0 < bpm (state c))%Q ->
  0 <= currentBeat (state c) < beatsPerBar (state c) ->
  (target <= currentBar (state c) -> getTimeUntilBar target c = 0%Q) /\
  (currentBar (state c) < target ->
     let n := target - currentBar (state c) in
     (inject_Z (n - 1) * period_ms bar (state c) < getTimeUntilBar target c)%Q /\
     (getTimeUntilBar target c <= inject_Z n * period_ms bar (state c))%Q /\
     (currentBeat (state c) = 0 ->
        (getTimeUntilBar target c == inject_Z n * period_ms bar (state c))%Q)).
Proof.
  intros Hbpm Hbeat.
  assert (Hm : (0 < msPerBeat (state c))%Q) by (apply msPerBeat_pos; exact Hbpm).
  unfold getTimeUntilBar, period_ms, period_beats. cbv zeta. split.
  - intros Hle. destruct (target <=? currentBar (state c)) eqn:E; [reflexivity | lia].
  - intros Hlt. destruct (target <=? currentBar (state c)) eqn:E; [lia |].
    set (n := target - currentBar (state c)).
    set (b := beatsPerBar (state c)) in *.
    set (k := currentBeat (state c)) in *.
    rewrite <- !bars_of_beats.
    destruct (scale_by_beat ((n - 1) * b) (n * b - k) (msPerBeat (state c)) Hm)
      as (_ & _ & Hlt1).
    destruct (scale_by_beat (n * b - k) (n * b) (msPerBeat (state c)) Hm)
      as (_ & Hle2 & _).
    split; [apply Hlt1; nia |]. split; [apply Hle2; lia |].
    intros Hk. rewrite Hk. rewrite Z.sub_0_r. reflexivity.
Qed.

Lemma getTimeUntilBar_range_witness :
  let c := with_state (set_currentBeat 2) new in
  (getTimeUntilBar 0 c = 0)%Q /\
  (inject_Z (2 - 1) * period_ms bar (state c) < getTimeUntilBar 2 c)%Q /\
  (getTimeUntilBar 2 c == 3000)%Q.
Proof.
  intros c.
  destruct (getTimeUntilBar_range 0 c) as (Hzero & _).
  - vm_compute. reflexivity.
  - vm_compute. split; [discriminate | reflexivity].
  - destruct (getTimeUntilBar_range 2 c) as (_ & Hlater).
    + vm_compute. reflexivity.
    + vm_compute. split; [discriminate | reflexivity].
    + split; [apply Hzero; vm_compute; discriminate |].
      split; [apply Hlater; vm_compute; reflexivity | vm_compute; reflexivity].
Defined.




End ClockTimingSpec.

(* ====================================================================== *)
(** * More facts about maps in insertion order *)
(* ====================================================================== *)

Module JsMapMore.
Section JsMapMore.
Context {V : Type}.
Implicit Types (k : string) (v : V) (m : list (string * V)).

Lemma set_fresh k v m :
  ~ In k (JsMap.keys m) -> JsMap.set k v m = m ++ [(k, v)].
Proof.
  induction m as [| [k' v'] r IH]; simpl; intros Hnotin.
  - reflexivity.
  - destruct (String.eqb_spec k' k) as [-> | Hne]; [tauto |].
    rewrite IH by tauto. reflexivity.
Qed.

Lemma get_app_fresh k m m' :
  JsMap.get k m = None -> JsMap.get k (m ++ m') = JsMap.get k m'.
Proof.
  induction m as [| [k' v'] r IH]; simpl; intros Hget.
  - reflexivity.
  - destruct (String.eqb k' k); [discriminate | exact (IH Hget)].
Qed.

Lemma get_app_present k v m m' :
  JsMap.get k m = Some v -> JsMap.get k (m ++ m') = Some v.
Proof.
  induction m as [| [k' v'] r IH]; simpl; intros Hget.
  - discriminate.
  - destruct (String.eqb k' k); [exact Hget | exact (IH Hget)].
Qed.

Lemma keys_get k m : In k (JsMap.keys m) -> exists v, JsMap.get k m = Some v.
Proof.
  induction m as [| [k' v'] r IH]; simpl; intros Hin.
  - contradiction.
  - destruct (String.eqb_spec k' k) as [-> | Hne]; [eauto |].
    apply IH. destruct Hin as [Heq | Hin]; [contradiction | exact Hin].
Qed.

Lemma get_keys k v m : JsMap.get k m = Some v -> In k (JsMap.keys m).
Proof.
  induction m as [| [k' v'] r IH]; simpl; intros Hget.
  - discriminate.
  - destruct (String.eqb_spec k' k) as [-> | Hne]; [left; reflexivity |].
    right. exact (IH Hget).
Qed.

Lemma delete_absent k m : JsMap.get k m = None -> JsMap.delete k m = m.
Proof.
  induction m as [| [k' v'] r IH]; simpl; intros Hget.
  - reflexivity.
  - destruct (String.eqb k' k); [discriminate |]. rewrite (IH Hget). reflexivity.
Qed.

Lemma get_delete_ne k k' m :
  k <> k' -> JsMap.get k' (JsMap.delete k m) = JsMap.get k' m.
Proof.
  intros Hne. induction m as [| [k0 v0] r IH]; simpl.
  - reflexivity.
  - destruct (String.eqb_spec k0 k) as [-> | Hk].
    + destruct (String.eqb_spec k k'); [contradiction | reflexivity].
    + simpl. rewrite IH. reflexivity.
Qed.

Lemma get_delete_eq k m :
  List.NoDup (JsMap.keys m) -> JsMap.get k (JsMap.delete k m) = None.
Proof.
  induction m as [| [k0 v0] r IH]; simpl; intros Hnd.
  - reflexivity.
  - apply List.NoDup_cons_iff in Hnd as [Hnotin Hnd].
    destruct (String.eqb_spec k0 k) as [-> | Hk].
    + apply JsMapFacts.get_None_keys. exact Hnotin.
    + simpl. destruct (String.eqb_spec k0 k); [contradiction | exact (IH Hnd)].
Qed.

Lemma values_app m m' : JsMap.values (m ++ m') = JsMap.values m ++ JsMap.values m'.
Proof. unfold JsMap.values. apply map_app. Qed.

Lemma keys_app m m' : JsMap.keys (m ++ m') = JsMap.keys m ++ JsMap.keys m'.
Proof. unfold JsMap.keys. apply map_app. Qed.

End JsMapMore.
End JsMapMore.

(* ====================================================================== *)
(** * Properties of the snapshot store *)
(* ====================================================================== *)

Module StoreSpec.
Import Js JsFacts JsMapFacts JsMapMore Store StoreOps.

Ltac store_fields :=
  cbn [snapshots currentValues set_snapshots set_currentValues fst snd
       with_parameters with_modifiedAt parameters modifiedAt] in *.

(** ** findIndex *)

Lemma findIndex_split (pid : string) (ps : list SnapshotParameter) :
  match findIndex pid ps with
  | Some i =>
    exists l1 p l2, ps = l1 ++ p :: l2 /\ length l1 = i /\ parameterId p = pid /\
                    ~ In pid (map parameterId l1)
  | None => ~ In pid (map parameterId ps)
  end.
Proof.
  induction ps as [| p r IH]; simpl.
  - tauto.
  - destruct (String.eqb_spec (parameterId p) pid) as [Heq | Hne].
    + exists [], p, r. simpl. auto.
    + destruct (findIndex pid r) as [i |]; simpl.
      * destruct IH as (l1 & q & l2 & -> & <- & Hq & Hnotin).
        exists (p :: l1), q, l2. simpl. repeat split; auto. tauto.
      * tauto.
Qed.

Lemma findIndex_middle (pid : string) (l1 l2 : list SnapshotParameter)
      (p : SnapshotParameter) :
  parameterId p = pid -> ~ In pid (map parameterId l1) ->
  findIndex pid (l1 ++ p :: l2) = Some (length l1).
Proof.
  intros Hp. induction l1 as [| q r IH]; simpl; intros Hnotin.
  - destruct (String.eqb_spec (parameterId p) pid); [reflexivity | contradiction].
  - destruct (String.eqb_spec (parameterId q) pid) as [Heq | Hne]; [tauto |].
    rewrite IH by tauto. reflexivity.
Qed.

Lemma findIndex_absent (pid : string) (ps : list SnapshotParameter) :
  ~ In pid (map parameterId ps) -> findIndex pid ps = None.
Proof.
  intros Hnotin. pose proof (findIndex_split pid ps) as H.
  destruct (findIndex pid ps) as [i |]; [| reflexivity].
  destruct H as (l1 & p & l2 & -> & _ & Hp & _).
  exfalso. apply Hnotin. rewrite map_app. apply in_or_app. right. left. exact Hp.
Qed.

(** ** Targets and messages of a snapshot *)

Lemma targets_append (ps : list SnapshotParameter) :
  forall acc : list (string * Z),
    List.NoDup (JsMap.keys acc ++ map parameterId ps) ->
    fold_left (fun targets param =>
                 if isEnabled param
                 then JsMap.set (parameterId param) (value param) targets
                 else targets) ps acc =
    acc ++ map (fun p => (parameterId p, value p)) (List.filter isEnabled ps).
Proof.
  induction ps as [| p r IH]; intros acc Hnd; simpl.
  - rewrite app_nil_r. reflexivity.
  - simpl in Hnd. destruct (isEnabled p).
    + assert (Hfresh : ~ In (parameterId p) (JsMap.keys acc)).
      { intros Hin. apply List.NoDup_remove_2 in Hnd. apply Hnd.
        apply in_or_app. left. exact Hin. }
      rewrite (set_fresh _ _ _ Hfresh). rewrite IH.
      * rewrite <- app_assoc. reflexivity.
      * rewrite keys_app. simpl. rewrite <- app_assoc. exact Hnd.
    + apply IH. exact (List.NoDup_remove_1 _ _ _ Hnd).
Qed.

Lemma parameterMessages_enabled (ps : list SnapshotParameter) :
  parameterMessages ps =
    flat_map (fun p => match parameterToMidiMessage (parameterId p) (value p) with
                       | Some m => [m]
                       | None => []
                       end)
             (List.filter isEnabled ps).
Proof.
  induction ps as [| p r IH]; simpl.
  - reflexivity.
  - destruct (isEnabled p); cbn [negb]; [| exact IH].
    simpl. destruct (parameterToMidiMessage (parameterId p) (value p));
      rewrite IH; reflexivity.
Qed.

(** X15. What a stored snapshot stands for.  For an unknown id there are no
    targets and no messages.  For a stored snapshot the messages are, in
    order, the encodings of its enabled parameters whose id is registered,
    followed by its one-shot messages; and when no parameter id occurs twice
    the targets are its enabled parameters, in order, with their values. *)
Theorem targets_are_enabled_parameters (sid : string) (e : SnapshotEngine) :
  (getSnapshot sid e = None ->
     getInterpolationTargets sid e = [] /\ getSnapshotMidiMessages sid e = []) /\
  (forall s : Snapshot,
     getSnapshot sid e = Some s ->
     getSnapshotMidiMessages sid e =
       flat_map (fun p => match parameterToMidiMessage (parameterId p) (value p) with
                          | Some m => [m]
                          | None => []
                          end)
                (List.filter isEnabled (parameters s))
         ++ default [] (oneShotMessages s) /\
     (List.NoDup (map parameterId (parameters s)) ->
        getInterpolationTargets sid e =
          map (fun p => (parameterId p, value p))
              (List.filter isEnabled (parameters s)))).
Proof.
  unfold getSnapshot, getInterpolationTargets, getSnapshotMidiMessages. split.
  - intros ->. auto.
  - intros s ->. split.
    + rewrite parameterMessages_enabled. destruct (oneShotMessages s); reflexivity.
    + intros Hnd. rewrite targets_append; [reflexivity | exact Hnd].
Qed.

Lemma targets_are_enabled_parameters_witness :
  let e := loadSnapshots [Scenario.volume100] Store.constructor in
  getSnapshot "volume-100" e = Some Scenario.volume100 /\
  getInterpolationTargets "volume-100" e = [("track_1_volume", 100)] /\
  getInterpolationTargets "unknown" e = [].
Proof.
  intros e.
  destruct (targets_are_enabled_parameters "volume-100" e) as (_ & Hknown).
  destruct (targets_are_enabled_parameters "unknown" e) as (Hunknown & _).
  split; [reflexivity |]. split.
  - rewrite (proj2 (Hknown Scenario.volume100 eq_refl)); [reflexivity |].
    simpl. constructor; [simpl; tauto | constructor].
  - apply Hunknown. reflexivity.
Defined.

(** ** Editing the parameters of a snapshot *)

Lemma NoDup_replace_middle (pid : string) (l1 l2 : list SnapshotParameter)
      (p q : SnapshotParameter) :
  parameterId p = pid -> parameterId q = pid ->
  map parameterId (l1 ++ q :: l2) = map parameterId (l1 ++ p :: l2).
Proof.
  intros Hp Hq. rewrite !map_app. simpl. rewrite Hp, Hq. reflexivity.
Qed.

(** X16. UpdateSnapshotParameter.  On an unknown snapshot it returns false
    and changes nothing.  On a stored snapshot it returns true, stamps the
    modification time, and puts the entry (id, value clamped to 0..127,
    enabled flag) in the place of the first parameter that has the id, or at
    the end when no parameter has it; the other parameters are kept, in
    order.  Parameter ids that were distinct stay distinct, and then the
    target of the id is the clamped value when the entry is enabled and
    absent when it is not. *)
Theorem updateSnapshotParameter_upserts
        (sid pid : string) (v : Z) (enabled : bool) (now : Z) (e : SnapshotEngine) :
  (getSnapshot sid e = None ->
     updateSnapshotParameter sid pid v enabled now e = (false, e)) /\
  (forall s : Snapshot,
     getSnapshot sid e = Some s ->
     let entry := {| parameterId := pid; value := Z.max 0 (Z.min 127 v);
                     isEnabled := enabled |} in
     let e' := snd (updateSnapshotParameter sid pid v enabled now e) in
     exists ps' : list SnapshotParameter,
       fst (updateSnapshotParameter sid pid v enabled now e) = true /\
       getSnapshot sid e' = Some (with_modifiedAt now (with_parameters ps' s)) /\
       (~ In pid (map parameterId (parameters s)) -> ps' = parameters s ++ [entry]) /\
       (In pid (map parameterId (parameters s)) ->
          exists l1 p l2,
            parameters s = l1 ++ p :: l2 /\ parameterId p = pid /\
            ~ In pid (map parameterId l1) /\ ps' = l1 ++ entry :: l2) /\
       (List.NoDup (map parameterId (parameters s)) ->
          List.NoDup (map parameterId ps') /\
          JsMap.get pid (getInterpolationTargets sid e') =
            if enabled then Some (Z.max 0 (Z.min 127 v)) else None)).
Proof.
  unfold getSnapshot. split.
  - intros Hget. unfold updateSnapshotParameter. rewrite Hget. reflexivity.
  - intros s Hget. cbv zeta.
    set (entry := {| parameterId := pid; value := Z.max 0 (Z.min 127 v);
                     isEnabled := enabled |}).
    unfold updateSnapshotParameter. rewrite Hget. fold entry.
    set (ps' := match findIndex pid (parameters s) with
                | Some existingIndex => <[existingIndex := entry]> (parameters s)
                | None => parameters s ++ [entry]
                end).
    exists ps'. store_fields.
    split; [reflexivity |]. split; [apply get_set_eq |].
    pose proof (findIndex_split pid (parameters s)) as Hsplit.
    assert (Hshape :
              (~ In pid (map parameterId (parameters s)) /\
               ps' = parameters s ++ [entry]) \/
              (exists l1 p l2,
                 parameters s = l1 ++ p :: l2 /\ parameterId p = pid /\
                 ~ In pid (map parameterId l1) /\ ps' = l1 ++ entry :: l2)).
    { subst ps'. destruct (findIndex pid (parameters s)) as [i |].
      - right. destruct Hsplit as (l1 & p & l2 & Hps & <- & Hp & Hnotin).
        exists l1, p, l2. repeat split; try assumption.
        rewrite Hps. rewrite <- (Nat.add_0_r (length l1)).
        rewrite insert_app_r. reflexivity.
      - left. split; [exact Hsplit | reflexivity]. }
    clearbody ps'.
    split; [| split].
    + intros Hnotin. destruct Hshape as [[_ H] | (l1 & p & l2 & Hps & Hp & _)];
        [exact H |].
      exfalso. apply Hnotin. rewrite Hps, map_app. apply in_or_app.
      right. left. exact Hp.
    + intros Hin. destruct Hshape as [[Hnotin _] | H]; [contradiction | exact H].
    + intros Hnd.
      assert (Hnd' : List.NoDup (map parameterId ps')).
      { destruct Hshape as [[Hnotin ->] | (l1 & p & l2 & Hps & Hp & _ & ->)].
        - rewrite map_app. simpl.
          apply NoDup_ListNoDup. apply NoDup_app. repeat split.
          + apply NoDup_ListNoDup. exact Hnd.
          + intros x Hx Hx'. apply list_elem_of_In in Hx.
            apply list_elem_of_In in Hx'. simpl in Hx'.
            destruct Hx' as [<- | []]. contradiction.
          + apply NoDup_ListNoDup. constructor; [simpl; tauto | constructor].
        - rewrite (NoDup_replace_middle pid l1 l2 p entry Hp eq_refl).
          rewrite <- Hps. exact Hnd. }
      split; [exact Hnd' |].
      unfold getInterpolationTargets. store_fields. rewrite get_set_eq. store_fields.
      assert (Hin : In entry ps').
      { destruct Hshape as [[_ ->] | (l1 & p & l2 & _ & _ & _ & ->)];
          apply in_or_app; right; left; reflexivity. }
      assert (Hcount : count_occ string_dec (map parameterId ps') pid = 1%nat).
      { apply (proj1 (List.NoDup_count_occ' string_dec _) Hnd').
        apply (in_map parameterId) in Hin. exact Hin. }
      destruct enabled.
      * apply (TransitionSpec.targets_unique pid _ ps' [] Hin Hcount).
      * rewrite targets_append by exact Hnd'. simpl.
        apply get_None_keys. unfold JsMap.keys. rewrite map_map. simpl.
        intros Hk. apply in_map_iff in Hk as (q & Hq & Hqin).
        apply filter_In in Hqin as [Hqin Hen].
        assert (q = entry).
        { apply (TransitionSpec.NoDup_map_injective parameterId ps');
            [apply NoDup_ListNoDup; exact Hnd' | exact Hqin | exact Hin | exact Hq]. }
        subst q. discriminate Hen.
Qed.

Lemma updateSnapshotParameter_upserts_witness :
  let e := loadSnapshots [Scenario.volume100] Store.constructor in
  let e' := snd (updateSnapshotParameter "volume-100" "track_1_volume" 300 true 9 e) in
  getSnapshot "volume-100" e = Some Scenario.volume100 /\
  JsMap.get "track_1_volume" (getInterpolationTargets "volume-100" e') = Some 127.
Proof.
  intros e e'. split; [reflexivity |].
  destruct (updateSnapshotParameter_upserts "volume-100" "track_1_volume" 300 true 9 e)
    as (_ & Hknown).
  destruct (Hknown Scenario.volume100 eq_refl) as (ps' & _ & _ & _ & _ & Hnd).
  apply Hnd. simpl. constructor; [simpl; tauto | constructor].
Defined.

Lemma alter_middle {A : Type} (f : A -> A) (l1 l2 : list A) (x : A) :
  alter f (length l1) (l1 ++ x :: l2) = l1 ++ f x :: l2.
Proof.
  rewrite <- (Nat.add_0_r (length l1)). rewrite alter_app_r. reflexivity.
Qed.

Lemma toggle_twice (p : SnapshotParameter) :
  {| parameterId := parameterId p; value := value p;
     isEnabled := negb (negb (isEnabled p)) |} = p.
Proof. destruct p as [i v b]. simpl. rewrite negb_involutive. reflexivity. Qed.

(** X17. Removing and toggling a parameter.  Both return false and change
    nothing when the snapshot is unknown or has no parameter with the id.
    Removing a parameter right after it was added to a snapshot that did not
    have it, and toggling a parameter twice, give back the parameter list of
    the snapshot; only the modification time differs. *)
Theorem parameter_edits_round_trip (sid pid : string) (e : SnapshotEngine) :
  (forall now : Z,
     getSnapshot sid e = None ->
     removeSnapshotParameter sid pid now e = (false, e) /\
     toggleParameterEnabled sid pid now e = (false, e)) /\
  (forall (s : Snapshot) (now : Z),
     getSnapshot sid e = Some s ->
     ~ In pid (map parameterId (parameters s)) ->
     removeSnapshotParameter sid pid now e = (false, e) /\
     toggleParameterEnabled sid pid now e = (false, e)) /\
  (forall (s : Snapshot) (v : Z) (enabled : bool) (now1 now2 : Z),
     getSnapshot sid e = Some s ->
     ~ In pid (map parameterId (parameters s)) ->
     removeSnapshotParameter sid pid now2
       (snd (updateSnapshotParameter sid pid v enabled now1 e)) =
       (true, set_snapshots (JsMap.set sid (with_modifiedAt now2 s) (snapshots e)) e)) /\
  (forall (s : Snapshot) (now1 now2 : Z),
     getSnapshot sid e = Some s ->
     In pid (map parameterId (parameters s)) ->
     toggleParameterEnabled sid pid now2
       (snd (toggleParameterEnabled sid pid now1 e)) =
       (true, set_snapshots (JsMap.set sid (with_modifiedAt now2 s) (snapshots e)) e)).
Proof.
  unfold getSnapshot. split; [| split; [| split]].
  - intros now Hget. unfold removeSnapshotParameter, toggleParameterEnabled.
    rewrite Hget. auto.
  - intros s now Hget Hnotin. unfold removeSnapshotParameter, toggleParameterEnabled.
    rewrite Hget, (findIndex_absent _ _ Hnotin). auto.
  - intros s v enabled now1 now2 Hget Hnotin.
    unfold updateSnapshotParameter. rewrite Hget, (findIndex_absent _ _ Hnotin).
    store_fields. unfold removeSnapshotParameter. store_fields.
    rewrite get_set_eq. store_fields.
    rewrite (findIndex_middle pid (parameters s) []
               {| parameterId := pid; value := Z.max 0 (Z.min 127 v);
                  isEnabled := enabled |} eq_refl Hnotin).
    rewrite delete_middle, app_nil_r, set_set_eq.
    destruct s; reflexivity.
  - intros s now1 now2 Hget Hin.
    pose proof (findIndex_split pid (parameters s)) as Hsplit.
    destruct (findIndex pid (parameters s)) as [i |] eqn:Hfind; [| contradiction].
    destruct Hsplit as (l1 & p & l2 & Hps & <- & Hp & Hnotin).
    unfold toggleParameterEnabled at 2. rewrite Hget, Hfind. store_fields.
    unfold toggleParameterEnabled. store_fields. rewrite get_set_eq. store_fields.
    rewrite Hps, alter_middle.
    rewrite findIndex_middle; [| exact Hp | exact Hnotin].
    rewrite alter_middle. cbn [parameterId value isEnabled].
    rewrite toggle_twice, set_set_eq, <- Hps.
    destruct s; reflexivity.
Qed.

Lemma parameter_edits_round_trip_witness :
  let e := loadSnapshots [Scenario.volume100] Store.constructor in
  getSnapshot "volume-100" e = Some Scenario.volume100 /\
  toggleParameterEnabled "volume-100" "track_1_volume" 2
    (snd (toggleParameterEnabled "volume-100" "track_1_volume" 1 e)) =
    (true, set_snapshots
             (JsMap.set "volume-100" (with_modifiedAt 2 Scenario.volume100) (snapshots e))
             e) /\
  removeSnapshotParameter "volume-100" "tempo" 2
    (snd (updateSnapshotParameter "volume-100" "tempo" 64 true 1 e)) =
    (true, set_snapshots
             (JsMap.set "volume-100" (with_modifiedAt 2 Scenario.volume100) (snapshots e))
             e).
Proof.
  intros e.
  destruct (parameter_edits_round_trip "volume-100" "track_1_volume" e)
    as (_ & _ & _ & Htoggle).
  destruct (parameter_edits_round_trip "volume-100" "tempo" e)
    as (_ & _ & Hremove & _).
  split; [reflexivity |]. split.
  - apply Htoggle; [reflexivity | simpl; tauto].
  - apply Hremove; [reflexivity |]. simpl. intros [H | []]. discriminate H.
Defined.

End StoreSpec.

(* ====================================================================== *)
(** * Properties of the shadow of current values *)
(* ====================================================================== *)

Module ShadowSpec.
Import Js JsFacts JsMapFacts JsMapMore Store StoreOps.

Lemma defaults_keys_NoDup :
  List.NoDup (JsMap.keys (currentValues Store.constructor)).
Proof.
  apply NoDup_ListNoDup. apply (bool_decide_unpack _). vm_compute. exact I.
Qed.

Lemma defaults_of_registry :
  forallb (fun d => match JsMap.get (param_id d) (currentValues Store.constructor) with
                    | Some v => (v =? defaultValue d) && (0 <=? v) && (v <=? 127)
                    | None => false
                    end)
          (JsMap.values allParams) = true.
Proof. vm_compute. reflexivity. Qed.

Lemma defaults_in_range :
  forallb (fun kv => (0 <=? snd kv) && (snd kv <=? 127))
          (currentValues Store.constructor) = true.
Proof. vm_compute. reflexivity. Qed.

Lemma initializeDefaultValues_constant (e : SnapshotEngine) :
  currentValues (initializeDefaultValues e) = currentValues Store.constructor.
Proof. reflexivity. Qed.

Lemma get_in_range (m : list (string * Z)) (k : string) (v : Z) :
  forallb (fun kv => (0 <=? snd kv) && (snd kv <=? 127)) m = true ->
  JsMap.get k m = Some v -> 0 <= v <= 127.
Proof.
  intros Hall Hget. apply get_In in Hget.
  rewrite forallb_forall in Hall. specialize (Hall _ Hget). simpl in Hall. lia.
Qed.

Lemma applyShadow_invariant (o : ShadowOp) (e : SnapshotEngine) :
  List.NoDup (JsMap.keys (currentValues e)) /\
  (forall pid v, getCurrentValue pid e = Some v -> 0 <= v <= 127) /\
  (forall d, In d (JsMap.values allParams) ->
             exists v, getCurrentValue (param_id d) e = Some v) ->
  List.NoDup (JsMap.keys (currentValues (applyShadow o e))) /\
  (forall pid v, getCurrentValue pid (applyShadow o e) = Some v -> 0 <= v <= 127) /\
  (forall d, In d (JsMap.values allParams) ->
             exists v, getCurrentValue (param_id d) (applyShadow o e) = Some v).
Proof.
  intros (Hnd & Hrange & Hreg). destruct o as [pid0 v0 |].
  - unfold applyShadow, updateCurrentValue, getCurrentValue, set_currentValues in *.
    cbn [currentValues] in *. split; [| split].
    + apply keys_set_NoDup. exact Hnd.
    + intros pid v. destruct (string_dec pid0 pid) as [-> | Hne].
      * rewrite get_set_eq. intros [= <-]. lia.
      * rewrite (get_set_ne _ _ _ _ Hne). apply Hrange.
    + intros d Hd. destruct (string_dec pid0 (param_id d)) as [-> | Hne].
      * rewrite get_set_eq. eauto.
      * rewrite (get_set_ne _ _ _ _ Hne). apply Hreg. exact Hd.
  - unfold applyShadow, resetCurrentValues, getCurrentValue.
    rewrite initializeDefaultValues_constant. split; [| split].
    + exact defaults_keys_NoDup.
    + intros pid v. apply get_in_range. exact defaults_in_range.
    + intros d Hd. pose proof defaults_of_registry as Hall.
      rewrite forallb_forall in Hall. specialize (Hall d Hd).
      destruct (JsMap.get (param_id d) (currentValues Store.constructor)) as [v |];
        [eauto | discriminate].
Qed.

(** X18. The shadow of current values.  Whatever sequence of value updates
    and resets is applied to a new store, every registered parameter has a
    current value, every current value lies in 0..127, and no parameter id
    has two entries.  An update makes the clamped value the current value of
    that id and leaves the other ids alone; a reset gives every registered
    parameter its default value. *)
Theorem shadow_invariant :
  (forall ops : list ShadowOp,
     let e := runShadow ops Store.constructor in
     List.NoDup (JsMap.keys (currentValues e)) /\
     (forall pid v, getCurrentValue pid e = Some v -> 0 <= v <= 127) /\
     (forall d, In d (JsMap.values allParams) ->
                exists v, getCurrentValue (param_id d) e = Some v)) /\
  (forall (pid pid' : string) (v : Z) (e : SnapshotEngine),
     getCurrentValue pid (updateCurrentValue pid v e) = Some (Z.max 0 (Z.min 127 v)) /\
     (pid' <> pid ->
        getCurrentValue pid' (updateCurrentValue pid v e) = getCurrentValue pid' e)) /\
  (forall (d : OpxyParameter) (e : SnapshotEngine),
     In d (JsMap.values allParams) ->
     getCurrentValue (param_id d) (resetCurrentValues e) = Some (defaultValue d)).
Proof.
  split; [| split].
  - intros ops. cbv zeta. unfold runShadow.
    assert (Hbase :
              List.NoDup (JsMap.keys (currentValues Store.constructor)) /\
              (forall pid v, getCurrentValue pid Store.constructor = Some v ->
                             0 <= v <= 127) /\
              (forall d, In d (JsMap.values allParams) ->
                         exists v, getCurrentValue (param_id d) Store.constructor = Some v)).
    { split; [exact defaults_keys_NoDup |]. split.
      - intros pid v. apply get_in_range. exact defaults_in_range.
      - intros d Hd. pose proof defaults_of_registry as Hall.
        rewrite forallb_forall in Hall. specialize (Hall d Hd).
        unfold getCurrentValue.
        destruct (JsMap.get (param_id d) (currentValues Store.constructor)) as [v |];
          [eauto | discriminate]. }
    revert Hbase. generalize Store.constructor.
    induction ops as [| o ops IH]; intros e Hinv; simpl.
    + exact Hinv.
    + apply IH. apply applyShadow_invariant. exact Hinv.
  - intros pid pid' v e.
    unfold getCurrentValue, updateCurrentValue, set_currentValues.
    cbn [currentValues]. split; [apply get_set_eq |].
    intros Hne. apply get_set_ne. congruence.
  - intros d e Hd. unfold resetCurrentValues, getCurrentValue.
    rewrite initializeDefaultValues_constant.
    pose proof defaults_of_registry as Hall.
    rewrite forallb_forall in Hall. specialize (Hall d Hd).
    destruct (JsMap.get (param_id d) (currentValues Store.constructor)) as [v |];
      [| discriminate].
    f_equal. lia.
Qed.

Lemma shadow_invariant_witness :
  let e := runShadow [OpUpdateCurrentValue "tempo" 500; OpUpdateCurrentValue "x" (-3)]
                     Store.constructor in
  getCurrentValue "tempo" e = Some 127 /\
  getCurrentValue "tempo" (resetCurrentValues e) = Some 64 /\
  (forall v, getCurrentValue "x" e = Some v -> 0 <= v <= 127).
Proof.
  intros e. destruct shadow_invariant as (Hinv & Hupd & Hreset).
  split; [vm_compute; reflexivity |]. split.
  - apply (Hreset {| param_id := "tempo"; param_name := "Tempo";
                     param_type := cc; param_channel := 1; param_cc := Some 80;
                     minValue := 0; maxValue := 127; defaultValue := 64;
                     description := "Master tempo control";
                     category := tempo |} e).
    vm_compute. tauto.
  - intros v. apply (Hinv [OpUpdateCurrentValue "tempo" 500; OpUpdateCurrentValue "x" (-3)]).
Defined.

(** ** Capturing the current values *)

Lemma capture_messages (cv : list (string * Z)) :
  parameterMessages
    (map (fun kv => {| parameterId := fst kv; value := snd kv; isEnabled := true |}) cv)
  = flat_map (fun kv => match parameterToMidiMessage (fst kv) (snd kv) with
                        | Some m => [m]
                        | None => []
                        end) cv.
Proof.
  induction cv as [| kv r IH]; simpl; [reflexivity |].
  destruct (parameterToMidiMessage (fst kv) (snd kv)); rewrite IH; reflexivity.
Qed.

Lemma capture_targets (cv : list (string * Z)) :
  List.NoDup (JsMap.keys cv) ->
  fold_left (fun targets param =>
               if isEnabled param
               then JsMap.set (parameterId param) (value param) targets
               else targets)
            (map (fun kv => {| parameterId := fst kv; value := snd kv;
                               isEnabled := true |}) cv) [] = cv.
Proof.
  intros Hnd. rewrite StoreSpec.targets_append.
  - simpl. clear Hnd. induction cv as [| [k v] r IH]; simpl; [reflexivity |].
    rewrite IH. reflexivity.
  - simpl. unfold JsMap.keys in Hnd. rewrite map_map. exact Hnd.
Qed.

(** X19. CaptureSnapshot.  The captured snapshot is stored under its id, at
    the given bank and slot, with one enabled parameter per current value,
    in the order of the shadow; the shadow itself is not changed.  Its
    messages are the encodings of the current values of the registered ids,
    and when no id has two current values (as in every store built from a
    new one) its targets are exactly the current values. *)
Theorem capture_records_shadow (bankNo slotNo : Z) (name : option string)
        (uuid : string) (now : Z) (e : SnapshotEngine) :
  let s := fst (captureSnapshot bankNo slotNo name uuid now e) in
  let e' := snd (captureSnapshot bankNo slotNo name uuid now e) in
  getSnapshot uuid e' = Some s /\
  (snapshot_id s = uuid /\ bank s = bankNo /\ slot s = slotNo /\
   createdAt s = now /\ modifiedAt s = now) /\
  parameters s =
    map (fun kv => {| parameterId := fst kv; value := snd kv; isEnabled := true |})
        (currentValues e) /\
  currentValues e' = currentValues e /\
  getSnapshotMidiMessages uuid e' =
    flat_map (fun kv => match parameterToMidiMessage (fst kv) (snd kv) with
                        | Some m => [m]
                        | None => []
                        end) (currentValues e) /\
  (List.NoDup (JsMap.keys (currentValues e)) ->
     getInterpolationTargets uuid e' = currentValues e).
Proof.
  cbv zeta. unfold captureSnapshot, createSnapshot.
  cbn [fst snd set_snapshots snapshots currentValues with_parameters snapshot_id
       bank slot createdAt modifiedAt parameters].
  unfold getSnapshot, getSnapshotMidiMessages, getInterpolationTargets.
  cbn [fst snd set_snapshots snapshots currentValues with_parameters snapshot_id
       bank slot createdAt modifiedAt parameters].
  rewrite !get_set_eq.
  cbn [parameters oneShotMessages snapshot_id bank slot createdAt modifiedAt].
  split; [reflexivity |]. split; [auto |]. split; [reflexivity |].
  split; [reflexivity |]. split.
  - rewrite app_nil_r. apply capture_messages.
  - apply capture_targets.
Qed.

Lemma capture_records_shadow_witness :
  let e := updateCurrentValue "tempo" 90 Store.constructor in
  let e' := snd (captureSnapshot 0 3 None "id-1" 7 e) in
  getInterpolationTargets "id-1" e' = currentValues e /\
  JsMap.get "tempo" (getInterpolationTargets "id-1" e') = Some 90 /\
  length (getSnapshotMidiMessages "id-1" e') = 54%nat.
Proof.
  intros e e'.
  destruct (capture_records_shadow 0 3 None "id-1" 7 e) as (_ & _ & _ & _ & _ & Ht).
  assert (Hnd : List.NoDup (JsMap.keys (currentValues e))).
  { apply NoDup_ListNoDup. apply (bool_decide_unpack _). vm_compute. exact I. }
  split; [exact (Ht Hnd) |]. split; vm_compute; reflexivity.
Defined.

End ShadowSpec.

(* ====================================================================== *)
(** * Properties of the grid of snapshots and of bulk operations *)
(* ====================================================================== *)

Module StoreLayoutSpec.
Import Js JsFacts JsMapFacts JsMapMore Store StoreOps.

Lemma find_app {A : Type} (f : A -> bool) (l1 l2 : list A) :
  List.find f (l1 ++ l2) =
    match List.find f l1 with
    | Some x => Some x
    | None => List.find f l2
    end.
Proof.
  induction l1 as [| a r IH]; simpl; [reflexivity |].
  destruct (f a); [reflexivity | exact IH].
Qed.

Lemma store_eta (e : SnapshotEngine) : set_snapshots (snapshots e) e = e.
Proof. destruct e; reflexivity. Qed.

(** ** Positions *)

Lemma isPositionOccupied_spec (bankNo slotNo : Z) (e : SnapshotEngine) :
  isPositionOccupied bankNo slotNo e = true <->
  exists s : Snapshot, In s (getAllSnapshots e) /\ bank s = bankNo /\ slot s = slotNo.
Proof.
  unfold isPositionOccupied, getSnapshotByPosition, getAllSnapshots.
  destruct (List.find _ (JsMap.values (snapshots e))) as [s |] eqn:Hfind.
  - apply find_some in Hfind as [Hin Hpos].
    split; [| reflexivity]. intros _. exists s. split; [exact Hin | lia].
  - split; [discriminate |]. intros (s & Hin & Hb & Hs).
    pose proof (find_none _ _ Hfind s Hin) as Hno. simpl in Hno. lia.
Qed.

Lemma firstFreeSlot_spec (bankNo : Z) (slots : list Z) (e : SnapshotEngine) :
  match firstFreeSlot bankNo slots e with
  | Some p =>
    exists l1 s l2, slots = l1 ++ s :: l2 /\ p = (bankNo, s) /\
                    isPositionOccupied bankNo s e = false /\
                    Forall (fun s' => isPositionOccupied bankNo s' e = true) l1
  | None => Forall (fun s' => isPositionOccupied bankNo s' e = true) slots
  end.
Proof.
  induction slots as [| s r IH]; simpl.
  - constructor.
  - destruct (isPositionOccupied bankNo s e) eqn:Hocc; cbn [negb].
    + destruct (firstFreeSlot bankNo r e) as [p |].
      * destruct IH as (l1 & s' & l2 & -> & -> & Hfree & Hall).
        exists (s :: l1), s', l2. repeat split; auto.
      * constructor; assumption.
    + exists [], s, r. repeat split; auto.
Qed.

Lemma firstFreeIn_spec (banks : list Z) (n : Z) (e : SnapshotEngine) :
  match firstFreeIn banks n e with
  | Some p =>
    exists l1 b l2, banks = l1 ++ b :: l2 /\
                    firstFreeSlot b (seqZ 0 n) e = Some p /\
                    Forall (fun b' => firstFreeSlot b' (seqZ 0 n) e = None) l1
  | None => Forall (fun b' => firstFreeSlot b' (seqZ 0 n) e = None) banks
  end.
Proof.
  induction banks as [| b r IH]; simpl.
  - constructor.
  - destruct (firstFreeSlot b (seqZ 0 n) e) as [p |] eqn:Hfirst.
    + exists [], b, r. repeat split; auto.
    + destruct (firstFreeIn r n e) as [p |].
      * destruct IH as (l1 & b' & l2 & -> & Hp & Hall).
        exists (b :: l1), b', l2. repeat split; auto.
      * constructor; assumption.
Qed.

Lemma seqZ_split (a n : Z) (l1 l2 : list Z) (x : Z) :
  seqZ a n = l1 ++ x :: l2 ->
  a <= x < a + n /\ (forall y : Z, a <= y < x -> In y l1).
Proof.
  intros Hsplit.
  assert (Hx : seqZ a n !! length l1 = Some x).
  { rewrite Hsplit. apply list_lookup_middle. reflexivity. }
  apply lookup_seqZ in Hx as [Hx Hn]. split; [lia |].
  intros y Hy.
  assert (Hin : y ∈ seqZ a n) by (apply elem_of_seqZ; lia).
  rewrite Hsplit in Hin. apply elem_of_app in Hin as [Hin | Hin].
  - apply list_elem_of_In. exact Hin.
  - apply elem_of_cons in Hin as [-> | Hin]; [lia |].
    apply list_elem_of_lookup in Hin as [j Hj].
    assert (Hy' : seqZ a n !! (length l1 + S j)%nat = Some y).
    { rewrite Hsplit. rewrite lookup_app_r by lia.
      replace (length l1 + S j - length l1)%nat with (S j) by lia. exact Hj. }
    apply lookup_seqZ in Hy' as [Hy' _]. lia.
Qed.

Lemma bank_full (bankNo n : Z) (e : SnapshotEngine) :
  firstFreeSlot bankNo (seqZ 0 n) e = None ->
  forall s' : Z, 0 <= s' < n -> isPositionOccupied bankNo s' e = true.
Proof.
  intros Hnone s' Hs'.
  pose proof (firstFreeSlot_spec bankNo (seqZ 0 n) e) as Hspec.
  rewrite Hnone in Hspec. rewrite Forall_forall in Hspec. apply Hspec.
  apply elem_of_seqZ. lia.
Qed.

Lemma emptyPositions_fold (bankNo : Z) (e : SnapshotEngine) (slots : list Z) :
  forall acc : list (Z * Z),
    fold_left (fun empty slotNo =>
                 if negb (isPositionOccupied bankNo slotNo e)
                 then empty ++ [(bankNo, slotNo)]
                 else empty) slots acc =
    acc ++ map (fun s => (bankNo, s))
               (List.filter (fun s => negb (isPositionOccupied bankNo s e)) slots).
Proof.
  induction slots as [| s r IH]; intros acc; simpl.
  - rewrite app_nil_r. reflexivity.
  - destruct (isPositionOccupied bankNo s e); cbn [negb].
    + apply IH.
    + rewrite IH. simpl. rewrite <- app_assoc. reflexivity.
Qed.

(** X20. Free positions.  A position is occupied exactly when some stored
    snapshot has that bank and slot.  getNextAvailablePosition returns the
    first position that is not occupied, going through the banks from
    startBank to totalBanks - 1 and through the slots 0 .. slotsPerBank - 1
    of each bank, and null only when all of these positions are occupied.
    getEmptyPositions lists the slots of a bank that are not occupied, in
    increasing order. *)
Theorem getNextAvailablePosition_first_free
        (startBank slotsPerBank totalBanks : Z) (e : SnapshotEngine) :
  match getNextAvailablePosition startBank slotsPerBank totalBanks e with
  | Some (b, s) =>
    startBank <= b < totalBanks /\ 0 <= s < slotsPerBank /\
    isPositionOccupied b s e = false /\
    (forall b' s' : Z,
       startBank <= b' -> 0 <= s' < slotsPerBank ->
       b' < b \/ (b' = b /\ s' < s) ->
       isPositionOccupied b' s' e = true)
  | None =>
    forall b' s' : Z,
      startBank <= b' < totalBanks -> 0 <= s' < slotsPerBank ->
      isPositionOccupied b' s' e = true
  end /\
  (forall bankNo : Z,
     getEmptyPositions bankNo slotsPerBank e =
       map (fun s => (bankNo, s))
           (List.filter (fun s => negb (isPositionOccupied bankNo s e))
                        (seqZ 0 slotsPerBank))) /\
  (forall bankNo slotNo : Z,
     isPositionOccupied bankNo slotNo e = true <->
     exists s : Snapshot,
       In s (getAllSnapshots e) /\ bank s = bankNo /\ slot s = slotNo).
Proof.
  split; [| split].
  - unfold getNextAvailablePosition.
    pose proof (firstFreeIn_spec (seqZ startBank (totalBanks - startBank))
                                 slotsPerBank e) as Hspec.
    destruct (firstFreeIn _ slotsPerBank e) as [[b s] |].
    + destruct Hspec as (l1 & b0 & l2 & Hbanks & Hslot & Hfull).
      apply seqZ_split in Hbanks as [Hb0 Hearlier].
      pose proof (firstFreeSlot_spec b0 (seqZ 0 slotsPerBank) e) as Hs.
      rewrite Hslot in Hs.
      destruct Hs as (k1 & s0 & k2 & Hslots & [= -> ->] & Hfree & Hocc).
      apply seqZ_split in Hslots as [Hs0 Hbefore].
      split; [lia |]. split; [lia |]. split; [exact Hfree |].
      intros b' s' Hb' Hs' [Hlt | [-> Hlt]].
      * rewrite Forall_forall in Hfull.
        apply (bank_full b' slotsPerBank e); [| exact Hs'].
        apply Hfull. apply list_elem_of_In. apply Hearlier. lia.
      * rewrite Forall_forall in Hocc. apply Hocc. apply list_elem_of_In.
        apply Hbefore. lia.
    + intros b' s' Hb' Hs'. rewrite Forall_forall in Hspec.
      apply (bank_full b' slotsPerBank e); [| exact Hs'].
      apply Hspec. apply elem_of_seqZ. lia.
  - intros bankNo. unfold getEmptyPositions. apply emptyPositions_fold.
  - intros bankNo slotNo. apply isPositionOccupied_spec.
Qed.

Lemma getNextAvailablePosition_first_free_witness :
  let e := snd (createSnapshot 0 1 None "b" 0
                  (snd (createSnapshot 0 0 None "a" 0 Store.constructor))) in
  getNextAvailablePosition 0 16 8 e = Some (0, 2) /\
  isPositionOccupied 0 2 e = false /\
  isPositionOccupied 0 1 e = true.
Proof.
  intros e.
  pose proof (proj1 (getNextAvailablePosition_first_free 0 16 8 e)) as H.
  assert (Hpos : getNextAvailablePosition 0 16 8 e = Some (0, 2))
    by (vm_compute; reflexivity).
  cbv beta in H. destruct H as (_ & _ & Hfree & Hocc).
  split; [exact Hpos |]. split; [exact Hfree |].
  apply Hocc; lia.
Defined.

(** ** Creating, deleting, loading *)

(** X21. CreateSnapshot does not claim its position.  With a fresh id the
    new, empty snapshot is stored after the snapshots already there and can
    be looked up by its id.  When its position was free the position now
    yields the new snapshot; when another snapshot already occupied the
    position, that one is kept and the position still yields it.  Other
    positions are not affected. *)
Theorem createSnapshot_keeps_occupant (bankNo slotNo : Z) (name : option string)
        (uuid : string) (now : Z) (e : SnapshotEngine) :
  getSnapshot uuid e = None ->
  let s := fst (createSnapshot bankNo slotNo name uuid now e) in
  let e' := snd (createSnapshot bankNo slotNo name uuid now e) in
  getSnapshot uuid e' = Some s /\
  parameters s = [] /\
  getAllSnapshots e' = getAllSnapshots e ++ [s] /\
  getSnapshotByPosition bankNo slotNo e' =
    match getSnapshotByPosition bankNo slotNo e with
    | Some occupant => Some occupant
    | None => Some s
    end /\
  (forall b' s' : Z,
     (b', s') <> (bankNo, slotNo) ->
     getSnapshotByPosition b' s' e' = getSnapshotByPosition b' s' e).
Proof.
  unfold getSnapshot. intros Hfresh. cbv zeta.
  unfold createSnapshot, getAllSnapshots, getSnapshotByPosition.
  cbn [fst snd set_snapshots snapshots parameters].
  assert (Hnotin : ~ In uuid (JsMap.keys (snapshots e))).
  { intros Hin. apply keys_get in Hin as [x Hx]. congruence. }
  rewrite (set_fresh _ _ _ Hnotin), values_app.
  split; [rewrite (get_app_fresh _ _ _ Hfresh); simpl; rewrite String.eqb_refl;
          reflexivity |].
  split; [reflexivity |]. split; [reflexivity |]. split.
  - rewrite find_app. cbn [JsMap.values map List.find bank slot snd].
    rewrite !Z.eqb_refl. reflexivity.
  - intros b' s' Hne. rewrite find_app. cbn [JsMap.values map List.find bank slot snd].
    destruct (Z.eqb_spec bankNo b') as [-> | Hb]; cbn [andb].
    + destruct (Z.eqb_spec slotNo s') as [-> | Hs]; [congruence |].
      match goal with
      | |- match ?x with _ => _ end = _ => destruct x; reflexivity
      end.
    + match goal with
      | |- match ?x with _ => _ end = _ => destruct x; reflexivity
      end.
Qed.

Lemma createSnapshot_keeps_occupant_witness :
  let e := snd (createSnapshot 0 0 (Some "first") "a" 0 Store.constructor) in
  let e' := snd (createSnapshot 0 0 (Some "second") "b" 1 e) in
  getSnapshot "b" e = None /\
  option_map snapshot_name (getSnapshotByPosition 0 0 e') = Some "first" /\
  length (getAllSnapshots e') = 2%nat.
Proof.
  intros e e'. split; [reflexivity |].
  destruct (createSnapshot_keeps_occupant 0 0 (Some "second") "b" 1 e eq_refl)
    as (_ & _ & Hall & Hpos & _).
  split.
  - unfold e'. rewrite Hpos. reflexivity.
  - unfold e'. rewrite Hall. reflexivity.
Defined.

Lemma load_get (l : list Snapshot) (id : string) :
  forall acc : list (string * Snapshot),
    JsMap.get id (fold_left (fun m snapshot => JsMap.set (snapshot_id snapshot) snapshot m)
                            l acc) =
    match List.find (fun s => String.eqb (snapshot_id s) id) (rev l) with
    | Some s => Some s
    | None => JsMap.get id acc
    end.
Proof.
  induction l as [| x r IH]; intros acc; simpl.
  - reflexivity.
  - rewrite IH, find_app. simpl.
    destruct (List.find _ (rev r)); [reflexivity |].
    destruct (String.eqb_spec (snapshot_id x) id) as [<- | Hne].
    + apply get_set_eq.
    + apply get_set_ne. exact Hne.
Qed.

Lemma load_append (l : list Snapshot) :
  forall acc : list (string * Snapshot),
    List.NoDup (JsMap.keys acc ++ map snapshot_id l) ->
    fold_left (fun m snapshot => JsMap.set (snapshot_id snapshot) snapshot m) l acc =
      acc ++ map (fun s => (snapshot_id s, s)) l.
Proof.
  induction l as [| x r IH]; intros acc Hnd; simpl.
  - rewrite app_nil_r. reflexivity.
  - simpl in Hnd.
    assert (Hfresh : ~ In (snapshot_id x) (JsMap.keys acc)).
    { intros Hin. apply List.NoDup_remove_2 in Hnd. apply Hnd.
      apply in_or_app. left. exact Hin. }
    rewrite (set_fresh _ _ _ Hfresh), IH.
    + rewrite <- app_assoc. reflexivity.
    + rewrite keys_app. simpl. rewrite <- app_assoc. exact Hnd.
Qed.

Lemma load_keys_NoDup (l : list Snapshot) :
  forall acc : list (string * Snapshot),
    List.NoDup (JsMap.keys acc) ->
    List.NoDup
      (JsMap.keys (fold_left (fun m snapshot => JsMap.set (snapshot_id snapshot) snapshot m)
                             l acc)).
Proof.
  induction l as [| x r IH]; intros acc Hnd; simpl.
  - exact Hnd.
  - apply IH. apply keys_set_NoDup. exact Hnd.
Qed.

(** X22. Loading and exporting.  loadSnapshots discards the snapshots that
    were stored and leaves the current values alone.  Afterwards a snapshot
    id yields the last snapshot of the loaded list that has this id, and no
    id is stored twice.  When the ids of the list are distinct,
    exportSnapshots returns the list that was loaded. *)
Theorem load_export_round_trip (l : list Snapshot) (e : SnapshotEngine) :
  currentValues (loadSnapshots l e) = currentValues e /\
  (forall id : string,
     getSnapshot id (loadSnapshots l e) =
       List.find (fun s => String.eqb (snapshot_id s) id) (rev l)) /\
  List.NoDup (JsMap.keys (snapshots (loadSnapshots l e))) /\
  (List.NoDup (map snapshot_id l) -> exportSnapshots (loadSnapshots l e) = l).
Proof.
  unfold loadSnapshots, exportSnapshots, getSnapshot.
  cbn [set_snapshots snapshots currentValues].
  split; [reflexivity |]. split; [| split].
  - intros id. rewrite load_get. simpl. destruct (List.find _ (rev l)); reflexivity.
  - apply load_keys_NoDup. constructor.
  - intros Hnd. rewrite load_append by exact Hnd. simpl.
    unfold JsMap.values. rewrite map_map. simpl. apply map_id.
Qed.

Lemma load_export_round_trip_witness :
  let l := [Scenario.volume100; Scenario.panLeft] in
  exportSnapshots (loadSnapshots l Store.constructor) = l.
Proof.
  intros l.
  apply (proj2 (proj2 (proj2 (load_export_round_trip l Store.constructor)))).
  apply NoDup_ListNoDup. apply (bool_decide_unpack _). vm_compute. exact I.
Defined.

(** DeleteSnapshot.  It returns whether the id was stored; deleting an
    id that is not stored changes nothing; after deleting, the id is not
    stored any more and every other id yields what it did; the current
    values are untouched.  Deleting a snapshot right after it was created
    under a fresh id gives back the store as it was. *)
Theorem deleteSnapshot_removes (id : string) (e : SnapshotEngine) :
  List.NoDup (JsMap.keys (snapshots e)) ->
  fst (deleteSnapshot id e) =
    match getSnapshot id e with Some _ => true | None => false end /\
  (getSnapshot id e = None -> snd (deleteSnapshot id e) = e) /\
  getSnapshot id (snd (deleteSnapshot id e)) = None /\
  (forall id' : string,
     id' <> id ->
     getSnapshot id' (snd (deleteSnapshot id e)) = getSnapshot id' e) /\
  currentValues (snd (deleteSnapshot id e)) = currentValues e /\
  (forall (bankNo slotNo : Z) (name : option string) (now : Z),
     getSnapshot id e = None ->
     snd (deleteSnapshot id (snd (createSnapshot bankNo slotNo name id now e))) = e).
Proof.
  intros Hnd. unfold deleteSnapshot, getSnapshot, JsMap.has.
  cbn [fst snd set_snapshots snapshots currentValues].
  split; [reflexivity |]. split; [| split; [| split; [| split]]].
  - intros Hget. rewrite (delete_absent _ _ Hget). destruct e; reflexivity.
  - apply get_delete_eq. exact Hnd.
  - intros id' Hne. apply get_delete_ne. congruence.
  - reflexivity.
  - intros bankNo slotNo name now Hget. unfold createSnapshot.
    cbn [fst snd set_snapshots snapshots currentValues].
    rewrite (delete_set_fresh _ _ _ Hget). destruct e; reflexivity.
Qed.

Lemma deleteSnapshot_removes_witness :
  let e := loadSnapshots [Scenario.volume100; Scenario.panLeft] Store.constructor in
  getSnapshot "volume-100" (snd (deleteSnapshot "volume-100" e)) = None /\
  getSnapshot "pan-left" (snd (deleteSnapshot "volume-100" e)) = Some Scenario.panLeft.
Proof.
  intros e.
  assert (Hnd : List.NoDup (JsMap.keys (snapshots e))).
  { apply NoDup_ListNoDup. apply (bool_decide_unpack _). vm_compute. exact I. }
  destruct (deleteSnapshot_removes "volume-100" e Hnd) as (_ & _ & Hgone & Hother & _).
  split; [exact Hgone |]. rewrite Hother; [reflexivity | discriminate].
Defined.

End StoreLayoutSpec.

(* ====================================================================== *)
(** * Properties of the store with shared parameter arrays *)
(* ====================================================================== *)

Module SharedStoreSpec.
Import Js JsFacts JsMapFacts JsMapMore SharedStore.

Ltac shared_fields :=
  cbn [snapshots arrays nextArray currentValues set_snapshots set_arrays
       fst snd obj_id obj_name obj_bank obj_slot obj_parameters
       obj_oneShotMessages obj_color obj_createdAt obj_modifiedAt
       with_parameters with_modifiedAt] in *.

(** ** Edits keep the arrays that the objects hold *)

Lemma editInPlace_get (sid : string) (o : SnapshotObject)
      (ps : list SnapshotParameter) (now : Z) (e : SnapshotEngine) (k : string) :
  JsMap.get sid (snapshots e) = Some o ->
  JsMap.get k (snapshots (editInPlace sid o ps now e)) =
    if String.eqb sid k then Some (with_modifiedAt now o)
    else JsMap.get k (snapshots e).
Proof.
  intros Hget. unfold editInPlace. shared_fields.
  destruct (String.eqb_spec sid k) as [-> | Hne].
  - apply get_set_eq.
  - apply get_set_ne. exact Hne.
Qed.

Lemma applyEdit_holds (ed : Edit) (e : SnapshotEngine) (k : string) (o : SnapshotObject) :
  JsMap.get k (snapshots e) = Some o ->
  exists o' : SnapshotObject,
    JsMap.get k (snapshots (applyEdit ed e)) = Some o' /\
    obj_parameters o' = obj_parameters o.
Proof.
  intros Hk.
  assert (Hedit : forall sid o0 ps now,
             JsMap.get sid (snapshots e) = Some o0 ->
             exists o' : SnapshotObject,
               JsMap.get k (snapshots (editInPlace sid o0 ps now e)) = Some o' /\
               obj_parameters o' = obj_parameters o).
  { intros sid o0 ps now Hsid. rewrite (editInPlace_get _ _ _ _ _ _ Hsid).
    destruct (String.eqb_spec sid k) as [-> | Hne].
    - exists (with_modifiedAt now o0). split; [reflexivity |].
      shared_fields. congruence.
    - exists o. auto. }
  destruct ed as [sid pid v enabled now | sid pid now | sid pid now];
    unfold applyEdit, updateSnapshotParameter, removeSnapshotParameter,
           toggleParameterEnabled;
    destruct (JsMap.get sid (snapshots e)) as [o0 |] eqn:Hsid;
    cbn [snd]; eauto;
    destruct (Store.findIndex pid (parametersOf o0 e)); cbn [snd]; eauto.
Qed.

Lemma runEdits_holds (eds : list Edit) :
  forall (e : SnapshotEngine) (k : string) (o : SnapshotObject),
    JsMap.get k (snapshots e) = Some o ->
    exists o' : SnapshotObject,
      JsMap.get k (snapshots (runEdits eds e)) = Some o' /\
      obj_parameters o' = obj_parameters o.
Proof.
  induction eds as [| ed r IH]; intros e k o Hk; simpl.
  - eauto.
  - destruct (applyEdit_holds ed e k o Hk) as (o1 & Hk1 & Ha1).
    destruct (IH _ k o1 Hk1) as (o2 & Hk2 & Ha2).
    exists o2. split; [exact Hk2 | congruence].
Qed.

(** X23. CopySnapshot shares the parameters.  The copy is a new snapshot
    object that holds the parameters array of the source.  Whatever edits of
    parameters in place follow (updateSnapshotParameter,
    removeSnapshotParameter, toggleParameterEnabled, on any snapshot), the
    source and the copy have the same parameters, hence the same targets.
    In particular a parameter added to the copy is added to the source,
    whose modification time is not touched. *)
Theorem copy_shares_parameters
        (sourceId uuid : string) (targetBank targetSlot now1 now2 : Z)
        (e : SnapshotEngine) (source : SnapshotObject) :
  JsMap.get sourceId (snapshots e) = Some source ->
  uuid <> sourceId ->
  let e1 := snd (copySnapshot sourceId targetBank targetSlot uuid now1 now2 e) in
  getSnapshot sourceId e1 = getSnapshot sourceId e /\
  (forall eds : list Edit,
     let e2 := runEdits eds e1 in
     exists s c : Snapshot,
       getSnapshot sourceId e2 = Some s /\ getSnapshot uuid e2 = Some c /\
       parameters c = parameters s /\
       getInterpolationTargets uuid e2 = getInterpolationTargets sourceId e2) /\
  (forall (pid : string) (v now : Z),
     ~ In pid (map parameterId (parametersOf source e)) ->
     let e2 := snd (updateSnapshotParameter uuid pid v true now e1) in
     exists s : Snapshot,
       getSnapshot sourceId e2 = Some s /\
       parameters s =
         parametersOf source e
           ++ [{| parameterId := pid; value := Z.max 0 (Z.min 127 v);
                  isEnabled := true |}] /\
       modifiedAt s = obj_modifiedAt source).
Proof.
  intros Hsrc Hne. cbv zeta.
  unfold copySnapshot. rewrite Hsrc. shared_fields.
  set (copy := {| obj_id := uuid; obj_name := obj_name source +:+ " (copy)";
                  obj_bank := targetBank; obj_slot := targetSlot;
                  obj_parameters := obj_parameters source;
                  obj_oneShotMessages := obj_oneShotMessages source;
                  obj_color := obj_color source;
                  obj_createdAt := now1; obj_modifiedAt := now2 |}).
  set (e1 := set_snapshots (JsMap.set uuid copy (snapshots e)) e).
  assert (Hsrc1 : JsMap.get sourceId (snapshots e1) = Some source).
  { unfold e1. shared_fields. rewrite get_set_ne by exact Hne. exact Hsrc. }
  assert (Hcopy1 : JsMap.get uuid (snapshots e1) = Some copy).
  { unfold e1. shared_fields. apply get_set_eq. }
  split; [| split].
  - unfold getSnapshot. rewrite Hsrc1, Hsrc. reflexivity.
  - intros eds.
    destruct (runEdits_holds eds e1 sourceId source Hsrc1) as (s' & Hs' & Has).
    destruct (runEdits_holds eds e1 uuid copy Hcopy1) as (c' & Hc' & Hac).
    exists (read (runEdits eds e1) s'), (read (runEdits eds e1) c').
    unfold getSnapshot, getInterpolationTargets. rewrite Hs', Hc'.
    assert (Hsame : parametersOf c' (runEdits eds e1) = parametersOf s' (runEdits eds e1)).
    { unfold parametersOf. rewrite Has, Hac. reflexivity. }
    cbn [option_map read parameters]. rewrite Hsame. auto.
  - intros pid v now Hnotin.
    unfold updateSnapshotParameter. rewrite Hcopy1.
    assert (Hps : parametersOf copy e1 = parametersOf source e) by reflexivity.
    rewrite Hps, (StoreSpec.findIndex_absent _ _ Hnotin). cbn [snd].
    exists (read (editInPlace uuid copy
                    (parametersOf source e
                       ++ [{| parameterId := pid; value := Z.max 0 (Z.min 127 v);
                              isEnabled := true |}]) now e1) source).
    unfold getSnapshot. rewrite (editInPlace_get _ _ _ _ _ _ Hcopy1).
    destruct (String.eqb_spec uuid sourceId) as [Heq | _]; [contradiction |].
    rewrite Hsrc1. split; [reflexivity |]. split; [| reflexivity].
    unfold read, parametersOf, editInPlace. shared_fields.
    cbn [parameters copy obj_parameters]. rewrite lookup_insert_eq. reflexivity.
Qed.

Lemma copy_shares_parameters_witness :
  let e := snd (createSnapshot 0 0 (Some "a") "src" 1 SharedStore.constructor) in
  let e1 := snd (copySnapshot "src" 0 1 "cpy" 2 2 e) in
  let e2 := snd (updateSnapshotParameter "cpy" "tempo" 90 true 3 e1) in
  getInterpolationTargets "src" e = [] /\
  getInterpolationTargets "src" e2 = [("tempo", 90)] /\
  option_map modifiedAt (getSnapshot "src" e2) = Some 1.
Proof.
  intros e e1 e2.
  assert (Hsrc : JsMap.get "src" (snapshots e) =
                 Some {| obj_id := "src"; obj_name := "a"; obj_bank := 0; obj_slot := 0;
                         obj_parameters := 0%nat; obj_oneShotMessages := Some [];
                         obj_color := None; obj_createdAt := 1; obj_modifiedAt := 1 |})
    by reflexivity.
  destruct (copy_shares_parameters "src" "cpy" 0 1 2 2 e _ Hsrc ltac:(discriminate))
    as (_ & _ & Hadd).
  destruct (Hadd "tempo" 90 3 ltac:(simpl; tauto)) as (s & Hs & Hps & Hmod).
  split; [reflexivity |]. split; [reflexivity |].
  fold e1 in Hs. fold e2 in Hs. rewrite Hs. simpl. rewrite Hmod. reflexivity.
Defined.

End SharedStoreSpec.

(* ====================================================================== *)
(** * The store by value is what the engine does while no array is shared *)
(* ====================================================================== *)

Module SharedStoreRefinement.
Import Js JsFacts JsMapFacts JsMapMore SharedStore SharedStoreSpec.

(** ** Lists of stored objects *)

Lemma in_set (k : string) (o : SnapshotObject) (m : list (string * SnapshotObject))
      (kv : string * SnapshotObject) :
  In kv (JsMap.set k o m) -> kv = (k, o) \/ In kv m.
Proof.
  induction m as [| [k1 o1] r IH]; simpl.
  - intros [<- | []]. left. reflexivity.
  - destruct (String.eqb_spec k1 k) as [-> | Hne]; simpl.
    + intros [<- | Hin]; [left; reflexivity | right; right; exact Hin].
    + intros [<- | Hin]; [right; left; reflexivity |].
      destruct (IH Hin) as [-> | Hr]; [left; reflexivity | right; right; exact Hr].
Qed.

Lemma in_addresses_set (k : string) (o : SnapshotObject)
      (m : list (string * SnapshotObject)) (a : nat) :
  In a (addresses (JsMap.set k o m)) -> a = obj_parameters o \/ In a (addresses m).
Proof.
  unfold addresses. intros Hin. apply in_map_iff in Hin as (kv & <- & Hkv).
  destruct (in_set _ _ _ _ Hkv) as [-> | Hm]; [left; reflexivity |].
  right. apply in_map_iff. exists kv. auto.
Qed.

Lemma addresses_set_fresh (k : string) (o : SnapshotObject)
      (m : list (string * SnapshotObject)) :
  List.NoDup (addresses m) ->
  ~ In (obj_parameters o) (addresses m) ->
  List.NoDup (addresses (JsMap.set k o m)).
Proof.
  induction m as [| [k1 o1] r IH]; simpl; intros Hnd Hfresh.
  - constructor; [simpl; tauto | constructor].
  - apply List.NoDup_cons_iff in Hnd as [Hnotin Hnd].
    destruct (String.eqb_spec k1 k) as [-> | Hne]; simpl.
    + constructor; [tauto | exact Hnd].
    + constructor.
      * intros Hin. apply in_addresses_set in Hin as [Heq | Hin]; [| contradiction].
        apply Hfresh. left. exact Heq.
      * apply IH; [exact Hnd | tauto].
Qed.

Lemma addresses_set_same (k : string) (o o' : SnapshotObject)
      (m : list (string * SnapshotObject)) :
  JsMap.get k m = Some o ->
  obj_parameters o' = obj_parameters o ->
  addresses (JsMap.set k o' m) = addresses m.
Proof.
  intros Hget Ha. induction m as [| [k1 o1] r IH]; simpl in *.
  - discriminate.
  - destruct (String.eqb_spec k1 k) as [-> | Hne]; simpl.
    + injection Hget as ->. rewrite Ha. reflexivity.
    + rewrite (IH Hget). reflexivity.
Qed.

Lemma in_delete (k : string) (m : list (string * SnapshotObject))
      (kv : string * SnapshotObject) :
  In kv (JsMap.delete k m) -> In kv m.
Proof.
  induction m as [| [k1 o1] r IH]; simpl.
  - tauto.
  - destruct (String.eqb k1 k); simpl; [tauto |].
    intros [<- | Hin]; [left; reflexivity | right; exact (IH Hin)].
Qed.

Lemma addresses_delete (k : string) (m : list (string * SnapshotObject)) :
  List.NoDup (addresses m) -> List.NoDup (addresses (JsMap.delete k m)).
Proof.
  induction m as [| [k1 o1] r IH]; simpl; intros Hnd.
  - constructor.
  - apply List.NoDup_cons_iff in Hnd as [Hnotin Hnd].
    destruct (String.eqb k1 k); simpl; [exact Hnd |].
    constructor; [| exact (IH Hnd)].
    intros Hin. apply Hnotin. unfold addresses in *.
    apply in_map_iff in Hin as (kv & Ha & Hkv).
    apply in_map_iff. exists kv. split; [exact Ha |]. exact (in_delete _ _ _ Hkv).
Qed.

Lemma keys_delete_NoDup (k : string) (m : list (string * SnapshotObject)) :
  List.NoDup (JsMap.keys m) -> List.NoDup (JsMap.keys (JsMap.delete k m)).
Proof.
  induction m as [| [k1 o1] r IH]; simpl; intros Hnd.
  - constructor.
  - apply List.NoDup_cons_iff in Hnd as [Hnotin Hnd].
    destruct (String.eqb k1 k); simpl; [exact Hnd |].
    constructor; [| exact (IH Hnd)].
    intros Hin. apply Hnotin. unfold JsMap.keys in *.
    apply in_map_iff in Hin as (kv & Ha & Hkv).
    apply in_map_iff. exists kv. split; [exact Ha |]. exact (in_delete _ _ _ Hkv).
Qed.

(** ** Reading the stored objects *)

Lemma readAll_set (e : SnapshotEngine) (k : string) (o : SnapshotObject)
      (m : list (string * SnapshotObject)) :
  readAll e (JsMap.set k o m) = JsMap.set k (read e o) (readAll e m).
Proof.
  induction m as [| [k1 o1] r IH]; simpl.
  - reflexivity.
  - destruct (String.eqb k1 k); simpl; [reflexivity |]. rewrite IH. reflexivity.
Qed.

Lemma readAll_delete (e : SnapshotEngine) (k : string)
      (m : list (string * SnapshotObject)) :
  readAll e (JsMap.delete k m) = JsMap.delete k (readAll e m).
Proof.
  induction m as [| [k1 o1] r IH]; simpl.
  - reflexivity.
  - destruct (String.eqb k1 k); simpl; [reflexivity |]. rewrite IH. reflexivity.
Qed.

Lemma readAll_get (e : SnapshotEngine) (k : string)
      (m : list (string * SnapshotObject)) :
  JsMap.get k (readAll e m) = option_map (read e) (JsMap.get k m).
Proof.
  induction m as [| [k1 o1] r IH]; simpl.
  - reflexivity.
  - destruct (String.eqb k1 k); [reflexivity | exact IH].
Qed.

Lemma read_ext (e e' : SnapshotEngine) (o : SnapshotObject) :
  arrays e' !! obj_parameters o = arrays e !! obj_parameters o ->
  read e' o = read e o.
Proof. intros H. unfold read, parametersOf. rewrite H. reflexivity. Qed.

Lemma readAll_ext (e e' : SnapshotEngine) (m : list (string * SnapshotObject)) :
  (forall a : nat, In a (addresses m) -> arrays e' !! a = arrays e !! a) ->
  readAll e' m = readAll e m.
Proof.
  induction m as [| [k1 o1] r IH]; simpl; intros H.
  - reflexivity.
  - rewrite (read_ext e e' o1) by (apply H; left; reflexivity).
    rewrite IH; [reflexivity |]. intros a Ha. apply H. right. exact Ha.
Qed.

Lemma get_address (k : string) (o : SnapshotObject)
      (m : list (string * SnapshotObject)) :
  JsMap.get k m = Some o -> In (obj_parameters o) (addresses m).
Proof.
  intros Hget. apply get_In in Hget. unfold addresses.
  apply in_map_iff. exists (k, o). auto.
Qed.

Lemma set_readAll_edit (e e' : SnapshotEngine) (sid : string) (o : SnapshotObject)
      (ps : list SnapshotParameter) (x : Snapshot)
      (m : list (string * SnapshotObject)) :
  List.NoDup (addresses m) ->
  JsMap.get sid m = Some o ->
  arrays e' = <[obj_parameters o := ps]> (arrays e) ->
  JsMap.set sid x (readAll e' m) = JsMap.set sid x (readAll e m).
Proof.
  intros Hnd Hget Harr. induction m as [| [k1 o1] r IH]; simpl in *.
  - reflexivity.
  - apply List.NoDup_cons_iff in Hnd as [Hnotin Hnd].
    destruct (String.eqb_spec k1 sid) as [-> | Hne].
    + injection Hget as ->. f_equal. apply readAll_ext.
      intros a Ha. rewrite Harr. apply lookup_insert_ne. congruence.
    + rewrite (read_ext e e' o1).
      * rewrite (IH Hnd Hget). reflexivity.
      * rewrite Harr. apply lookup_insert_ne.
        intros Heq. apply Hnotin. rewrite <- Heq. exact (get_address _ _ _ Hget).
Qed.

(** ** One edit in place *)

Lemma editInPlace_view (sid : string) (o : SnapshotObject)
      (ps : list SnapshotParameter) (now : Z) (e : SnapshotEngine) :
  unshared e ->
  JsMap.get sid (snapshots e) = Some o ->
  view (editInPlace sid o ps now e) =
    Store.set_snapshots
      (JsMap.set sid
         (Store.with_modifiedAt now (Store.with_parameters ps (read e o)))
         (Store.snapshots (view e)))
      (view e) /\
  unshared (editInPlace sid o ps now e).
Proof.
  intros (Hkeys & Haddr & Hbound) Hget. split.
  - unfold view, editInPlace, Store.set_snapshots. shared_fields.
    cbn [Store.snapshots Store.currentValues]. f_equal.
    rewrite readAll_set.
    assert (Hread : read (set_snapshots (JsMap.set sid (with_modifiedAt now o) (snapshots e))
                            (set_arrays (<[obj_parameters o := ps]> (arrays e)) e))
                         (with_modifiedAt now o) =
                    Store.with_modifiedAt now (Store.with_parameters ps (read e o))).
    { unfold read, parametersOf. shared_fields. rewrite lookup_insert_eq. reflexivity. }
    rewrite Hread.
    apply (set_readAll_edit e _ sid o ps _ (snapshots e) Haddr Hget). reflexivity.
  - unfold unshared, editInPlace. shared_fields.
    rewrite (addresses_set_same sid o (with_modifiedAt now o) _ Hget eq_refl).
    split; [apply keys_set_NoDup; exact Hkeys |]. split; assumption.
Qed.

Lemma alloc_view (ps : list SnapshotParameter) (e : SnapshotEngine) :
  unshared e ->
  readAll (snd (newArray ps e)) (snapshots e) = readAll e (snapshots e).
Proof.
  intros (_ & _ & Hbound). apply readAll_ext. intros a Ha.
  unfold newArray. shared_fields. apply lookup_insert_ne.
  specialize (Hbound a Ha). lia.
Qed.

Lemma view_get (e : SnapshotEngine) (k : string) :
  JsMap.get k (Store.snapshots (view e)) = option_map (read e) (JsMap.get k (snapshots e)).
Proof. unfold view. cbn [Store.snapshots]. apply readAll_get. Qed.

(** X24. The store by value.  Reading a store whose snapshot objects hold
    distinct arrays gives a store by value, and each operation of the engine
    other than copySnapshot acts on what is read as the operation of the
    same name acts on the store by value, returns the same result, and
    leaves the arrays distinct: createSnapshot, captureSnapshot,
    deleteSnapshot, updateSnapshotParameter, removeSnapshotParameter and
    toggleParameterEnabled.  Targets and messages of a snapshot are those of
    what is read, shared arrays or not. *)
Theorem view_refines_store (e : SnapshotEngine) :
  unshared e ->
  (forall sid : string,
     getSnapshot sid e = Store.getSnapshot sid (view e) /\
     getInterpolationTargets sid e = Store.getInterpolationTargets sid (view e) /\
     getSnapshotMidiMessages sid e = Store.getSnapshotMidiMessages sid (view e)) /\
  (forall (bankNo slotNo : Z) (name : option string) (uuid : string) (now : Z),
     let r := createSnapshot bankNo slotNo name uuid now e in
     let r' := Store.createSnapshot bankNo slotNo name uuid now (view e) in
     read (snd r) (fst r) = fst r' /\ view (snd r) = snd r' /\ unshared (snd r)) /\
  (forall (bankNo slotNo : Z) (name : option string) (uuid : string) (now : Z),
     let r := captureSnapshot bankNo slotNo name uuid now e in
     let r' := Store.captureSnapshot bankNo slotNo name uuid now (view e) in
     read (snd r) (fst r) = fst r' /\ view (snd r) = snd r' /\ unshared (snd r)) /\
  (forall id : string,
     let r := deleteSnapshot id e in
     let r' := Store.deleteSnapshot id (view e) in
     fst r = fst r' /\ view (snd r) = snd r' /\ unshared (snd r)) /\
  (forall (sid pid : string) (v : Z) (enabled : bool) (now : Z),
     let r := updateSnapshotParameter sid pid v enabled now e in
     let r' := Store.updateSnapshotParameter sid pid v enabled now (view e) in
     fst r = fst r' /\ view (snd r) = snd r' /\ unshared (snd r)) /\
  (forall (sid pid : string) (now : Z),
     let r := removeSnapshotParameter sid pid now e in
     let r' := StoreOps.removeSnapshotParameter sid pid now (view e) in
     fst r = fst r' /\ view (snd r) = snd r' /\ unshared (snd r)) /\
  (forall (sid pid : string) (now : Z),
     let r := toggleParameterEnabled sid pid now e in
     let r' := StoreOps.toggleParameterEnabled sid pid now (view e) in
     fst r = fst r' /\ view (snd r) = snd r' /\ unshared (snd r)).
Proof.
  intros Hun. pose proof Hun as (Hkeys & Haddr & Hbound).
  split; [| split; [| split; [| split; [| split; [| split]]]]].
  - intros sid.
    unfold getSnapshot, getInterpolationTargets, getSnapshotMidiMessages,
      Store.getSnapshot, Store.getInterpolationTargets, Store.getSnapshotMidiMessages,
      view.
    cbn [Store.snapshots]. rewrite readAll_get.
    destruct (JsMap.get sid (snapshots e)) as [o |]; cbn [option_map]; auto.
  - intros bankNo slotNo name uuid now. cbv zeta.
    unfold createSnapshot, Store.createSnapshot.
    cbn [newArray fst snd]. shared_fields.
    split; [| split].
    + unfold read, parametersOf. shared_fields. rewrite lookup_insert_eq. reflexivity.
    + unfold view, Store.set_snapshots. shared_fields.
      cbn [Store.snapshots Store.currentValues]. f_equal.
      rewrite readAll_set. f_equal.
      * unfold read, parametersOf. shared_fields. rewrite lookup_insert_eq.
        reflexivity.
      * apply readAll_ext. intros a Ha. shared_fields.
        apply lookup_insert_ne. specialize (Hbound a Ha). lia.
    + unfold unshared. shared_fields. split; [| split].
      * apply keys_set_NoDup. exact Hkeys.
      * apply addresses_set_fresh; [exact Haddr |]. shared_fields.
        intros Hin. specialize (Hbound _ Hin). lia.
      * intros a Ha. apply in_addresses_set in Ha as [-> | Ha].
        -- shared_fields. lia.
        -- specialize (Hbound a Ha). lia.
  - intros bankNo slotNo name uuid now. cbv zeta.
    unfold captureSnapshot, createSnapshot, Store.captureSnapshot, Store.createSnapshot.
    cbn [newArray fst snd]. shared_fields.
    cbn [Store.set_snapshots Store.snapshots Store.currentValues view
         Store.with_parameters snapshot_id].
    rewrite !set_set_eq.
    split; [| split].
    + unfold read, parametersOf. shared_fields. rewrite lookup_insert_eq. reflexivity.
    + unfold view, Store.set_snapshots. shared_fields.
      cbn [Store.snapshots Store.currentValues]. f_equal.
      rewrite readAll_set. f_equal.
      * unfold read, parametersOf. shared_fields. rewrite lookup_insert_eq.
        reflexivity.
      * apply readAll_ext. intros a Ha. shared_fields.
        specialize (Hbound a Ha).
        rewrite !lookup_insert_ne by lia. reflexivity.
    + unfold unshared. shared_fields. split; [| split].
      * apply keys_set_NoDup. exact Hkeys.
      * apply addresses_set_fresh; [exact Haddr |]. shared_fields.
        intros Hin. specialize (Hbound _ Hin). lia.
      * intros a Ha. apply in_addresses_set in Ha as [-> | Ha].
        -- shared_fields. lia.
        -- specialize (Hbound a Ha). lia.
  - intros id. cbv zeta. unfold deleteSnapshot, Store.deleteSnapshot, JsMap.has, view.
    shared_fields. cbn [Store.set_snapshots Store.snapshots Store.currentValues].
    rewrite readAll_get, readAll_delete.
    split; [destruct (JsMap.get id (snapshots e)); reflexivity |].
    split; [reflexivity |].
    unfold unshared. shared_fields. split; [| split].
    + apply keys_delete_NoDup. exact Hkeys.
    + apply addresses_delete. exact Haddr.
    + intros a Ha. apply Hbound. unfold addresses in *.
      apply in_map_iff in Ha as (kv & Hkv & Hin).
      apply in_map_iff. exists kv. split; [exact Hkv | exact (in_delete _ _ _ Hin)].
  - intros sid pid v enabled now. cbv zeta.
    unfold updateSnapshotParameter, Store.updateSnapshotParameter.
    rewrite (view_get e sid).
    destruct (JsMap.get sid (snapshots e)) as [o |] eqn:Hget; cbn [option_map fst snd].
    + cbn [read parameters].
      destruct (editInPlace_view sid o
                  match Store.findIndex pid (parametersOf o e) with
                  | Some existingIndex =>
                    <[existingIndex := {| parameterId := pid;
                                          value := Z.max 0 (Z.min 127 v);
                                          isEnabled := enabled |}]> (parametersOf o e)
                  | None => parametersOf o e
                              ++ [{| parameterId := pid; value := Z.max 0 (Z.min 127 v);
                                     isEnabled := enabled |}]
                  end now e Hun Hget) as [Hv Hu].
      split; [reflexivity |]. split; [exact Hv | exact Hu].
    + auto.
  - intros sid pid now. cbv zeta.
    unfold removeSnapshotParameter, StoreOps.removeSnapshotParameter.
    rewrite (view_get e sid).
    destruct (JsMap.get sid (snapshots e)) as [o |] eqn:Hget; cbn [option_map fst snd].
    + cbn [read parameters].
      destruct (Store.findIndex pid (parametersOf o e)) as [i |]; cbn [fst snd].
      * destruct (editInPlace_view sid o (delete i (parametersOf o e)) now e Hun Hget)
          as [Hv Hu].
        split; [reflexivity |]. split; [exact Hv | exact Hu].
      * auto.
    + auto.
  - intros sid pid now. cbv zeta.
    unfold toggleParameterEnabled, StoreOps.toggleParameterEnabled.
    rewrite (view_get e sid).
    destruct (JsMap.get sid (snapshots e)) as [o |] eqn:Hget; cbn [option_map fst snd].
    + cbn [read parameters].
      destruct (Store.findIndex pid (parametersOf o e)) as [i |]; cbn [fst snd].
      * destruct (editInPlace_view sid o
                    (alter (fun param =>
                              {| parameterId := parameterId param; value := value param;
                                 isEnabled := negb (isEnabled param) |})
                           i (parametersOf o e)) now e Hun Hget) as [Hv Hu].
        split; [reflexivity |]. split; [exact Hv | exact Hu].
      * auto.
    + auto.
Qed.

Lemma view_refines_store_witness :
  unshared SharedStore.constructor /\
  view SharedStore.constructor = Store.constructor /\
  view (snd (captureSnapshot 0 0 None "a" 1 SharedStore.constructor)) =
    snd (Store.captureSnapshot 0 0 None "a" 1 Store.constructor).
Proof.
  assert (Hun : unshared SharedStore.constructor).
  { split; [constructor |]. split; [constructor |]. intros a []. }
  split; [exact Hun |]. split; [reflexivity |].
  destruct (view_refines_store SharedStore.constructor Hun)
    as (_ & _ & Hcapture & _).
  exact (proj1 (proj2 (Hcapture 0 0 None "a" 1))).
Defined.

End SharedStoreRefinement.

(* ====================================================================== *)
(** * The modes of the transition engine *)
(* ====================================================================== *)

Module TransitionModesSpec.
Import Js JsFacts JsMapFacts Store Transition TransitionSpec TransitionOps.

Ltac engine_destruct t :=
  destruct t as [ck e0 sch ist iti tti cb1 cb2 cb3 tm nt sent ups done].

(** ** What leaves the control state alone *)

Lemma sendMidiMessage_control (m : MIDIMessage) (t : TransitionEngine) :
  control (sendMidiMessage m t) = control t.
Proof. engine_destruct t. unfold sendMidiMessage. destruct cb1; reflexivity. Qed.

Lemma sendParameterValue_control (pid : string) (v : Z) (uuid : string) (now : Z)
      (t : TransitionEngine) :
  control (sendParameterValue pid v uuid now t) = control t.
Proof.
  unfold sendParameterValue.
  destruct (createSnapshot 0 0 (Some "temp") uuid now (snapshotEngine t)) as [snapshot e1].
  destruct (updateSnapshotParameter (snapshot_id snapshot) pid v true now e1) as [ok e2].
  destruct (getSnapshotMidiMessages (snapshot_id snapshot) e2) as [| m ms].
  - destruct (deleteSnapshot _ _) as [ok' e3]. engine_destruct t. reflexivity.
  - destruct (deleteSnapshot _ _) as [ok' e3].
    engine_destruct t. unfold sendMidiMessage. destruct cb1; reflexivity.
Qed.

Lemma frameParameter_control (st : InterpolationState) (eased : Q) (now : Z)
      (uuid pid : string) (t : TransitionEngine) :
  control (frameParameter st eased now uuid pid t) = control t.
Proof.
  unfold frameParameter. cbv zeta.
  match goal with
  | |- control (set_snapshotEngine _ (sendParameterValue ?p ?v ?u ?n ?t0)) = _ =>
    rewrite <- (sendParameterValue_control p v u n t0);
    generalize (sendParameterValue p v u n t0)
  end.
  intros t1. engine_destruct t1. reflexivity.
Qed.

Lemma frameParameters_control (st : InterpolationState) (eased : Q) (now : Z)
      (uuids : nat -> string) (pids : list string) :
  forall (i : nat) (t : TransitionEngine),
    control (frameParameters st eased now uuids i pids t) = control t.
Proof.
  induction pids as [| pid r IH]; intros i t; simpl.
  - reflexivity.
  - rewrite IH. apply frameParameter_control.
Qed.

Lemma control_fields (t t' : TransitionEngine) :
  control t' = control t ->
  timers t' = timers t /\ nextTimerId t' = nextTimerId t /\
  scheduledTransition t' = scheduledTransition t /\
  interpolationState t' = interpolationState t /\
  interpolationTimerId t' = interpolationTimerId t /\
  transitionTimerId t' = transitionTimerId t /\
  midiSendCallback t' = midiSendCallback t /\
  interpolationUpdateCallback t' = interpolationUpdateCallback t /\
  transitionCompleteCallback t' = transitionCompleteCallback t /\
  interpolationUpdates t' = interpolationUpdates t /\
  transitionsCompleted t' = transitionsCompleted t /\
  clockEngine t' = clockEngine t.
Proof.
  unfold control. intros H. injection H as H1 H2 H3 H4 H5 H6 H7 H8 H9 H10 H11 H12.
  repeat split; assumption.
Qed.

(** ** The modes *)













End TransitionModesSpec.

(* ====================================================================== *)
(** * The frames of a Jump *)
(* ====================================================================== *)

Module TransitionFrameSpec.
Import Js JsFacts JsMapFacts JsMapMore Store Transition TransitionSpec TransitionOps.
Import TransitionModesSpec.

(** ** The value of a frame *)

Lemma progressAt_range (e d : Q) :
  (0 < d)%Q -> (0 <= e)%Q -> (0 <= progressAt e d)%Q /\ (progressAt e d <= 1)%Q.
Proof.
  intros Hd He. unfold progressAt. split.
  - apply Q.min_glb; [| discriminate].
    apply Qle_shift_div_l; [exact Hd | lra].
  - apply Q.le_min_r.
Qed.

Lemma eased_range (e d : Q) :
  (0 < d)%Q -> (0 <= e)%Q ->
  (0 <= easedProgressAt e d)%Q /\ (easedProgressAt e d <= 1)%Q.
Proof.
  intros Hd He. destruct (progressAt_range e d Hd He) as [H0 H1].
  unfold easedProgressAt. split.
  - assert (Hz : (easeOutCubic 0 == 0)%Q) by (unfold easeOutCubic, pow3; ring).
    rewrite <- Hz. apply easeOutCubic_monotone. exact H0.
  - assert (Hz : (easeOutCubic 1 == 1)%Q) by (unfold easeOutCubic, pow3; ring).
    rewrite <- Hz. apply easeOutCubic_monotone. exact H1.
Qed.

Lemma eased_monotone (e1 e2 d : Q) :
  (0 < d)%Q -> (e1 <= e2)%Q -> (easedProgressAt e1 d <= easedProgressAt e2 d)%Q.
Proof.
  intros Hd He. unfold easedProgressAt. apply easeOutCubic_monotone.
  apply progressAt_monotone; assumption.
Qed.

Lemma eased_end (e d : Q) :
  (0 < d)%Q -> (d <= e)%Q -> (easedProgressAt e d == 1)%Q.
Proof.
  intros Hd He. unfold easedProgressAt, easeOutCubic, pow3.
  rewrite (progressAt_end e d Hd He). ring.
Qed.

Lemma eased_start (d : Q) : (0 < d)%Q -> (easedProgressAt 0 d == 0)%Q.
Proof.
  intros Hd. unfold easedProgressAt, easeOutCubic, pow3.
  rewrite (progressAt_start d Hd). ring.
Qed.

Lemma blend_monotone (s g : Z) (x y : Q) :
  (x <= y)%Q ->
  (s <= g ->
   Math_round (inject_Z s + inject_Z (g - s) * x) <=
   Math_round (inject_Z s + inject_Z (g - s) * y)) /\
  (g <= s ->
   Math_round (inject_Z s + inject_Z (g - s) * y) <=
   Math_round (inject_Z s + inject_Z (g - s) * x)).
Proof.
  intros Hxy. split; intros Hsg; apply UnitsSpec.Math_round_monotone.
  - assert (Ha : (0 <= inject_Z (g - s))%Q) by (rewrite <- (Zle_Qle 0); lia).
    assert (Hm : (inject_Z (g - s) * x <= inject_Z (g - s) * y)%Q).
    { rewrite !(Qmult_comm (inject_Z (g - s))). apply Qmult_le_compat_r; assumption. }
    lra.
  - assert (Ha : (0 <= - inject_Z (g - s))%Q).
    { rewrite <- inject_Z_opp. rewrite <- (Zle_Qle 0). lia. }
    assert (Hm : (- inject_Z (g - s) * x <= - inject_Z (g - s) * y)%Q).
    { rewrite !(Qmult_comm (- inject_Z (g - s))). apply Qmult_le_compat_r; assumption. }
    lra.
Qed.

Lemma blend_start (s g : Z) (x : Q) :
  (x == 0)%Q -> Math_round (inject_Z s + inject_Z (g - s) * x) = s.
Proof. intros Hx. apply Math_round_integer. rewrite Hx. ring. Qed.

Lemma blend_end (s g : Z) (x : Q) :
  (x == 1)%Q -> Math_round (inject_Z s + inject_Z (g - s) * x) = g.
Proof.
  intros Hx. apply Math_round_integer. rewrite Hx.
  unfold Zminus. rewrite inject_Z_plus, inject_Z_opp. ring.
Qed.

(** X26. The value of a frame.  For a fade of positive duration the value
    that a frame computes for a parameter starts at the start value, moves
    towards the target value without ever turning back as time passes, never
    leaves the interval between the two, and is the target value for every
    frame at or after the end of the fade. *)
Theorem frame_value_between (st : InterpolationState) (pid : string)
        (elapsed1 elapsed2 : Q) :
  (0 < duration st)%Q -> (0 <= elapsed1)%Q -> (elapsed1 <= elapsed2)%Q ->
  let s := default 0 (JsMap.get pid (startValues st)) in
  let g := default 0 (JsMap.get pid (targetValues st)) in
  let v1 := frameValue st (easedProgressAt elapsed1 (duration st)) pid in
  let v2 := frameValue st (easedProgressAt elapsed2 (duration st)) pid in
  Z.min s g <= v1 <= Z.max s g /\
  (s <= g -> v1 <= v2) /\
  (g <= s -> v2 <= v1) /\
  frameValue st (easedProgressAt 0 (duration st)) pid = s /\
  ((duration st <= elapsed2)%Q -> v2 = g).
Proof.
  intros Hd H1 H12. cbv zeta. unfold frameValue. cbv zeta.
  set (s := default 0 (JsMap.get pid (startValues st))).
  set (g := default 0 (JsMap.get pid (targetValues st))).
  destruct (eased_range elapsed1 (duration st) Hd H1) as [Hlo Hhi].
  pose proof (eased_monotone elapsed1 elapsed2 (duration st) Hd H12) as Hmono.
  set (x := easedProgressAt elapsed1 (duration st)) in *.
  set (y := easedProgressAt elapsed2 (duration st)) in *.
  assert (Hzero : (0 == 0)%Q) by reflexivity.
  assert (Hone : (1 == 1)%Q) by reflexivity.
  pose proof (blend_start s g 0%Q Hzero) as Bs.
  pose proof (blend_end s g 1%Q Hone) as Be.
  destruct (blend_monotone s g 0 x Hlo) as [Up0 Down0].
  destruct (blend_monotone s g x 1 Hhi) as [Up1 Down1].
  destruct (blend_monotone s g x y Hmono) as [Up Down].
  rewrite Bs in Up0, Down0. rewrite Be in Up1, Down1.
  split; [| split; [| split; [| split]]].
  - destruct (Z_le_gt_dec s g) as [Hsg | Hsg].
    + specialize (Up0 Hsg). specialize (Up1 Hsg). lia.
    + specialize (Down0 ltac:(lia)). specialize (Down1 ltac:(lia)). lia.
  - exact Up.
  - exact Down.
  - apply blend_start. apply eased_start. exact Hd.
  - intros Hend. apply blend_end. apply eased_end; assumption.
Qed.

Lemma frame_value_between_witness :
  let st := {| active := true; interpolation_snapshot := Scenario.panLeft;
               startValues := [("track_3_pan", 64)];
               targetValues := [("track_3_pan", 0)];
               startTime := 0; duration := 500;
               parametersToInterpolate := ["track_3_pan"] |} in
  0 <= frameValue st (easedProgressAt 250 500) "track_3_pan" <= 64 /\
  frameValue st (easedProgressAt 250 500) "track_3_pan" = 8 /\
  frameValue st (easedProgressAt 700 500) "track_3_pan" = 0.
Proof.
  intros st.
  destruct (frame_value_between st "track_3_pan" 250 700)
    as (Hrange & _ & _ & _ & Hend).
  - reflexivity.
  - discriminate.
  - discriminate.
  - split; [exact Hrange |]. split; [vm_compute; reflexivity |].
    apply Hend. discriminate.
Defined.

(** ** What a frame sends and records *)

Lemma frameParameter_effect (st : InterpolationState) (eased : Q) (now : Z)
      (uuid pid : string) (t : TransitionEngine) :
  JsMap.get uuid (snapshots (snapshotEngine t)) = None ->
  let t' := frameParameter st eased now uuid pid t in
  midiSent t' =
    midiSent t ++
      (if midiSendCallback t
       then match parameterToMidiMessage pid
                    (Z.max 0 (Z.min 127 (frameValue st eased pid))) with
            | Some m => [m]
            | None => []
            end
       else []) /\
  snapshotEngine t' =
    updateCurrentValue pid (frameValue st eased pid) (snapshotEngine t).
Proof.
  intros Hfresh. cbv zeta. unfold frameParameter. cbv zeta.
  change (Math_round
            (inject_Z (default 0 (JsMap.get pid (startValues st)))
             + inject_Z (default 0 (JsMap.get pid (targetValues st))
                         - default 0 (JsMap.get pid (startValues st))) * eased))
    with (frameValue st eased pid).
  rewrite (sendParameterValue_fresh _ _ _ _ _ Hfresh).
  destruct (parameterToMidiMessage pid (Z.max 0 (Z.min 127 (frameValue st eased pid))))
    as [m |].
  - engine_destruct t. unfold sendMidiMessage. engine_unfold.
    destruct cb1; engine_unfold; [auto |]. rewrite app_nil_r. auto.
  - engine_destruct t. engine_unfold.
    destruct cb1; rewrite app_nil_r; auto.
Qed.

Lemma frameParameters_effect (st : InterpolationState) (eased : Q) (now : Z)
      (uuids : nat -> string) (pids : list string) :
  forall (i : nat) (t : TransitionEngine),
    (forall j : nat, JsMap.get (uuids j) (snapshots (snapshotEngine t)) = None) ->
    let t' := frameParameters st eased now uuids i pids t in
    midiSent t' =
      midiSent t ++
        (if midiSendCallback t
         then flat_map (fun pid =>
                          match parameterToMidiMessage pid
                                  (Z.max 0 (Z.min 127 (frameValue st eased pid))) with
                          | Some m => [m]
                          | None => []
                          end) pids
         else []) /\
    snapshotEngine t' =
      fold_left (fun e pid => updateCurrentValue pid (frameValue st eased pid) e)
                pids (snapshotEngine t).
Proof.
  induction pids as [| pid r IH]; intros i t Hfresh; cbv zeta; simpl.
  - destruct (midiSendCallback t); rewrite app_nil_r; auto.
  - destruct (frameParameter_effect st eased now (uuids i) pid t (Hfresh i))
      as [Hsent Hstore].
    pose proof (frameParameter_control st eased now (uuids i) pid t) as Hc.
    apply control_fields in Hc. destruct Hc as (_ & _ & _ & _ & _ & _ & Hcb & _).
    set (t1 := frameParameter st eased now (uuids i) pid t) in *.
    destruct (IH (S i) t1) as [Hsent' Hstore'].
    { intros j. rewrite Hstore. unfold updateCurrentValue, set_currentValues.
      cbn [snapshots]. apply Hfresh. }
    rewrite Hsent', Hstore', Hsent, Hstore, Hcb.
    split; [| reflexivity].
    destruct (midiSendCallback t); [| rewrite !app_nil_r; reflexivity].
    rewrite <- app_assoc. reflexivity.
Qed.

Lemma finish_fields (snapshot : Snapshot) (t : TransitionEngine) :
  let t' := set_interpolationState None
              (notifyComplete snapshot (stopInterpolationLoop t)) in
  midiSent t' = midiSent t /\
  snapshotEngine t' = snapshotEngine t /\
  interpolationState t' = None /\
  interpolationTimerId t' = None /\
  timers t' = match interpolationTimerId t with
              | Some handle => delete handle (timers t)
              | None => timers t
              end /\
  transitionsCompleted t' =
    transitionsCompleted t ++ (if transitionCompleteCallback t then [snapshot] else []) /\
  interpolationUpdates t' = interpolationUpdates t.
Proof.
  engine_destruct t. unfold stopInterpolationLoop, notifyComplete.
  destruct iti, cb3; cbv zeta; engine_unfold; rewrite ?app_nil_r;
    repeat split; reflexivity.
Qed.

Lemma continue_fields (st : InterpolationState) (t : TransitionEngine) :
  let t' := notifyInterpolation st t in
  midiSent t' = midiSent t /\
  snapshotEngine t' = snapshotEngine t /\
  interpolationState t' = interpolationState t /\
  interpolationTimerId t' = interpolationTimerId t /\
  timers t' = timers t /\
  transitionsCompleted t' = transitionsCompleted t /\
  interpolationUpdates t' =
    interpolationUpdates t ++ (if interpolationUpdateCallback t then [st] else []).
Proof.
  engine_destruct t. unfold notifyInterpolation.
  destruct cb2; cbv zeta; engine_unfold; rewrite ?app_nil_r;
    repeat split; reflexivity.
Qed.

Lemma interpolationFrame_unfold (now : Z) (uuids : nat -> string)
      (t : TransitionEngine) (st : InterpolationState) :
  interpolationState t = Some st ->
  active st = true ->
  ~ (duration st == 0)%Q ->
  interpolationFrame now uuids t =
    Some (let progress := progressAt (inject_Z (now - startTime st)) (duration st) in
          let t1 := frameParameters st (easeOutCubic progress) now uuids O
                                    (parametersToInterpolate st) t in
          if Qle_bool 1 progress
          then set_interpolationState None
                 (notifyComplete (interpolation_snapshot st) (stopInterpolationLoop t1))
          else notifyInterpolation st t1).
Proof.
  intros Hst Hact Hdur. unfold interpolationFrame. rewrite Hst, Hact. cbn [negb].
  destruct (Qeq_bool (duration st) 0) eqn:Hq;
    [apply Qeq_bool_iff in Hq; contradiction |].
  cbv zeta.
  destruct (Qle_bool 1 (progressAt (inject_Z (now - startTime st)) (duration st)));
    reflexivity.
Qed.

(** X27. One frame of a Jump.  For an active fade whose duration is not 0,
    with fresh identifiers for the temporary snapshots, a frame sends, in
    the order of the parameter list, the encoding of the frame value
    (clamped to 0..127) of every parameter whose id is registered, and
    nothing else; it records the frame values as current values in the same
    order.  While the progress is below 1 the fade goes on and the
    interpolation callback is told; when it has reached 1 the frame interval
    is cleared, the completion callback is called with the snapshot, and
    the interpolation state is dropped. *)
Theorem jump_frame_effect (now : Z) (uuids : nat -> string)
        (t : TransitionEngine) (st : InterpolationState) :
  interpolationState t = Some st ->
  active st = true ->
  ~ (duration st == 0)%Q ->
  (forall j : nat, JsMap.get (uuids j) (snapshots (snapshotEngine t)) = None) ->
  let progress := progressAt (inject_Z (now - startTime st)) (duration st) in
  let eased := easeOutCubic progress in
  exists t' : TransitionEngine,
    interpolationFrame now uuids t = Some t' /\
    midiSent t' =
      midiSent t ++
        (if midiSendCallback t
         then flat_map (fun pid =>
                          match parameterToMidiMessage pid
                                  (Z.max 0 (Z.min 127 (frameValue st eased pid))) with
                          | Some m => [m]
                          | None => []
                          end) (parametersToInterpolate st)
         else []) /\
    snapshotEngine t' =
      fold_left (fun e pid => updateCurrentValue pid (frameValue st eased pid) e)
                (parametersToInterpolate st) (snapshotEngine t) /\
    if Qle_bool 1 progress
    then interpolationState t' = None /\ interpolationTimerId t' = None /\
         (forall handle : nat,
            interpolationTimerId t = Some handle -> timers t' = delete handle (timers t)) /\
         transitionsCompleted t' =
           transitionsCompleted t ++
             (if transitionCompleteCallback t then [interpolation_snapshot st] else []) /\
         interpolationUpdates t' = interpolationUpdates t
    else interpolationState t' = Some st /\
         interpolationTimerId t' = interpolationTimerId t /\
         timers t' = timers t /\
         transitionsCompleted t' = transitionsCompleted t /\
         interpolationUpdates t' =
           interpolationUpdates t ++
             (if interpolationUpdateCallback t then [st] else []).
Proof.
  intros Hst Hact Hdur Hfresh. cbv zeta.
  rewrite (interpolationFrame_unfold now uuids t st Hst Hact Hdur). cbv zeta.
  set (progress := progressAt (inject_Z (now - startTime st)) (duration st)).
  set (eased := easeOutCubic progress).
  destruct (frameParameters_effect st eased now uuids (parametersToInterpolate st) O t
              Hfresh) as [Hsent Hstore].
  pose proof (frameParameters_control st eased now uuids
                (parametersToInterpolate st) O t) as Hc.
  apply control_fields in Hc.
  destruct Hc as (Ht & _ & _ & Hi & Hl & _ & _ & Hcb2 & Hcb3 & Hups & Hdone & _).
  set (t1 := frameParameters st eased now uuids O (parametersToInterpolate st) t) in *.
  clearbody t1.
  destruct (Qle_bool 1 progress).
  - eexists. split; [reflexivity |].
    destruct (finish_fields (interpolation_snapshot st) t1)
      as (F1 & F2 & F3 & F4 & F5 & F6 & F7).
    rewrite F1, F2, F3, F4, F5, F6, F7, Hsent, Hstore, Hl, Ht, Hcb3, Hdone, Hups.
    repeat split; try reflexivity.
    intros handle ->. reflexivity.
  - eexists. split; [reflexivity |].
    destruct (continue_fields st t1) as (F1 & F2 & F3 & F4 & F5 & F6 & F7).
    rewrite F1, F2, F3, F4, F5, F6, F7, Hsent, Hstore, Hl, Ht, Hi, Hcb2, Hdone, Hups, Hst.
    repeat split; reflexivity.
Qed.

Lemma jump_frame_effect_witness :
  let t0 := Scenario.engineWith [Scenario.panLeft] in
  let t1 := startJumpInterpolation Scenario.panLeft 500 0 t0 in
  exists t2 : TransitionEngine,
    interpolationFrame 250 (fun _ => "tmp") t1 = Some t2 /\
    midiSent t2 = [Scenario.pan3 8] /\
    getCurrentValue "track_3_pan" (snapshotEngine t2) = Some 8.
Proof.
  intros t0 t1.
  destruct (jump_frame_effect 250 (fun _ => "tmp") t1
              {| active := true; interpolation_snapshot := Scenario.panLeft;
                 startValues := [("track_3_pan", 64)];
                 targetValues := [("track_3_pan", 0)];
                 startTime := 0; duration := 500;
                 parametersToInterpolate := ["track_3_pan"] |})
    as (t2 & Hframe & Hsent & Hstore & _).
  - reflexivity.
  - reflexivity.
  - discriminate.
  - intros j. reflexivity.
  - exists t2. split; [exact Hframe |]. split.
    + rewrite Hsent. vm_compute. reflexivity.
    + rewrite Hstore. vm_compute. reflexivity.
Defined.

End TransitionFrameSpec.

(* ====================================================================== *)
(** * The outcome of transitions *)
(* ====================================================================== *)

Module TransitionOutcomeSpec.
Import Js JsFacts JsMapFacts JsMapMore Store Transition TransitionSpec TransitionOps.
Import TransitionModesSpec TransitionFrameSpec.

Lemma get_of_In_NoDup (k : string) (v : Z) (m : list (string * Z)) :
  List.NoDup (JsMap.keys m) -> In (k, v) m -> JsMap.get k m = Some v.
Proof.
  induction m as [| [k1 v1] r IH]; simpl; intros Hnd Hin.
  - contradiction.
  - apply List.NoDup_cons_iff in Hnd as [Hnotin Hnd].
    destruct Hin as [[= -> ->] | Hin].
    + rewrite String.eqb_refl. reflexivity.
    + destruct (String.eqb_spec k1 k) as [-> | Hne].
      * exfalso. apply Hnotin. apply (in_map fst) in Hin. exact Hin.
      * exact (IH Hnd Hin).
Qed.

Lemma fold_over_keys (f : string -> Z) (l : list (string * Z)) :
  (forall kv, In kv l -> f (fst kv) = snd kv) ->
  forall e : SnapshotEngine,
    fold_left (fun e pid => updateCurrentValue pid (f pid) e) (JsMap.keys l) e =
    fold_left (fun e kv => updateCurrentValue (fst kv) (snd kv) e) l e.
Proof.
  induction l as [| kv r IH]; intros Hf e; simpl.
  - reflexivity.
  - rewrite (Hf kv) by (left; reflexivity). apply IH.
    intros kv' Hin. apply Hf. right. exact Hin.
Qed.

Lemma flat_map_over_keys (f : string -> Z) (l : list (string * Z)) :
  (forall kv, In kv l -> f (fst kv) = snd kv) ->
  flat_map (fun pid => match parameterToMidiMessage pid (Z.max 0 (Z.min 127 (f pid))) with
                       | Some m => [m]
                       | None => []
                       end) (JsMap.keys l) =
  flat_map (fun kv => match parameterToMidiMessage (fst kv)
                              (Z.max 0 (Z.min 127 (snd kv))) with
                      | Some m => [m]
                      | None => []
                      end) l.
Proof.
  induction l as [| kv r IH]; intros Hf; simpl.
  - reflexivity.
  - rewrite (Hf kv) by (left; reflexivity). rewrite IH; [reflexivity |].
    intros kv' Hin. apply Hf. right. exact Hin.
Qed.

Lemma startJump_state (snapshot : Snapshot) (fade : Q) (now : Z) (t : TransitionEngine) :
  getInterpolationTargets (snapshot_id snapshot) (snapshotEngine t) <> [] ->
  let t' := startJumpInterpolation snapshot fade now t in
  exists st : InterpolationState,
    interpolationState t' = Some st /\ active st = true /\
    targetValues st = getInterpolationTargets (snapshot_id snapshot) (snapshotEngine t) /\
    parametersToInterpolate st =
      JsMap.keys (getInterpolationTargets (snapshot_id snapshot) (snapshotEngine t)) /\
    startTime st = now /\ duration st = fade /\ interpolation_snapshot st = snapshot /\
    snapshotEngine t' = snapshotEngine t /\ midiSent t' = midiSent t /\
    midiSendCallback t' = midiSendCallback t /\
    transitionCompleteCallback t' = transitionCompleteCallback t /\
    transitionsCompleted t' = transitionsCompleted t.
Proof.
  intros Hne. cbv zeta. unfold startJumpInterpolation.
  destruct (getInterpolationTargets (snapshot_id snapshot) (snapshotEngine t))
    as [| kv targets] eqn:Htargets; [contradiction |].
  cbv zeta. unfold startInterpolationLoop, notifyInterpolation.
  engine_destruct t.
  destruct cb2; engine_unfold; eexists; repeat split; reflexivity.
Qed.

Lemma targets_NoDup (id : string) (e : SnapshotEngine) :
  List.NoDup (JsMap.keys (getInterpolationTargets id e)).
Proof.
  unfold getInterpolationTargets. destruct (JsMap.get id (snapshots e)).
  - apply targets_keys_NoDup. constructor.
  - constructor.
Qed.

(** X28. A Jump arrives.  For a fade of positive duration on a snapshot that
    has targets, the first frame at or after the end of the fade sends, for
    every target with a registered id, the encoding of the target value
    (clamped to 0..127), in the order of the targets; it leaves the store
    exactly as a Drop of the same snapshot would have left it, so the
    current value of every target is its clamped target value; it reports
    the completion and ends the fade.  The one-shot messages of the snapshot
    are not sent by a Jump. *)
Theorem jump_reaches_targets (snapshot : Snapshot) (fade : Q) (now now' : Z)
        (uuids : nat -> string) (t0 : TransitionEngine) :
  (0 < fade)%Q ->
  (inject_Z now + fade <= inject_Z now')%Q ->
  getInterpolationTargets (snapshot_id snapshot) (snapshotEngine t0) <> [] ->
  (forall j : nat, JsMap.get (uuids j) (snapshots (snapshotEngine t0)) = None) ->
  let targets := getInterpolationTargets (snapshot_id snapshot) (snapshotEngine t0) in
  let t1 := startJumpInterpolation snapshot fade now t0 in
  exists t2 : TransitionEngine,
    interpolationFrame now' uuids t1 = Some t2 /\
    interpolationState t2 = None /\ interpolationTimerId t2 = None /\
    midiSent t2 =
      midiSent t0 ++
        (if midiSendCallback t0
         then flat_map (fun kv => match parameterToMidiMessage (fst kv)
                                          (Z.max 0 (Z.min 127 (snd kv))) with
                                  | Some m => [m]
                                  | None => []
                                  end) targets
         else []) /\
    snapshotEngine t2 = snapshotEngine (executeDropImmediate snapshot false t0) /\
    (forall (pid : string) (v : Z),
       JsMap.get pid targets = Some v ->
       getCurrentValue pid (snapshotEngine t2) = Some (Z.max 0 (Z.min 127 v))) /\
    transitionsCompleted t2 =
      transitionsCompleted t0 ++ (if transitionCompleteCallback t0 then [snapshot] else []).
Proof.
  intros Hfade Hlate Hne Hfresh. cbv zeta.
  destruct (startJump_state snapshot fade now t0 Hne)
    as (st & Hst & Hact & Htv & Hpids & Hstart & Hdur & Hsnap & Hstore & Hsent
        & Hcb1 & Hcb3 & Hdone).
  set (t1 := startJumpInterpolation snapshot fade now t0) in *.
  set (targets := getInterpolationTargets (snapshot_id snapshot) (snapshotEngine t0)) in *.
  assert (Hnz : ~ (duration st == 0)%Q) by (rewrite Hdur; lra).
  assert (Hfresh1 : forall j : nat,
             JsMap.get (uuids j) (snapshots (snapshotEngine t1)) = None)
    by (rewrite Hstore; exact Hfresh).
  assert (Hprog : (progressAt (inject_Z (now' - startTime st)) (duration st) == 1)%Q).
  { rewrite Hstart, Hdur. apply progressAt_end; [exact Hfade |].
    unfold Zminus. rewrite inject_Z_plus, inject_Z_opp. lra. }
  assert (Hle : Qle_bool 1 (progressAt (inject_Z (now' - startTime st)) (duration st))
                = true).
  { apply Qle_bool_iff. rewrite Hprog. apply Qle_refl. }
  pose proof (interpolationFrame_unfold now' uuids t1 st Hst Hact Hnz) as Hframe.
  cbv zeta in Hframe. rewrite Hle in Hframe.
  destruct (frameParameters_effect st
              (easeOutCubic (progressAt (inject_Z (now' - startTime st)) (duration st)))
              now' uuids (parametersToInterpolate st) O t1 Hfresh1)
    as [Hsent1 Hstore1].
  pose proof (frameParameters_control st
                (easeOutCubic (progressAt (inject_Z (now' - startTime st)) (duration st)))
                now' uuids (parametersToInterpolate st) O t1) as Hc.
  apply control_fields in Hc.
  destruct Hc as (_ & _ & _ & _ & _ & _ & _ & _ & Hcb3' & _ & Hdone' & _).
  destruct (finish_fields (interpolation_snapshot st)
              (frameParameters st
                 (easeOutCubic (progressAt (inject_Z (now' - startTime st)) (duration st)))
                 now' uuids O (parametersToInterpolate st) t1))
    as (F1 & F2 & Hi2 & Hl2 & _ & F6 & _).
  cbv zeta in Hsent1, Hstore1.
  set (t2 := set_interpolationState None
               (notifyComplete (interpolation_snapshot st)
                  (stopInterpolationLoop
                     (frameParameters st
                        (easeOutCubic
                           (progressAt (inject_Z (now' - startTime st)) (duration st)))
                        now' uuids O (parametersToInterpolate st) t1)))) in *.
  assert (Hsent2 : midiSent t2 =
                   midiSent t1 ++
                     (if midiSendCallback t1
                      then flat_map
                             (fun pid =>
                                match parameterToMidiMessage pid
                                        (Z.max 0 (Z.min 127
                                           (frameValue st
                                              (easeOutCubic
                                                 (progressAt (inject_Z (now' - startTime st))
                                                             (duration st))) pid))) with
                                | Some m => [m]
                                | None => []
                                end) (parametersToInterpolate st)
                      else []))
    by (rewrite F1; exact Hsent1).
  assert (Hstore2 : snapshotEngine t2 =
                    fold_left
                      (fun e pid =>
                         updateCurrentValue pid
                           (frameValue st
                              (easeOutCubic
                                 (progressAt (inject_Z (now' - startTime st)) (duration st)))
                              pid) e)
                      (parametersToInterpolate st) (snapshotEngine t1))
    by (rewrite F2; exact Hstore1).
  assert (Hdone2 : transitionsCompleted t2 =
                   transitionsCompleted t1 ++
                     (if transitionCompleteCallback t1 then [interpolation_snapshot st]
                      else []))
    by (rewrite F6, Hcb3', Hdone'; reflexivity).
  clear F1 F2 F6 Hsent1 Hstore1 Hcb3' Hdone'.
  set (eased := easeOutCubic
                  (progressAt (inject_Z (now' - startTime st)) (duration st))) in *.
  assert (Heased : (eased == 1)%Q).
  { unfold eased, easeOutCubic, pow3. rewrite Hprog. ring. }
  assert (Hvalue : forall kv, In kv targets -> frameValue st eased (fst kv) = snd kv).
  { intros [k v] Hin. unfold frameValue. cbv zeta. cbn [fst snd].
    rewrite (blend_end _ _ _ Heased). rewrite Htv.
    rewrite (get_of_In_NoDup k v targets (targets_NoDup _ _) Hin). reflexivity. }
  destruct (executeDropImmediate_effect snapshot false t0) as (_ & Hdrop & _).
  cbv zeta in Hdrop. fold targets in Hdrop.
  assert (Hstore3 : snapshotEngine t2 =
                    fold_left (fun e kv => updateCurrentValue (fst kv) (snd kv) e)
                              targets (snapshotEngine t0)).
  { rewrite Hstore2, Hpids, Hstore. apply fold_over_keys. exact Hvalue. }
  exists t2. split; [exact Hframe |]. split; [exact Hi2 |]. split; [exact Hl2 |].
  split; [| split; [| split]].
  - rewrite Hsent2, Hsent, Hcb1, Hpids.
    destruct (midiSendCallback t0); [| reflexivity].
    rewrite (flat_map_over_keys _ _ Hvalue). reflexivity.
  - rewrite Hstore3, Hdrop. reflexivity.
  - intros pid v Hget. rewrite Hstore3.
    rewrite (updateAll_get targets pid _ (targets_NoDup _ _)). rewrite Hget. reflexivity.
  - rewrite Hdone2, Hdone, Hcb3, Hsnap. reflexivity.
Qed.

Lemma jump_reaches_targets_witness :
  let t0 := Scenario.engineWith [Scenario.panLeft] in
  let t1 := startJumpInterpolation Scenario.panLeft 500 0 t0 in
  exists t2 : TransitionEngine,
    interpolationFrame 510 (fun _ => "tmp") t1 = Some t2 /\
    midiSent t2 = [Scenario.pan3 0] /\
    getCurrentValue "track_3_pan" (snapshotEngine t2) = Some 0.
Proof.
  intros t0 t1.
  destruct (jump_reaches_targets Scenario.panLeft 500 0 510 (fun _ => "tmp") t0)
    as (t2 & Hframe & _ & _ & Hsent & _ & Hvalue & _).
  - reflexivity.
  - discriminate.
  - discriminate.
  - intros j. reflexivity.
  - exists t2. split; [exact Hframe |]. split.
    + rewrite Hsent. vm_compute. reflexivity.
    + apply (Hvalue "track_3_pan" 0). reflexivity.
Defined.

(** ** A Jump to nothing *)

Lemma targets_all_disabled (ps : list SnapshotParameter) :
  Forall (fun p => isEnabled p = false) ps ->
  forall acc : list (string * Z),
    fold_left (fun targets param =>
                 if isEnabled param
                 then JsMap.set (parameterId param) (value param) targets
                 else targets) ps acc = acc.
Proof.
  induction 1 as [| p r Hp Hr IH]; intros acc; simpl.
  - reflexivity.
  - rewrite Hp. apply IH.
Qed.

(** X29. A Jump to nothing.  An immediate Jump to a snapshot that is not
    stored, or whose parameters are all disabled, only cancels what was
    pending: no fade starts, no message is sent (the one-shot messages of
    the snapshot included), the completion callback is not called, and the
    engine is not active afterwards. *)
Theorem jump_without_targets_is_silent (snapshot : Snapshot)
        (settings : TransitionSettings) (now : Z) (t : TransitionEngine) :
  quantization settings = none ->
  getSnapshot (snapshot_id snapshot) (snapshotEngine t) = None \/
  (exists s : Snapshot,
     getSnapshot (snapshot_id snapshot) (snapshotEngine t) = Some s /\
     Forall (fun p => isEnabled p = false) (parameters s)) ->
  executeJump snapshot settings now t = cancelActiveTransition t /\
  midiSent (executeJump snapshot settings now t) = midiSent t /\
  transitionsCompleted (executeJump snapshot settings now t) = transitionsCompleted t /\
  isTransitionActive (executeJump snapshot settings now t) = false.
Proof.
  intros Hq Hcase.
  assert (Htargets : getInterpolationTargets (snapshot_id snapshot) (snapshotEngine t) = []).
  { unfold getInterpolationTargets, getSnapshot in *.
    destruct Hcase as [-> | (s & -> & Hall)]; [reflexivity |].
    apply targets_all_disabled. exact Hall. }
  assert (Heq : executeJump snapshot settings now t = cancelActiveTransition t).
  { unfold executeJump. cbv zeta. rewrite Hq. unfold startJumpInterpolation.
    destruct (cancel_frame t) as (-> & _). rewrite Htargets. reflexivity. }
  rewrite Heq. destruct (cancel_frame t) as (_ & _ & F3 & _ & F5).
  destruct (cancel_fields t) as (_ & H2 & _ & H4).
  unfold isTransitionActive. rewrite H2, H4. auto.
Qed.

Lemma jump_without_targets_is_silent_witness :
  let s := Scenario.snapshotOf "muted"
             [ {| parameterId := "tempo"; value := 64; isEnabled := false |} ]
             [ Scenario.tempo64 ] in
  let t := Scenario.engineWith [s] in
  midiSent (executeJump s (Scenario.jumpSettings 100 none) 0 t) = [] /\
  isTransitionActive (executeJump s (Scenario.jumpSettings 100 none) 0 t) = false.
Proof.
  intros s t.
  destruct (jump_without_targets_is_silent s (Scenario.jumpSettings 100 none) 0 t)
    as (_ & Hsent & _ & Hact).
  - reflexivity.
  - right. exists s. split; [reflexivity |]. repeat constructor.
  - split; [exact Hsent | exact Hact].
Defined.

(** ** A new trigger replaces what was pending *)




(** ** Capturing and dropping *)

Lemma set_same (k : string) (v : Z) (m : list (string * Z)) :
  JsMap.get k m = Some v -> JsMap.set k v m = m.
Proof.
  induction m as [| [k1 v1] r IH]; simpl; intros Hget.
  - discriminate.
  - destruct (String.eqb_spec k1 k) as [-> | Hne].
    + injection Hget as ->. reflexivity.
    + rewrite (IH Hget). reflexivity.
Qed.

Lemma replay_shadow (l : list (string * Z)) :
  forall e : SnapshotEngine,
    (forall kv, In kv l ->
                getCurrentValue (fst kv) e = Some (snd kv) /\ 0 <= snd kv <= 127) ->
    fold_left (fun e kv => updateCurrentValue (fst kv) (snd kv) e) l e = e.
Proof.
  induction l as [| kv r IH]; intros e Hl; simpl.
  - reflexivity.
  - destruct (Hl kv ltac:(left; reflexivity)) as [Hget Hrange].
    assert (Hsame : updateCurrentValue (fst kv) (snd kv) e = e).
    { unfold updateCurrentValue, getCurrentValue, set_currentValues in *.
      replace (Z.max 0 (Z.min 127 (snd kv))) with (snd kv) by lia.
      rewrite (set_same _ _ _ Hget). destruct e; reflexivity. }
    rewrite Hsame. apply IH. intros kv' Hin. apply Hl. right. exact Hin.
Qed.

(** Dropping what was just captured.  When the shadow has one value in
    0..127 per id (as in every store built from a new one), a Drop of the
    snapshot that captureSnapshot has just taken sends the encoding of the
    current value of every registered id, in the order of the shadow, and
    leaves the store as it is. *)
Theorem capture_then_drop_keeps_shadow (bankNo slotNo : Z) (name : option string)
        (uuid : string) (now : Z) (rep : bool) (t : TransitionEngine) :
  List.NoDup (JsMap.keys (currentValues (snapshotEngine t))) ->
  (forall (pid : string) (v : Z),
     getCurrentValue pid (snapshotEngine t) = Some v -> 0 <= v <= 127) ->
  let s := fst (captureSnapshot bankNo slotNo name uuid now (snapshotEngine t)) in
  let e1 := snd (captureSnapshot bankNo slotNo name uuid now (snapshotEngine t)) in
  let t2 := executeDropImmediate s rep (set_snapshotEngine e1 t) in
  snapshotEngine t2 = e1 /\
  currentValues (snapshotEngine t2) = currentValues (snapshotEngine t) /\
  midiSent t2 =
    midiSent t ++
      (if midiSendCallback t
       then flat_map (fun kv => match parameterToMidiMessage (fst kv) (snd kv) with
                                | Some m => [m]
                                | None => []
                                end) (currentValues (snapshotEngine t))
       else []).
Proof.
  intros Hnd Hrange. cbv zeta.
  set (e := snapshotEngine t) in *.
  destruct (executeDropImmediate_effect
              (fst (captureSnapshot bankNo slotNo name uuid now e)) rep
              (set_snapshotEngine (snd (captureSnapshot bankNo slotNo name uuid now e)) t))
    as (Hsent & Hstore & _).
  cbv zeta in Hsent, Hstore.
  assert (Hid : snapshot_id (fst (captureSnapshot bankNo slotNo name uuid now e)) = uuid)
    by reflexivity.
  rewrite Hid in Hsent, Hstore.
  assert (He1 : snapshotEngine
                  (set_snapshotEngine (snd (captureSnapshot bankNo slotNo name uuid now e)) t)
                = snd (captureSnapshot bankNo slotNo name uuid now e))
    by (engine_destruct t; reflexivity).
  rewrite He1 in Hsent, Hstore.
  assert (Htargets : getInterpolationTargets uuid
                       (snd (captureSnapshot bankNo slotNo name uuid now e))
                     = currentValues e).
  { unfold captureSnapshot, createSnapshot, getInterpolationTargets.
    cbn [fst snd set_snapshots snapshots currentValues with_parameters snapshot_id
         parameters].
    rewrite get_set_eq. cbn [parameters].
    apply ShadowSpec.capture_targets. exact Hnd. }
  assert (Hmsgs : getSnapshotMidiMessages uuid
                    (snd (captureSnapshot bankNo slotNo name uuid now e))
                  = flat_map (fun kv => match parameterToMidiMessage (fst kv) (snd kv) with
                                        | Some m => [m]
                                        | None => []
                                        end) (currentValues e)).
  { unfold captureSnapshot, createSnapshot, getSnapshotMidiMessages.
    cbn [fst snd set_snapshots snapshots currentValues with_parameters snapshot_id
         parameters oneShotMessages].
    rewrite get_set_eq. cbn [parameters oneShotMessages].
    rewrite app_nil_r. apply ShadowSpec.capture_messages. }
  rewrite Htargets in Hstore. rewrite Hmsgs in Hsent.
  assert (Hreplay : fold_left (fun e kv => updateCurrentValue (fst kv) (snd kv) e)
                              (currentValues e)
                              (snd (captureSnapshot bankNo slotNo name uuid now e))
                    = snd (captureSnapshot bankNo slotNo name uuid now e)).
  { apply replay_shadow. intros [k v] Hin.
    assert (Hget : JsMap.get k (currentValues e) = Some v)
      by (apply get_of_In_NoDup; assumption).
    split; [exact Hget | exact (Hrange k v Hget)]. }
  rewrite Hreplay in Hstore.
  split; [exact Hstore |]. split; [rewrite Hstore; reflexivity |].
  rewrite Hsent. engine_destruct t. engine_unfold.
  destruct cb1; [reflexivity | rewrite app_nil_r; reflexivity].
Qed.

Lemma capture_then_drop_keeps_shadow_witness :
  let t := Scenario.engineWith [] in
  let s := fst (captureSnapshot 0 0 None "cap" 0 (snapshotEngine t)) in
  let e1 := snd (captureSnapshot 0 0 None "cap" 0 (snapshotEngine t)) in
  let t2 := executeDropImmediate s false (set_snapshotEngine e1 t) in
  currentValues (snapshotEngine t2) = currentValues (snapshotEngine t) /\
  length (midiSent t2) = 54%nat.
Proof.
  intros t s e1 t2.
  destruct (capture_then_drop_keeps_shadow 0 0 None "cap" 0 false t)
    as (_ & Hshadow & Hsent).
  - apply NoDup_ListNoDup. apply (bool_decide_unpack _). vm_compute. exact I.
  - intros pid v Hget. apply (ShadowSpec.get_in_range _ pid v ShadowSpec.defaults_in_range).
    exact Hget.
  - split; [exact Hshadow |]. unfold t2, s, e1. rewrite Hsent. vm_compute. reflexivity.
Defined.

End TransitionOutcomeSpec.
